(** * EmailScout: the extraction queue, its URL extractor and its email finder

    A shallow embedding of the TypeScript sources
    - [types.ts]                    (record and status types),
    - [utils/fileUtils.ts]          ([parseText], [parseFile],
                                     [exportToExcel]),
    - [services/geminiService.ts]   ([findEmailsForUrl]),
    - [App.tsx]                     ([normalizeUrl], [stats], [addUrls],
                                     [removeWebsite], [clearList],
                                     [saveAndClear], [processQueue],
                                     [handleExport], the banner and the
                                     button that starts the run),
    - [components/InputSection.tsx] ([processUrls] and the two ways in
                                     which URLs reach [addUrls]),
    - [components/ResultsTable.tsx] ([getStatusIcon], [getStatusBadge],
                                     the rows),
    followed by the properties proved about them.

    Conventions of the embedding.
    - A JavaScript string is a [string]: a sequence of code units below
      256, with the case conversions and the white space of that range.
    - JavaScript numbers are IEEE 754 binary64 values, taken from the
      standard library's [SpecFloat] (precision 53, [emax] 1024).
    - The [history] object and the [Set] of [addUrls] are a [gmap] and a
      [gset] over strings.
    - React state is one record; every [setX] call is a state update, and
      the suspension points of [processQueue] ([await]) are the places
      where the transition system of [App] hands control back.
    - A callback reads the values of the render that created it.  The
      handlers of the buttons run in the render of their event;
      [addUrls] is called by the input section, at once for the text box
      and after [await parseFile] for a file, and is given the render it
      closes over. *)

From Stdlib Require Import ZArith List String Ascii Bool Lia.
From Stdlib Require Import SpecFloat DecimalString.
From stdpp Require Import gmap strings list fin_maps.

Set Warnings "-register-all".
Local Open Scope string_scope.
Local Open Scope list_scope.

(** ** JavaScript string primitives *)

Module JsString.

Definition code (c : ascii) : nat := nat_of_ascii c.

Definition inRange (lo hi : nat) (c : ascii) : bool :=
  (lo <=? code c)%nat && (code c <=? hi)%nat.

(** the letters with another case among the code units below 256 *)
Definition isUpper (c : ascii) : bool :=
  inRange 65 90 c || inRange 192 214 c || inRange 216 222 c.
Definition isLower (c : ascii) : bool :=
  inRange 97 122 c || inRange 224 246 c || inRange 248 254 c.

Definition lowerChar (c : ascii) : ascii :=
  if isUpper c then ascii_of_nat (code c + 32) else c.

Definition upperChar (c : ascii) : ascii :=
  if isLower c then ascii_of_nat (code c - 32) else c.

(** [s.toLowerCase()] *)
Fixpoint toLowerCase (s : string) : string :=
  match s with
  | EmptyString => EmptyString
  | String c r => String (lowerChar c) (toLowerCase r)
  end.

(** [s.startsWith(p)] *)
Fixpoint startsWith (p s : string) : bool :=
  match p, s with
  | EmptyString, _ => true
  | String a p', String b s' => if Ascii.eqb a b then startsWith p' s' else false
  | String _ _, EmptyString => false
  end.

(** the rest of [s] behind the prefix [p], when [s] starts with [p] *)
Fixpoint dropPrefix (p s : string) : option string :=
  match p, s with
  | EmptyString, _ => Some s
  | String a p', String b s' => if Ascii.eqb a b then dropPrefix p' s' else None
  | String _ _, EmptyString => None
  end.

(** [s.endsWith(p)] for a one-character [p] *)
Fixpoint endsWithChar (c : ascii) (s : string) : bool :=
  match s with
  | EmptyString => false
  | String a EmptyString => Ascii.eqb a c
  | String _ r => endsWithChar c r
  end.

(** [hay.includes(needle)] *)
Fixpoint includes (needle hay : string) : bool :=
  startsWith needle hay ||
  match hay with
  | EmptyString => false
  | String _ r => includes needle r
  end.

(** [s.replace(/pat/g, '')] for a literal, non-empty [pat]: the
    occurrences are found left to right and do not overlap.  [skip]
    counts the characters of the current occurrence still to drop. *)
Fixpoint removeAll_go (pat : string) (skip : nat) (s : string) : string :=
  match s with
  | EmptyString => EmptyString
  | String c r =>
      match skip with
      | S k => removeAll_go pat k r
      | O => if startsWith pat s
             then removeAll_go pat (String.length pat - 1) r
             else String c (removeAll_go pat 0 r)
      end
  end.

Definition removeAll (pat s : string) : string := removeAll_go pat 0 s.

(** white space and line terminators, as [trim] sees them *)
Definition isSpace (c : ascii) : bool :=
  inRange 9 13 c || (code c =? 32)%nat || (code c =? 160)%nat.

Fixpoint trimStart (s : string) : string :=
  match s with
  | EmptyString => EmptyString
  | String c r => if isSpace c then trimStart r else s
  end.

Fixpoint trimEnd (s : string) : string :=
  match s with
  | EmptyString => EmptyString
  | String c r =>
      match trimEnd r with
      | EmptyString => if isSpace c then EmptyString else String c EmptyString
      | r' => String c r'
      end
  end.

(** [s.trim()] *)
Definition trim (s : string) : string := trimEnd (trimStart s).

End JsString.

(** ** Regular expressions

    The patterns of the sources use character classes, sequence,
    alternative and iteration only, so that [RegExp.prototype.test]
    decides membership in a regular language.  The matcher works with
    derivatives.  A class is a list of inclusive code ranges; its flag
    says whether it is matched ignoring case (the [i] flag). *)

Module Regex.

Inductive regex : Type :=
| Void
| Eps
| Cls (ci : bool) (ranges : list (nat * nat))
| Seq (r1 r2 : regex)
| Alt (r1 r2 : regex)
| Star (r : regex).

Definition inRanges (ranges : list (nat * nat)) (c : ascii) : bool :=
  existsb (fun '(lo, hi) => JsString.inRange lo hi c) ranges.

Definition inClass (ci : bool) (ranges : list (nat * nat)) (c : ascii) : bool :=
  inRanges ranges c ||
  (ci && (inRanges ranges (JsString.lowerChar c) || inRanges ranges (JsString.upperChar c))).

Fixpoint nullable (r : regex) : bool :=
  match r with
  | Void => false
  | Eps => true
  | Cls _ _ => false
  | Seq r1 r2 => nullable r1 && nullable r2
  | Alt r1 r2 => nullable r1 || nullable r2
  | Star _ => true
  end.

Fixpoint regex_eqb (r s : regex) : bool :=
  match r, s with
  | Void, Void => true
  | Eps, Eps => true
  | Cls i1 l1, Cls i2 l2 =>
      Bool.eqb i1 i2 &&
      bool_decide (l1 = l2)
  | Seq a1 a2, Seq b1 b2 => regex_eqb a1 b1 && regex_eqb a2 b2
  | Alt a1 a2, Alt b1 b2 => regex_eqb a1 b1 && regex_eqb a2 b2
  | Star a, Star b => regex_eqb a b
  | _, _ => false
  end.

(** constructors that drop the void and the duplicate alternatives *)
Definition mkSeq (r1 r2 : regex) : regex :=
  match r1, r2 with
  | Void, _ => Void
  | _, Void => Void
  | Eps, _ => r2
  | _, _ => Seq r1 r2
  end.

Definition mkAlt (r1 r2 : regex) : regex :=
  match r1, r2 with
  | Void, _ => r2
  | _, Void => r1
  | _, _ => if regex_eqb r1 r2 then r1 else Alt r1 r2
  end.

Fixpoint deriv (c : ascii) (r : regex) : regex :=
  match r with
  | Void => Void
  | Eps => Void
  | Cls ci ranges => if inClass ci ranges c then Eps else Void
  | Seq r1 r2 =>
      if nullable r1
      then mkAlt (mkSeq (deriv c r1) r2) (deriv c r2)
      else mkSeq (deriv c r1) r2
  | Alt r1 r2 => mkAlt (deriv c r1) (deriv c r2)
  | Star r1 => mkSeq (deriv c r1) (Star r1)
  end.

(** the whole of [s] is a word of [r] *)
Fixpoint matches (r : regex) (s : string) : bool :=
  match s with
  | EmptyString => nullable r
  | String c s' => matches (deriv c r) s'
  end.

(** notations of the pattern language *)
Definition chr (c : ascii) : regex := Cls false [(JsString.code c, JsString.code c)].
Definition anyChar : regex := Cls false [(0, 255)]%nat.
Definition opt (r : regex) : regex := Alt r Eps.
Definition plus (r : regex) : regex := Seq r (Star r).

Fixpoint lit (s : string) : regex :=
  match s with
  | EmptyString => Eps
  | String c r => Seq (chr c) (lit r)
  end.

(** [r{n}] and [r{n,m}] with [m = n + extra] *)
Fixpoint times (n : nat) (r : regex) : regex :=
  match n with
  | O => Eps
  | S k => Seq r (times k r)
  end.

Fixpoint upTo (n : nat) (r : regex) : regex :=
  match n with
  | O => Eps
  | S k => opt (Seq r (upTo k r))
  end.

Definition between (n extra : nat) (r : regex) : regex :=
  Seq (times n r) (upTo extra r).

(** [re.test(s)] for a pattern anchored at both ends *)
Definition testAnchored (r : regex) (s : string) : bool := matches r s.

(** [re.test(s)] for a pattern without anchors: a match anywhere *)
Definition testAnywhere (r : regex) (s : string) : bool :=
  matches (Seq (Star anyChar) (Seq r (Star anyChar))) s.

End Regex.

(** ** JavaScript numbers *)

Module JsNumber.

Definition prec : Z := 53.
Definition emax : Z := 1024.

(** a Number value *)
Definition number : Type := spec_float.

#[global] Instance number_eq_dec : EqDecision spec_float.
Proof. solve_decision. Defined.

(** the Number nearest to an integer (an array length, a literal) *)
Definition ofZ (z : Z) : number := binary_normalize prec emax z 0 false.
Definition ofNat (n : nat) : number := ofZ (Z.of_nat n).

Definition div : number -> number -> number := SFdiv prec emax.
Definition mul : number -> number -> number := SFmul prec emax.

(** [floor (v + 1/2)] for the finite value [v = (-1)^s * m * 2^e] *)
Definition roundHalfUp (s : bool) (m : positive) (e : Z) : Z :=
  let v := if s then Z.neg m else Z.pos m in
  match e with
  | Z.neg k => (v + 2 ^ (Z.pos k - 1)) / 2 ^ Z.pos k
  | _ => v * 2 ^ e
  end.

(** [Math.round]: the nearest integer, a tie going to the larger one;
    zeros, infinities and NaN are returned as they are, and a negative
    argument that rounds to zero gives the negative zero. *)
Definition Math_round (x : number) : number :=
  match x with
  | S754_finite s m e =>
      match roundHalfUp s m e with
      | Z0 => S754_zero s
      | z => ofZ z
      end
  | _ => x
  end.

End JsNumber.

(** ** [types.ts] *)

Module Types.

Inductive ExtractionStatus : Type :=
| IDLE
| PENDING
| PROCESSING
| COMPLETED
| FAILED.

#[global] Instance ExtractionStatus_eq_dec : EqDecision ExtractionStatus.
Proof. solve_decision. Defined.

Definition status_eqb (a b : ExtractionStatus) : bool :=
  match a, b with
  | IDLE, IDLE | PENDING, PENDING | PROCESSING, PROCESSING
  | COMPLETED, COMPLETED | FAILED, FAILED => true
  | _, _ => false
  end.

(** [id] is the token [uuidv4()] returns; tokens are drawn from a
    counter, so that no token is handed out twice. *)
Record WebsiteData : Type := mkWebsiteData {
  id : nat;
  url : string;
  status : ExtractionStatus;
  emails : list string;
  error : option string;
  sourceUrl : option string
}.

Record Stats : Type := mkStats {
  total : nat;
  processed : nat;
  found : nat;
  successRate : JsNumber.number
}.

End Types.

(** ** [utils/fileUtils.ts] *)

Module FileUtils.
Import Regex.

(** [[\da-z\.-]] *)
Definition hostChars (i : bool) : regex :=
  Cls i [(48, 57); (97, 122); (46, 46); (45, 45)]%nat.
(** [[a-z\.]] *)
Definition tldChars (i : bool) : regex :=
  Cls i [(97, 122); (46, 46)]%nat.
(** [[\/\w \.-]], with [\w] = [[A-Za-z0-9_]] *)
Definition pathChars (i : bool) : regex :=
  Cls i [(47, 47); (65, 90); (97, 122); (48, 57); (95, 95);
         (32, 32); (46, 46); (45, 45)]%nat.

(** The pattern [urlRegex] of [parseFile] and, with the [i] flag, of
    [parseText]: between [^] and [$], an optional [https?:\/\/], one or
    more host characters, a dot, two to six characters of [[a-z\.]], any
    number of runs of path characters, and an optional slash. *)
Definition urlRegex (i : bool) : regex :=
  Seq (opt (Seq (Seq (Cls i [(104, 104)]%nat)
                (Seq (Cls i [(116, 116)]%nat)
                (Seq (Cls i [(116, 116)]%nat)
                (Seq (Cls i [(112, 112)]%nat)
                     (opt (Cls i [(115, 115)]%nat))))))
                (lit "://")))
 (Seq (plus (hostChars i))
 (Seq (chr ".")
 (Seq (between 2 4 (tldChars i))
 (Seq (Star (Star (pathChars i)))
      (opt (chr "/")))))).

(** [/[\n,;]+/] splits at the runs of separators *)
Definition isSeparator (c : ascii) : bool :=
  (JsString.code c =? 10)%nat || (JsString.code c =? 44)%nat || (JsString.code c =? 59)%nat.

(** [text.split(/[\n,;]+/)]; [cur] is the piece being read, in reverse,
    and [inRun] says that the last character was a separator *)
Fixpoint split_go (s : string) (cur : string) (inRun : bool) : list string :=
  match s with
  | EmptyString => [String.rev cur]
  | String c r =>
      if isSeparator c
      then if inRun then split_go r cur true
           else String.rev cur :: split_go r EmptyString true
      else split_go r (String c cur) false
  end.

Definition split (text : string) : list string := split_go text EmptyString false.

(** [Array.from(new Set(xs))]: first occurrences, in order *)
Fixpoint dedup_go (seen : gset string) (xs : list string) : list string :=
  match xs with
  | [] => []
  | x :: r =>
      if bool_decide (x ∈ seen) then dedup_go seen r
      else x :: dedup_go ({[x]} ∪ seen) r
  end.

Definition arrayFromSet (xs : list string) : list string := dedup_go ∅ xs.

Definition parseText (text : string) : list string :=
  let lines := split text in
  let urlRegex := urlRegex true in
  let urls :=
    filter (fun line => (0 <? String.length line)%nat && testAnchored urlRegex line = true)
           (map JsString.trim lines) in
  arrayFromSet urls.

(** a cell of the sheet: only the strings are looked at *)
Inductive cell : Type :=
| CString (s : string)
| COther.

(** what reading the file gives: a read error, no data, a workbook that
    does not parse, or the rows of the first sheet *)
Inductive fileContents : Type :=
| ReadError
| NoData
| BadWorkbook
| FirstSheet (rows : list (list cell)).

Definition cellUrls (c : cell) : list string :=
  match c with
  | CString s =>
      let trimmed := JsString.trim s in
      if testAnchored (urlRegex false) trimmed then [trimmed] else []
  | COther => []
  end.

(** [None] is the rejected promise *)
Definition parseFile (file : fileContents) : option (list string) :=
  match file with
  | ReadError => None
  | NoData => Some []
  | BadWorkbook => None
  | FirstSheet rows =>
      let urls := concat (map (fun row => concat (map cellUrls row)) rows) in
      Some (arrayFromSet urls)
  end.

End FileUtils.

(** ** Errors and settled promises *)

Module Js.

(** a thrown value, as [processQueue] inspects it: [error?.status],
    [error?.code] and [error?.message] *)
Record JsError : Type := mkJsError {
  err_status : option Z;
  err_code : option Z;
  err_message : option string
}.

(** [new Error(message)] *)
Definition newError (message : string) : JsError :=
  mkJsError None None (Some message).

(** what [await] sees *)
Inductive settled (A : Type) : Type :=
| Fulfilled (a : A)
| Rejected (e : JsError).

Arguments Fulfilled {A} a.
Arguments Rejected {A} e.

(** the values [JSON.parse] builds; a number carries the text that
    [String] gives for it *)
Inductive json : Type :=
| JNull
| JBool (b : bool)
| JNumber (shown : string)
| JString (s : string)
| JArray (items : list json)
| JObject (fields : list (string * json)).

Fixpoint join (sep : string) (parts : list string) : string :=
  match parts with
  | [] => EmptyString
  | [x] => x
  | x :: r => (x ++ sep ++ join sep r)%string
  end.

(** the texts of the elements of an array, when each of them has one *)
Fixpoint allTexts (parts : list (option string)) : option (list string) :=
  match parts with
  | [] => Some []
  | Some x :: r =>
      match allTexts r with
      | Some xs => Some (x :: xs)
      | None => None
      end
  | None :: _ => None
  end.

(** an own member of that name, whatever its value *)
Fixpoint hasOwn (key : string) (fields : list (string * json)) : bool :=
  match fields with
  | [] => false
  | (k, _) :: r => String.eqb k key || hasOwn key r
  end.

(** [String(v)]: the coercion [RegExp.prototype.test] applies to its
    argument; [None] is the [TypeError] it throws.  In
    [Array.prototype.join], [null] counts as empty.  An object is turned
    into a text by its [toString] member: the inherited one answers
    [[object Object]]; an own one, which [JSON.parse] never makes
    callable, leaves no way to a text. *)
Fixpoint toString (v : json) : option string :=
  match v with
  | JNull => Some "null"
  | JBool true => Some "true"
  | JBool false => Some "false"
  | JNumber shown => Some shown
  | JString s => Some s
  | JArray items =>
      match allTexts (map (fun x => match x with
                                    | JNull => Some EmptyString
                                    | _ => toString x
                                    end) items) with
      | Some texts => Some (join "," texts)
      | None => None
      end
  | JObject fields => if hasOwn "toString" fields then None else Some "[object Object]"
  end.

(** [items.filter(test)] for a test that may throw: the first throw ends
    the whole call *)
Fixpoint filterOrThrow {A : Type} (test : A -> option bool) (items : list A)
  : option (list A) :=
  match items with
  | [] => Some []
  | x :: r =>
      match test x with
      | Some keep =>
          match filterOrThrow test r with
          | Some kept => Some (if keep then x :: kept else kept)
          | None => None
          end
      | None => None
      end
  end.

(** [v] in a condition *)
Definition truthy (v : json) : bool :=
  match v with
  | JNull => false
  | JBool b => b
  | JNumber shown => negb (String.eqb shown "0") && negb (String.eqb shown "NaN")
  | JString s => negb (String.eqb s EmptyString)
  | JArray _ | JObject _ => true
  end.

(** [v.key] for a key that no prototype defines; [None] is [undefined] *)
Fixpoint assoc (key : string) (fields : list (string * json)) : option json :=
  match fields with
  | [] => None
  | (k, x) :: r => if String.eqb k key then Some x else assoc key r
  end.

Definition property (v : json) (key : string) : option json :=
  match v with
  | JObject fields => assoc key fields
  | _ => None
  end.

Definition isString (v : json) : bool :=
  match v with JString _ => true | _ => false end.

End Js.

(** ** [services/geminiService.ts] *)

Module GeminiService.
Import Regex Js.

(** [/[a-zA-Z0-9._%+-]+@[a-zA-Z0-9.-]+\.[a-zA-Z]{2,}/] *)
Definition emailRegex : regex :=
  Seq (plus (Cls false [(97, 122); (65, 90); (48, 57); (46, 46); (95, 95);
                        (37, 37); (43, 43); (45, 45)]%nat))
 (Seq (chr "@")
 (Seq (plus (Cls false [(97, 122); (65, 90); (48, 57); (46, 46); (45, 45)]%nat))
 (Seq (chr ".")
      (Seq (times 2 (Cls false [(97, 122); (65, 90)]%nat))
           (Star (Cls false [(97, 122); (65, 90)]%nat)))))).

(** [emailRegex.test(e)]; [None] when the coercion of [e] throws *)
Definition emailRegex_test (e : json) : option bool :=
  match toString e with
  | Some text => Some (testAnywhere emailRegex text)
  | None => None
  end.

(** the request handed to [ai.models.generateContent]: the model, the
    URL the instructions name, and the audience when the instructions
    carry the priority rules *)
Record request : Type := mkRequest {
  req_model : string;
  req_url : string;
  req_audience : option string
}.

Definition instructions (url : string) (targetAudience : option string) : request :=
  mkRequest "gemini-2.5-flash" url
    match targetAudience with
    | Some a => if negb (String.eqb a EmptyString) && negb (String.eqb (JsString.trim a) EmptyString)
                then Some a else None
    | None => None
    end.

Section Service.
(** [process.env.API_KEY] *)
Variable API_KEY : option string.
(** the remote call: it rejects, or answers with [response.text] *)
Variable generateContent : request -> settled (option string).
(** [JSON.parse]; [None] is the [SyntaxError] *)
Variable JSON_parse : string -> option json.

Definition getClient : settled unit :=
  match API_KEY with
  | None => Rejected (newError "API Key not found in environment variables")
  | Some k =>
      if String.eqb k EmptyString
      then Rejected (newError "API Key not found in environment variables")
      else Fulfilled tt
  end.

Definition cleanText (text : string) : string :=
  JsString.trim (JsString.removeAll "```" (JsString.removeAll "```json" text)).

(** the inner [try]: from the text of the response to the list returned;
    its [catch] answers a throw of [JSON.parse] or of the filter with the
    empty list *)
Definition extractEmails (text : string) : list json :=
  match JSON_parse (cleanText text) with
  | Some parsed =>
      if truthy parsed then
        match property parsed "emails" with
        | Some (JArray emails) =>
            match filterOrThrow emailRegex_test emails with
            | Some kept => kept
            | None => []
            end
        | _ => []
        end
      else []
  | None => []
  end.

Definition findEmailsForUrl (url : string) (targetAudience : option string)
  : settled (list json) :=
  match getClient with
  | Rejected error => Rejected error
  | Fulfilled _ =>
      match generateContent (instructions url targetAudience) with
      | Rejected error => Rejected error
      | Fulfilled response_text =>
          let text := match response_text with
                      | Some t => t
                      | None => EmptyString
                      end in
          Fulfilled (extractEmails text)
      end
  end.
End Service.

(** a [JSON.parse] known at one text only *)
Definition parseAt (text : string) (value : json) : string -> option json :=
  fun s => if String.eqb s text then Some value else None.

End GeminiService.

(** ** [App.tsx] *)

Module App.
Import Types Js.

(** *** [normalizeUrl] *)

(** [s.replace(/^(https?:\/\/)?/, '')] *)
Definition replaceScheme (s : string) : string :=
  match JsString.dropPrefix "https://" s with
  | Some r => r
  | None =>
      match JsString.dropPrefix "http://" s with
      | Some r => r
      | None => s
      end
  end.

(** [s.replace(/\/$/, '')] *)
Fixpoint replaceTrailingSlash (s : string) : string :=
  match s with
  | EmptyString => EmptyString
  | String c EmptyString => if Ascii.eqb c "/" then EmptyString else s
  | String c r => String c (replaceTrailingSlash r)
  end.

Definition normalizeUrl (url : string) : string :=
  JsString.toLowerCase (replaceTrailingSlash (replaceScheme url)).

(** *** [stats] *)

Definition isProcessed (w : WebsiteData) : bool :=
  status_eqb (status w) COMPLETED || status_eqb (status w) FAILED.

Definition hasEmails (w : WebsiteData) : bool :=
  (0 <? length (emails w))%nat.

Definition stats (websites : list WebsiteData) : Stats :=
  let processed := length (List.filter isProcessed websites) in
  let found := length (List.filter hasEmails websites) in
  let total := length websites in
  {| total := total;
     processed := processed;
     found := found;
     successRate :=
       if (0 <? processed)%nat
       then JsNumber.Math_round
              (JsNumber.mul (JsNumber.div (JsNumber.ofNat found) (JsNumber.ofNat processed))
                            (JsNumber.ofZ 100))
       else JsNumber.ofZ 0 |}.

(** *** The component state *)

(** the texts [setNotification] is given, with the counts they show *)
Inductive Notification : Type :=
| HistorySkipped (skippedHistoryCount skippedDuplicateCount : nat)
| DuplicatesIgnored (skippedDuplicateCount : nat)
| RateLimitReached
| SavedToHistory (savedCount : nat).

(** where a call of [processQueue] is suspended: at the [await] of the
    finder for [item], or at the [await] of the delay, with the items of
    the snapshot still to come and the audience the call captured *)
Inductive Suspended : Type :=
| AwaitFinder (item : WebsiteData) (rest : list WebsiteData) (audience : string)
| AwaitDelay (rest : list WebsiteData) (audience : string).

(** what a render hands to the callbacks it creates: [addUrls] closes
    over the values of [websites] and [history] of its render *)
Record Render : Type := mkRender {
  renderedWebsites : list WebsiteData;
  renderedHistory : gmap string (list string)
}.

Record State : Type := mkState {
  websites : list WebsiteData;
  isProcessing : bool;
  targetAudience : string;
  history : gmap string (list string);
  notification : option Notification;
  (** the next token of [uuidv4] *)
  uuid : nat;
  (** the suspended call of [processQueue], if there is one *)
  queue : option Suspended;
  (** the calls of [findEmailsForUrl] made so far: URL and audience *)
  finderCalls : list (string * string);
  (** the file handlers of the input section that wait for [parseFile]:
      each holds the [addUrls] of the render in which it was started *)
  fileReads : list Render
}.

Definition setWebsites (f : list WebsiteData -> list WebsiteData) (s : State) : State :=
  mkState (f (websites s)) (isProcessing s) (targetAudience s) (history s)
          (notification s) (uuid s) (queue s) (finderCalls s) (fileReads s).

Definition setIsProcessing (b : bool) (s : State) : State :=
  mkState (websites s) b (targetAudience s) (history s)
          (notification s) (uuid s) (queue s) (finderCalls s) (fileReads s).

Definition setTargetAudience (a : string) (s : State) : State :=
  mkState (websites s) (isProcessing s) a (history s)
          (notification s) (uuid s) (queue s) (finderCalls s) (fileReads s).

Definition setHistory (h : gmap string (list string)) (s : State) : State :=
  mkState (websites s) (isProcessing s) (targetAudience s) h
          (notification s) (uuid s) (queue s) (finderCalls s) (fileReads s).

Definition setNotification (n : option Notification) (s : State) : State :=
  mkState (websites s) (isProcessing s) (targetAudience s) (history s)
          n (uuid s) (queue s) (finderCalls s) (fileReads s).

Definition setUuid (u : nat) (s : State) : State :=
  mkState (websites s) (isProcessing s) (targetAudience s) (history s)
          (notification s) u (queue s) (finderCalls s) (fileReads s).

Definition setQueue (q : option Suspended) (s : State) : State :=
  mkState (websites s) (isProcessing s) (targetAudience s) (history s)
          (notification s) (uuid s) q (finderCalls s) (fileReads s).

Definition logFinderCall (u a : string) (s : State) : State :=
  mkState (websites s) (isProcessing s) (targetAudience s) (history s)
          (notification s) (uuid s) (queue s) (finderCalls s ++ [(u, a)]) (fileReads s).

Definition setFileReads (reads : list Render) (s : State) : State :=
  mkState (websites s) (isProcessing s) (targetAudience s) (history s)
          (notification s) (uuid s) (queue s) (finderCalls s) reads.

(** the render of a state: what a callback created now closes over *)
Definition currentRender (s : State) : Render := mkRender (websites s) (history s).

(** the state of a fresh page: [saved] is what local storage holds, an
    object the page has written: its values are arrays *)
Definition initial (saved : gmap string (list string)) : State :=
  mkState [] false EmptyString saved None 0 None [] [].

(** *** [addUrls] *)

Record AddUrls : Type := mkAddUrls {
  newEntries : list WebsiteData;
  skippedHistoryCount : nat;
  skippedDuplicateCount : nat;
  currentNormalized : gset string;
  nextUuid : nat
}.

(** the members every object inherits from [Object.prototype]; none of
    them is falsy *)
Definition inheritedKeys : list string :=
  ["constructor"; "__defineGetter__"; "__defineSetter__"; "hasOwnProperty";
   "__lookupGetter__"; "__lookupSetter__"; "isPrototypeOf"; "propertyIsEnumerable";
   "toString"; "valueOf"; "__proto__"; "toLocaleString"].

(** [history[key]] in a condition: an own member of the history is an
    array, and an array is truthy; so is an inherited member *)
Definition historyHas (history : gmap string (list string)) (key : string) : bool :=
  bool_decide (is_Some (history !! key)) || bool_decide (key ∈ inheritedKeys).

(** the body of [urls.forEach] *)
Definition addUrl (history : gmap string (list string)) (acc : AddUrls) (url : string)
  : AddUrls :=
  let normalized := normalizeUrl url in
  if bool_decide (normalized ∈ currentNormalized acc) then
    mkAddUrls (newEntries acc) (skippedHistoryCount acc) (S (skippedDuplicateCount acc))
              (currentNormalized acc) (nextUuid acc)
  else if historyHas history normalized then
    mkAddUrls (newEntries acc) (S (skippedHistoryCount acc)) (skippedDuplicateCount acc)
              (currentNormalized acc) (nextUuid acc)
  else
    mkAddUrls (newEntries acc ++ [mkWebsiteData (nextUuid acc) url IDLE [] None None])
              (skippedHistoryCount acc) (skippedDuplicateCount acc)
              ({[normalized]} ∪ currentNormalized acc) (S (nextUuid acc)).

Definition addUrlsStart (websites : list WebsiteData) (uuid : nat) : AddUrls :=
  mkAddUrls [] 0 0 (list_to_set (map (fun w => normalizeUrl (url w)) websites)) uuid.

Definition addUrlsLoop (websites : list WebsiteData) (history : gmap string (list string))
    (uuid : nat) (urls : list string) : AddUrls :=
  fold_left (addUrl history) urls (addUrlsStart websites uuid).

Definition addUrlsNotification (acc : AddUrls) : option Notification :=
  if (0 <? skippedHistoryCount acc)%nat
  then Some (HistorySkipped (skippedHistoryCount acc) (skippedDuplicateCount acc))
  else if (0 <? skippedDuplicateCount acc)%nat
       then Some (DuplicatesIgnored (skippedDuplicateCount acc))
       else None.

(** [addUrls] as the render [rendered] created it: the URLs are compared
    with the list and the history of that render, and the new records are
    appended to the list of the state ([setWebsites(prev => ...)]) *)
Definition addUrls (rendered : Render) (urls : list string) (s : State) : State :=
  let acc := addUrlsLoop (renderedWebsites rendered) (renderedHistory rendered)
                         (uuid s) urls in
  let s := setNotification (addUrlsNotification acc) s in
  let s := setUuid (nextUuid acc) s in
  if (0 <? length (newEntries acc))%nat
  then setWebsites (fun prev => prev ++ newEntries acc) s
  else s.

(** [processUrls] of the input section, the one caller of [addUrls]: a
    list without a URL ends in an alert *)
Definition processUrls (rendered : Render) (urls : list string) (s : State) : State :=
  match urls with
  | [] => s
  | _ => addUrls rendered urls s
  end.

(** *** [removeWebsite], [clearList], [saveAndClear] *)

Definition removeWebsite (i : nat) (s : State) : State :=
  setWebsites (List.filter (fun w => negb (id w =? i)%nat)) s.

(** [confirmed] is the answer of [window.confirm] *)
Definition clearList (confirmed : bool) (s : State) : State :=
  match websites s with
  | [] => s
  | _ => if confirmed
         then setNotification None (setWebsites (fun _ => []) s)
         else s
  end.

(** the body of [websites.forEach] in [saveAndClear] *)
Definition saveRecord (newHistory : gmap string (list string)) (w : WebsiteData)
  : gmap string (list string) :=
  if isProcessed w then <[normalizeUrl (url w) := emails w]> newHistory else newHistory.

(** [stored] says that [localStorage.setItem] took the new history; when
    it throws instead, the handler ends there, before any state is set.
    The assignment [newHistory[key] = w.emails] writes an own member for
    every key but [__proto__], which is the normalized form of no URL
    that the pattern of the extractor lets through. *)
Definition saveAndClear (stored : bool) (s : State) : State :=
  match websites s with
  | [] => s
  | _ =>
      let newHistory := fold_left saveRecord (websites s) (history s) in
      let savedCount := length (List.filter isProcessed (websites s)) in
      if stored
      then setNotification (Some (SavedToHistory savedCount))
             (setWebsites (fun _ => []) (setHistory newHistory s))
      else s
  end.

(** *** [processQueue] *)

Definition isRateLimit (error : JsError) : bool :=
  bool_decide (err_status error = Some 429%Z) ||
  bool_decide (err_code error = Some 429%Z) ||
  match err_message error with
  | Some m => JsString.includes "429" m || JsString.includes "quota" m
              || JsString.includes "RESOURCE_EXHAUSTED" m
  | None => false
  end.

(** [error.message || "Failed to scout"] *)
Definition failureNote (error : JsError) : string :=
  match err_message error with
  | Some m => if String.eqb m EmptyString then "Failed to scout" else m
  | None => "Failed to scout"
  end.

(** [{ ...w, status }], [{ ...w, status, emails }], [{ ...w, status, error }] *)
Definition withStatus (st : ExtractionStatus) (w : WebsiteData) : WebsiteData :=
  mkWebsiteData (id w) (url w) st (emails w) (error w) (sourceUrl w).

Definition withEmails (st : ExtractionStatus) (found : list string) (w : WebsiteData)
  : WebsiteData :=
  mkWebsiteData (id w) (url w) st found (error w) (sourceUrl w).

Definition withError (st : ExtractionStatus) (note : string) (w : WebsiteData)
  : WebsiteData :=
  mkWebsiteData (id w) (url w) st (emails w) (Some note) (sourceUrl w).

(** [prev.map(w => w.id === item.id ? f(w) : w)] *)
Definition mapItem (item : WebsiteData) (f : WebsiteData -> WebsiteData)
    (prev : list WebsiteData) : list WebsiteData :=
  map (fun w => if (id w =? id item)%nat then f w else w) prev.

Definition isIdle (w : WebsiteData) : bool := status_eqb (status w) IDLE.

(** the head of the [for] loop: take the next item of the snapshot, show
    it as PROCESSING and call the finder, or leave the loop *)
Definition enterLoop (audience : string) (pendingItems : list WebsiteData) (s : State)
  : State :=
  match pendingItems with
  | [] => setQueue None (setIsProcessing false s)
  | item :: rest =>
      setQueue (Some (AwaitFinder item rest audience))
        (logFinderCall (url item) audience
           (setWebsites (mapItem item (withStatus PROCESSING)) s))
  end.

(** from the call to the first suspension *)
Definition processQueue (s : State) : State :=
  if isProcessing s then s
  else
    let s1 := setNotification None (setIsProcessing true s) in
    let pendingItems := List.filter isIdle (websites s) in
    enterLoop (targetAudience s) pendingItems s1.

(** the [try] and [catch] blocks, up to the next suspension or [return] *)
Definition afterFinder (item : WebsiteData) (rest : list WebsiteData) (audience : string)
    (outcome : settled (list string)) (s : State) : State :=
  match outcome with
  | Fulfilled found =>
      setQueue (Some (AwaitDelay rest audience))
        (setWebsites (mapItem item (withEmails COMPLETED found)) s)
  | Rejected error =>
      if isRateLimit error then
        setQueue None
          (setWebsites (mapItem item (withStatus IDLE))
             (setIsProcessing false (setNotification (Some RateLimitReached) s)))
      else
        setQueue (Some (AwaitDelay rest audience))
          (setWebsites (mapItem item (withError FAILED (failureNote error))) s)
  end.

(** *** The component as a transition system

    An event is a user action, the end of a file read, the answer of the
    finder to the call in flight, or the end of the delay.  The handlers
    are total: an event that nothing waits for leaves the state as it is.
    The page disables its buttons while a run is in progress; the handlers
    themselves have no such guard, and the transition system allows every
    event in every state, so that it covers every order of events the page
    allows.  The timer that [saveAndClear] starts arrives as
    [DismissNotification].

    URLs reach [addUrls] from the input section in two ways.  The URLs of
    the text box are handed over within one event, by the callback of the
    current render ([AddUrlsEvent]).  A file is read first: its handler is
    started with the callback of the current render ([FileChosen]) and
    hands the URLs over when [parseFile] has answered ([FileRead], with
    the position of the handler among those that wait and with what the
    file holds), by the callback it was started with, whatever has
    happened to the list in between.  A read that fails, or finds no URL,
    ends in an alert. *)
Inductive Event : Type :=
| AddUrlsEvent (urls : list string)
| FileChosen
| FileRead (k : nat) (file : FileUtils.fileContents)
| RemoveWebsite (i : nat)
| ClearList (confirmed : bool)
| SaveAndClear (stored : bool)
| SetTargetAudience (a : string)
| DismissNotification
| ProcessQueue
| FinderSettled (outcome : settled (list string))
| DelayElapsed.

Definition step (s : State) (e : Event) : State :=
  match e with
  | AddUrlsEvent urls => processUrls (currentRender s) urls s
  | FileChosen => setFileReads (fileReads s ++ [currentRender s]) s
  | FileRead k file =>
      match fileReads s !! k with
      | Some rendered =>
          let s := setFileReads (delete k (fileReads s)) s in
          match FileUtils.parseFile file with
          | Some urls => processUrls rendered urls s
          | None => s
          end
      | None => s
      end
  | RemoveWebsite i => removeWebsite i s
  | ClearList confirmed => clearList confirmed s
  | SaveAndClear stored => saveAndClear stored s
  | SetTargetAudience a => setTargetAudience a s
  | DismissNotification => setNotification None s
  | ProcessQueue => processQueue s
  | FinderSettled outcome =>
      match queue s with
      | Some (AwaitFinder item rest audience) => afterFinder item rest audience outcome s
      | _ => s
      end
  | DelayElapsed =>
      match queue s with
      | Some (AwaitDelay rest audience) => enterLoop audience rest s
      | _ => s
      end
  end.

Definition steps (s : State) (es : list Event) : State := fold_left step es s.

Inductive reachable : State -> Prop :=
| reachable_initial saved : reachable (initial saved)
| reachable_step s e : reachable s -> reachable (step s e).

(** *** One run of the queue against a finder

    [finder n u a] is the answer to the [n]-th call of the run, made for
    the URL [u] with the audience [a]; an answer is a list of strings, as
    the signature of [findEmailsForUrl] declares.  Nothing else happens
    during the run. *)
Definition Finder : Type := nat -> string -> string -> settled (list string).

Fixpoint runLoop (finder : Finder) (audience : string) (n : nat)
    (pendingItems : list WebsiteData) (s : State) : State :=
  match pendingItems with
  | [] => enterLoop audience [] s
  | item :: rest =>
      let s1 := enterLoop audience (item :: rest) s in
      let s2 := afterFinder item rest audience (finder n (url item) audience) s1 in
      match queue s2 with
      | Some (AwaitDelay _ _) => runLoop finder audience (S n) rest s2
      | _ => s2
      end
  end.

Definition runQueue (finder : Finder) (s : State) : State :=
  if isProcessing s then s
  else
    let s1 := setNotification None (setIsProcessing true s) in
    runLoop finder (targetAudience s) 0 (List.filter isIdle (websites s)) s1.

(** the events of that run, as the transition system sees them *)
Fixpoint runEvents (finder : Finder) (audience : string) (n : nat)
    (pendingItems : list WebsiteData) : list Event :=
  match pendingItems with
  | [] => []
  | item :: rest =>
      let outcome := finder n (url item) audience in
      FinderSettled outcome ::
      match outcome with
      | Rejected error =>
          if isRateLimit error then []
          else DelayElapsed :: runEvents finder audience (S n) rest
      | Fulfilled _ => DelayElapsed :: runEvents finder audience (S n) rest
      end
  end.

End App.

(** ** The vocabulary of the properties *)

Section Vocabulary.
Import Types Js App.

(** *** Strings and URLs *)

(** [s.endsWith("//")] *)
Definition endsWithTwoSlashes (s : string) : bool :=
  JsString.endsWithChar "/" s && JsString.endsWithChar "/" (replaceTrailingSlash s).

Definition hasSchemePrefix (s : string) : bool :=
  JsString.startsWith "http://" s || JsString.startsWith "https://" s.

Definition noUpperCase (s : string) : Prop :=
  Forall (fun c => JsString.isUpper c = false) (list_ascii_of_string s).

Definition normalizedOf (ws : list WebsiteData) : list string :=
  map (fun w => normalizeUrl (url w)) ws.

(** *** Patterns *)

(** the words of a pattern *)
Inductive Word : Regex.regex -> string -> Prop :=
| Word_Eps : Word Regex.Eps EmptyString
| Word_Cls ci ranges c :
    Regex.inClass ci ranges c = true -> Word (Regex.Cls ci ranges) (String c EmptyString)
| Word_Seq r1 r2 s1 s2 :
    Word r1 s1 -> Word r2 s2 -> Word (Regex.Seq r1 r2) (s1 ++ s2)%string
| Word_AltL r1 r2 s : Word r1 s -> Word (Regex.Alt r1 r2) s
| Word_AltR r1 r2 s : Word r2 s -> Word (Regex.Alt r1 r2) s
| Word_StarNil r : Word (Regex.Star r) EmptyString
| Word_StarMore r s1 s2 :
    Word r s1 -> Word (Regex.Star r) s2 -> Word (Regex.Star r) (s1 ++ s2)%string.

(** *** Counting and rates *)

(** the number of elements of a list with a property *)
Fixpoint countIf {A : Type} (p : A -> bool) (l : list A) : nat :=
  match l with
  | [] => 0
  | x :: r => (if p x then 1 else 0) + countIf p r
  end.

(** [floor (100 * found / processed + 1/2)] on the integers *)
Definition exactPercentage (found processed : nat) : Z :=
  (200 * Z.of_nat found + Z.of_nat processed) / (2 * Z.of_nat processed).

(** the rate the code computes for the two counts *)
Definition computedRate (found processed : nat) : JsNumber.number :=
  JsNumber.Math_round
    (JsNumber.mul (JsNumber.div (JsNumber.ofNat found) (JsNumber.ofNat processed))
                  (JsNumber.ofZ 100)).

(** the rates for a bounded number of processed records, one by one *)
Definition rateIsExact (processed found : nat) : bool :=
  bool_decide (computedRate found processed
               = JsNumber.ofZ (exactPercentage found processed)).

Definition ratesExactBelow (bound : nat) : bool :=
  forallb (fun p => forallb (rateIsExact (S p)) (seq 0 (S (S p)))) (seq 0 bound).

(** the value of a shift record is exact *)
Definition exactRecord (mrs : shr_record) : bool :=
  negb (shr_r mrs) && negb (shr_s mrs).

(** *** Records and states of the examples *)

Definition record (i : nat) (u : string) (st : ExtractionStatus) (found : list string)
  : WebsiteData :=
  mkWebsiteData i u st found None None.

(** forty processed records, twenty-three of them with an address *)
Definition fortyRecords : list WebsiteData :=
  map (fun i => record i "a.com" COMPLETED ["a@a.com"]) (seq 0 23) ++
  map (fun i => record i "b.com" FAILED []) (seq 23 17).

(** eight processed records, one of them with an address *)
Definition eightRecords : list WebsiteData :=
  record 0 "a.com" COMPLETED ["a@a.com"] ::
  map (fun i => record i "b.com" FAILED []) (seq 1 7).

(** the state of the example of save-and-clear: the events that lead to
    the two records *)
Definition savedExample : State :=
  steps (initial ∅)
        [AddUrlsEvent ["a.com"; "b.com"]; ProcessQueue;
         FinderSettled (Fulfilled ["a@a.com"]); DelayElapsed;
         FinderSettled (Rejected (newError "no answer")); DelayElapsed].

(** a sheet of one cell *)
Definition oneCell (text : string) : FileUtils.fileContents :=
  FileUtils.FirstSheet [[FileUtils.CString text]].

(** two files are chosen before either is read; the first holds a.com,
    the second https://a.com/ *)
Definition overlappingReads : State :=
  steps (initial ∅)
        [FileChosen; FileChosen;
         FileRead 0 (oneCell "a.com"); FileRead 0 (oneCell "https://a.com/")].

(** the run over these two records: an address for the first, no answer
    for the second *)
Definition overlappingProcessed : State :=
  steps overlappingReads
        [ProcessQueue;
         FinderSettled (Fulfilled ["a@a.com"]); DelayElapsed;
         FinderSettled (Rejected (newError "no answer")); DelayElapsed].

Definition threeIdle : State :=
  steps (initial ∅) [AddUrlsEvent ["a.com"; "b.com"; "c.com"]].

(** a finder that answers the second call with the status 429 *)
Definition secondCallLimited : Finder :=
  fun n u _ =>
    match n with
    | 1%nat => Rejected (mkJsError (Some 429%Z) None (Some "Too Many Requests"))
    | _ => Fulfilled [("info@" ++ u)%string]
    end.

Definition alwaysAnswers : Finder := fun _ u _ => Fulfilled [("info@" ++ u)%string].

Definition doubleQuote : string := String (ascii_of_nat 34) EmptyString.

(** the response text [{"emails":[["a@b.co"]]}], with [doubleQuote] for
    the quotation marks *)
Definition nestedArrayText : string :=
  ("{" ++ doubleQuote ++ "emails" ++ doubleQuote ++ ":[["
       ++ doubleQuote ++ "a@b.co" ++ doubleQuote ++ "]]}")%string.

Definition nestedArrayValue : json :=
  JObject [("emails", JArray [JArray [JString "a@b.co"]])].

(** *** [addUrls] *)

(** a record as [addUrls] creates it *)
Definition isFresh (w : WebsiteData) : Prop :=
  status w = IDLE /\ emails w = [] /\ error w = None /\ sourceUrl w = None.

(** what holds of the accumulator of [addUrls] after any batch, for the
    list [ws], the history [h] and the first free token [u0] *)
Record addUrlsInv (ws : list WebsiteData) (h : gmap string (list string)) (u0 : nat)
    (urls : list string) (acc : AddUrls) : Prop := {
  inv_current : forall k,
    k ∈ currentNormalized acc <-> k ∈ normalizedOf ws \/ k ∈ normalizedOf (newEntries acc);
  inv_fresh : Forall isFresh (newEntries acc);
  inv_from_batch : Forall (fun w => url w ∈ urls) (newEntries acc);
  inv_not_listed : Forall (fun w => normalizeUrl (url w) ∉ normalizedOf ws) (newEntries acc);
  inv_not_in_history :
    Forall (fun w => historyHas h (normalizeUrl (url w)) = false) (newEntries acc);
  inv_ids : map id (newEntries acc) = seq u0 (length (newEntries acc));
  inv_next : nextUuid acc = (u0 + length (newEntries acc))%nat;
  inv_distinct : NoDup (normalizedOf (newEntries acc));
  inv_total :
    (skippedDuplicateCount acc + skippedHistoryCount acc + length (newEntries acc)
     = length urls)%nat
}.

(** *** The invariant of the transition system *)

(** what holds of the records and the token counter *)
Record recordsInv (ws : list WebsiteData) (u : nat) : Prop := {
  ids_distinct : NoDup (map id ws);
  ids_issued : Forall (fun w => (id w < u)%nat) ws;
  no_pending : Forall (fun w => status w <> PENDING) ws;
  emails_completed : Forall (fun w => emails w <> [] -> status w = COMPLETED) ws
}.

(** the items of the snapshot still to come: their tokens differ, and a
    record that carries one of them is IDLE *)
Definition waiting (rest : list WebsiteData) (ws : list WebsiteData) (u : nat) : Prop :=
  NoDup (map id rest) /\
  Forall (fun p => (id p < u)%nat) rest /\
  Forall (fun w => id w ∈ map id rest -> status w = IDLE) ws.

(** the item whose call is in flight: a record that carries its token is
    PROCESSING and has no address yet *)
Definition inFlight (item : WebsiteData) (ws : list WebsiteData) (u : nat) : Prop :=
  (id item < u)%nat /\
  Forall (fun w => id w = id item -> status w = PROCESSING /\ emails w = []) ws.

Definition queueInv (s : State) : Prop :=
  match queue s with
  | None => True
  | Some (AwaitFinder item rest _) =>
      isProcessing s = true /\ (id item ∉ map id rest) /\
      inFlight item (websites s) (uuid s) /\ waiting rest (websites s) (uuid s)
  | Some (AwaitDelay rest _) =>
      isProcessing s = true /\ waiting rest (websites s) (uuid s)
  end.

Definition Inv (s : State) : Prop :=
  recordsInv (websites s) (uuid s) /\ queueInv s.

Definition keepsIdentity (f : WebsiteData -> WebsiteData) : Prop :=
  forall w, id (f w) = id w /\ url (f w) = url w.

(** *** Runs of the queue *)

(** an error with one of the marks of a rate limit: the status 429, the
    code 429, or a message that contains 429, quota or RESOURCE_EXHAUSTED *)
Definition rateLimitFlavored (error : JsError) : Prop :=
  err_status error = Some 429%Z \/
  err_code error = Some 429%Z \/
  exists m, err_message error = Some m /\
            (JsString.includes "429" m = true \/
             JsString.includes "quota" m = true \/
             JsString.includes "RESOURCE_EXHAUSTED" m = true).

(** the record an answer of the finder leaves behind *)
Definition settle (outcome : settled (list string)) (w : WebsiteData) : WebsiteData :=
  match outcome with
  | Fulfilled found => withEmails COMPLETED found w
  | Rejected error => withError FAILED (failureNote error) w
  end.

Definition isRateLimited (outcome : settled (list string)) : bool :=
  match outcome with
  | Fulfilled _ => false
  | Rejected error => isRateLimit error
  end.

(** the number of items of the snapshot that are answered before the
    first answer with a rate limit; calls are counted from [n] *)
Fixpoint answered (finder : Finder) (audience : string) (n : nat)
    (pendingItems : list WebsiteData) : nat :=
  match pendingItems with
  | [] => 0
  | item :: rest =>
      if isRateLimited (finder n (url item) audience) then 0
      else S (answered finder audience (S n) rest)
  end.

(** the snapshot is a snapshot of the list: a record that carries the
    token of an item is that item, and the items are IDLE *)
Definition snapshotOf (pendingItems ws : list WebsiteData) : Prop :=
  NoDup (map id pendingItems) /\
  Forall (fun p => status p = IDLE) pendingItems /\
  (forall w p, w ∈ ws -> p ∈ pendingItems -> id w = id p -> w = p).

End Vocabulary.

(** ** [utils/fileUtils.ts]: the export *)

Module ExcelExport.
Import Types Js.











End ExcelExport.

(** ** [components/ResultsTable.tsx] *)

Module ResultsTable.
Import Types.

Inductive Icon : Type :=
| CheckCircle
| Loader2
| AlertCircle
| Dot.

(** [None] is [null] *)
Definition getStatusIcon (st : ExtractionStatus) : option Icon :=
  match st with
  | COMPLETED => Some CheckCircle
  | PROCESSING => Some Loader2
  | FAILED => Some AlertCircle
  | PENDING => Some Dot
  | _ => None
  end.

(** the badge of a status: its colours, its icon and its text *)
Record Badge : Type := mkBadge {
  badgeClasses : string;
  badgeIcon : option Icon;
  badgeText : string
}.

Definition getStatusBadge (st : ExtractionStatus) : Badge :=
  match st with
  | COMPLETED => mkBadge "bg-emerald-100 text-emerald-800" (getStatusIcon st) " Done"
  | PROCESSING => mkBadge "bg-blue-100 text-blue-800" (getStatusIcon st) " Scouting..."
  | FAILED => mkBadge "bg-red-100 text-red-800" (getStatusIcon st) " Failed"
  | _ => mkBadge "bg-slate-100 text-slate-600" None "Pending"
  end.

(** [row.url.startsWith('http') ? row.url : `https://${row.url}`] *)
Definition href (url : string) : string :=
  if JsString.startsWith "http" url then url else ("https://" ++ url)%string.

(** what the cell of the addresses shows *)
Inductive EmailsCell : Type :=
| Addresses (found : list string)
| NoEmailsFound
| Nothing.

(** a row of the table; [rowKey] is the token [onRemove] is called with *)
Record Row : Type := mkRow {
  rowKey : nat;
  rowUrl : string;
  rowHref : string;
  rowBadge : Badge;
  rowEmails : EmailsCell;
  rowError : option string
}.

Definition renderRow (row : WebsiteData) : Row :=
  mkRow (id row) (url row) (href (url row)) (getStatusBadge (status row))
        (if (0 <? length (emails row))%nat then Addresses (emails row)
         else if status_eqb (status row) COMPLETED then NoEmailsFound else Nothing)
        (match error row with
         | Some note => if String.eqb note EmptyString then None else Some note
         | None => None
         end).

(** [None] is the placeholder of the empty table *)
Definition render (data : list WebsiteData) : option (list Row) :=
  match data with
  | [] => None
  | _ => Some (map renderRow data)
  end.

End ResultsTable.

(** ** [App.tsx]: the export handler and the render *)

Module AppView.
Import Types Js App.


(** a count inside a template literal *)
Definition showCount (n : nat) : string := NilEmpty.string_of_uint (Nat.to_uint n).

(** the text of a notification *)
Definition notificationText (n : Notification) : string :=
  match n with
  | HistorySkipped skippedHistoryCount skippedDuplicateCount =>
      showCount skippedHistoryCount ++ " website"
      ++ (if (1 <? skippedHistoryCount)%nat then "s" else "")
      ++ " already in your history were skipped."
      ++ (if (0 <? skippedDuplicateCount)%nat
          then " (" ++ showCount skippedDuplicateCount ++ " duplicates in list ignored)"
          else "")
  | DuplicatesIgnored skippedDuplicateCount =>
      showCount skippedDuplicateCount ++ " duplicate website"
      ++ (if (1 <? skippedDuplicateCount)%nat then "s" else "")
      ++ " ignored."
  | RateLimitReached =>
      "Rate limit reached (429). The scan has been paused to preserve quota. Please wait 1-2 minutes before resuming."
  | SavedToHistory savedCount =>
      "Saved " ++ showCount savedCount ++ " websites to history and cleared the list."
  end.

Inductive BannerColour : Type :=
| Red
| Blue.

Inductive BannerIcon : Type :=
| IconAlertCircle
| IconInfo.

Definition bannerColour (notification : string) : BannerColour :=
  if JsString.includes "rate limit" (JsString.toLowerCase notification)
     || JsString.includes "error" (JsString.toLowerCase notification)
  then Red else Blue.

Definition bannerIcon (notification : string) : BannerIcon :=
  if JsString.includes "rate limit" (JsString.toLowerCase notification)
  then IconAlertCircle else IconInfo.

(** [websites.every(w => w.status !== ExtractionStatus.IDLE)] *)
Definition noneIdle (websites : list WebsiteData) : bool :=
  forallb (fun w => negb (status_eqb (status w) IDLE)) websites.

(** the [disabled] attribute of the button that starts the run *)
Definition startDisabled (s : State) : bool := isProcessing s || noneIdle (websites s).

(** the text of the button that starts the run *)
Definition startLabel (s : State) : string :=
  if isProcessing s then "Processing..."
  else if (0 <? length (websites s))%nat && noneIdle (websites s)
       then "Scan Complete" else "Start Extraction".

End AppView.

(** ** The vocabulary of the further properties *)

Section FurtherVocabulary.
Import Types Js App.

(** a text of white space only *)
Definition isBlank (s : string) : Prop :=
  Forall (fun c => JsString.isSpace c = true) (list_ascii_of_string s).

(** a text without a backtick *)
Definition noBacktick (s : string) : Prop :=
  Forall (fun c => c <> "`"%char) (list_ascii_of_string s).

(** the answer the component sees for an answer of the service, when the
    entries are the strings its signature declares *)
Definition seenAs (answer : settled (list json)) (outcome : settled (list string)) : Prop :=
  match answer, outcome with
  | Fulfilled entries, Fulfilled found => entries = map JString found
  | Rejected e, Rejected e' => e = e'
  | _, _ => False
  end.

(** the text [t] differs from the pattern [n] at a place that both have *)
Fixpoint clash (n t : string) : bool :=
  match n, t with
  | String x n', String y t' => if Ascii.eqb x y then clash n' t' else true
  | _, _ => false
  end.

(** no occurrence of [n] begins inside [a], whatever follows [a] *)
Fixpoint clashAll (n a : string) : bool :=
  match a with
  | EmptyString => true
  | String _ r => clash n a && clashAll n r
  end.

Definition isDigit (c : ascii) : bool := JsString.inRange 48 57 c.

(** the items a suspended call of [processQueue] still holds *)
Definition queueItems (s : State) : list WebsiteData :=
  match queue s with
  | Some (AwaitFinder item rest _) => item :: rest
  | Some (AwaitDelay rest _) => rest
  | None => []
  end.

(** the flag is up exactly while a call of [processQueue] is suspended; a
    record is PROCESSING only while the call for it is in flight; a record
    is FAILED exactly when it carries a note, and no note is empty; a
    record that carries the token of an item of the snapshot has its URL *)
Record runInv (s : State) : Prop := {
  flag_while_suspended : isProcessing s = true <-> queue s <> None;
  processing_in_flight :
    Forall (fun w => status w = PROCESSING ->
                     exists item rest audience,
                       queue s = Some (AwaitFinder item rest audience) /\ id w = id item)
           (websites s);
  failed_with_note :
    Forall (fun w => (status w = FAILED <-> error w <> None) /\ error w <> Some EmptyString)
           (websites s);
  snapshot_urls :
    Forall (fun w => forall p, p ∈ queueItems s -> id w = id p -> url w = url p)
           (websites s)
}.

(** the items of the snapshot of a run that the run leaves IDLE: those
    from the first answer with a rate limit on *)
Definition leftIdle (finder : Finder) (s : State) : list WebsiteData :=
  drop (answered finder (targetAudience s) 0 (List.filter isIdle (websites s)))
       (List.filter isIdle (websites s)).

(** a finder that fails as the service does without a key *)
Definition keyless : Finder :=
  fun _ _ _ => Rejected (newError "API Key not found in environment variables").

(** a state of the examples: two records processed, the call for the
    third in flight *)
Definition thirdInFlight : State :=
  steps (initial ∅)
        [AddUrlsEvent ["a.com"; "b.com"; "c.com"]; ProcessQueue;
         FinderSettled (Fulfilled ["a@a.com"]); DelayElapsed;
         FinderSettled (Rejected (newError "no answer")); DelayElapsed].

End FurtherVocabulary.

(** * Properties *)

(** ** The matcher and the language of a pattern *)

Section RegexLanguage.
Import Regex.
Local Arguments String.append !_ _ / : simpl nomatch.

Lemma regex_eqb_eq r s : regex_eqb r s = true -> r = s.
Proof.
  revert s; induction r as [| |ci l|a IHa b IHb|a IHa b IHb|a IHa]; intros [];
    simpl; try discriminate; auto.
  - intros H. apply andb_true_iff in H as [Hi Hl].
    apply Bool.eqb_prop in Hi. apply bool_decide_eq_true in Hl. congruence.
  - intros H. apply andb_true_iff in H as [H1 H2]. f_equal; auto.
  - intros H. apply andb_true_iff in H as [H1 H2]. f_equal; auto.
  - intros H. f_equal; auto.
Qed.

Lemma Word_Void s : ~ Word Void s.
Proof. intros H; inversion H. Qed.

Lemma Word_Eps_inv s : Word Eps s -> s = EmptyString.
Proof. intros H; now inversion H. Qed.

Lemma Word_Seq_inv r1 r2 s :
  Word (Seq r1 r2) s ->
  exists s1 s2, s = (s1 ++ s2)%string /\ Word r1 s1 /\ Word r2 s2.
Proof. intros H; inversion H; subst; eauto. Qed.

Lemma Word_Alt_inv r1 r2 s : Word (Alt r1 r2) s -> Word r1 s \/ Word r2 s.
Proof. intros H; inversion H; subst; auto. Qed.

Lemma append_empty s1 s2 :
  (s1 ++ s2)%string = EmptyString -> s1 = EmptyString /\ s2 = EmptyString.
Proof. destruct s1; simpl; [auto | discriminate]. Qed.

Lemma Word_mkSeq r1 r2 s : Word (mkSeq r1 r2) s <-> Word (Seq r1 r2) s.
Proof.
  assert (HV1 : forall r, Word (Seq Void r) s -> False).
  { intros r H. apply Word_Seq_inv in H as (s1 & s2 & _ & H1 & _).
    eapply Word_Void; exact H1. }
  assert (HV2 : forall r, Word (Seq r Void) s -> False).
  { intros r H. apply Word_Seq_inv in H as (s1 & s2 & _ & _ & H2).
    eapply Word_Void; exact H2. }
  assert (HE : forall r, Word r s <-> Word (Seq Eps r) s).
  { intros r; split; intros H.
    - change s with (EmptyString ++ s)%string. constructor; [constructor | exact H].
    - apply Word_Seq_inv in H as (s1 & s2 & -> & H1 & H2).
      apply Word_Eps_inv in H1 as ->. exact H2. }
  destruct r1, r2; simpl; try tauto;
    try (split; [intros H; exfalso; eapply Word_Void; exact H
                | intros H; exfalso; eauto]);
    try apply HE.
Qed.

Lemma Word_mkAlt r1 r2 s : Word (mkAlt r1 r2) s <-> Word (Alt r1 r2) s.
Proof.
  assert (HL : Word r1 s <-> Word (Alt r1 Void) s).
  { split; intros H; [now apply Word_AltL|].
    apply Word_Alt_inv in H as [H|H]; [exact H | exfalso; eapply Word_Void; exact H]. }
  assert (HR : Word r2 s <-> Word (Alt Void r2) s).
  { split; intros H; [now apply Word_AltR|].
    apply Word_Alt_inv in H as [H|H]; [exfalso; eapply Word_Void; exact H | exact H]. }
  assert (HD : regex_eqb r1 r2 = true -> (Word r1 s <-> Word (Alt r1 r2) s)).
  { intros E. apply regex_eqb_eq in E as <-.
    split; intros H; [now apply Word_AltL | now apply Word_Alt_inv in H as [H|H]]. }
  unfold mkAlt.
  destruct r1; [exact HR|..]; (destruct r2; [exact HL|..]);
    match goal with
    | |- context [if ?b then _ else _] => destruct b eqn:E; [now apply HD | tauto]
    end.
Qed.

Lemma nullable_Word r : nullable r = true <-> Word r EmptyString.
Proof.
  induction r as [| |ci l|a IHa b IHb|a IHa b IHb|a IHa]; simpl.
  - split; [discriminate | intros H; inversion H].
  - split; [constructor | reflexivity].
  - split; [discriminate | intros H; inversion H].
  - rewrite andb_true_iff, IHa, IHb. split.
    + intros [Ha Hb]. change EmptyString with (EmptyString ++ EmptyString)%string.
      now constructor.
    + intros H. apply Word_Seq_inv in H as (s1 & s2 & E & H1 & H2).
      symmetry in E. apply append_empty in E as [-> ->]. auto.
  - rewrite orb_true_iff, IHa, IHb. split.
    + intros [H|H]; [now apply Word_AltL | now apply Word_AltR].
    + intros H. apply Word_Alt_inv in H. tauto.
  - split; [constructor | reflexivity].
Qed.

(** a non-empty word of an iteration begins with a non-empty word of
    its body *)
Lemma Word_Star_cons_gen q w :
  Word q w -> forall r c s, q = Star r -> w = String c s ->
  exists s1 s2, s = (s1 ++ s2)%string /\ Word r (String c s1) /\ Word (Star r) s2.
Proof.
  induction 1 as [| | | | | |r' s1 s2 H1 _ H2 IH2]; intros r0 c0 s0 Eq Ew;
    try discriminate.
  injection Eq as ->. destruct s1 as [|a s1]; simpl in Ew.
  - now apply IH2.
  - injection Ew as -> <-. eauto.
Qed.

Lemma Word_Star_cons r c s :
  Word (Star r) (String c s) ->
  exists s1 s2, s = (s1 ++ s2)%string /\ Word r (String c s1) /\ Word (Star r) s2.
Proof. intros H. now apply (Word_Star_cons_gen _ _ H). Qed.

Lemma deriv_Word c r s : Word (deriv c r) s <-> Word r (String c s).
Proof.
  revert s; induction r as [| |ci l|a IHa b IHb|a IHa b IHb|a IHa]; intros s; simpl.
  - split; intros H; inversion H.
  - split; intros H; inversion H.
  - destruct (inClass ci l c) eqn:E.
    + split; intros H.
      * apply Word_Eps_inv in H as ->. now constructor.
      * inversion H; subst. constructor.
    + split; intros H; [inversion H|]. inversion H; subst. congruence.
  - assert (Hseq : Word (mkSeq (deriv c a) b) s <->
                   exists s1 s2, s = (s1 ++ s2)%string /\ Word a (String c s1) /\ Word b s2).
    { rewrite Word_mkSeq. split.
      - intros H. apply Word_Seq_inv in H as (s1 & s2 & -> & H1 & H2).
        exists s1, s2. rewrite <- IHa. auto.
      - intros (s1 & s2 & -> & H1 & H2). constructor; [now apply IHa | exact H2]. }
    assert (Hsplit : Word (Seq a b) (String c s) <->
              (exists s1 s2, s = (s1 ++ s2)%string /\ Word a (String c s1) /\ Word b s2) \/
              (Word a EmptyString /\ Word b (String c s))).
    { split.
      - intros H. apply Word_Seq_inv in H as (s1 & s2 & E & H1 & H2).
        destruct s1 as [|x s1]; simpl in E.
        + subst s2. auto.
        + injection E as -> ->. left; eauto.
      - intros [(s1 & s2 & -> & H1 & H2)|[H1 H2]].
        + change (String c (s1 ++ s2)) with (String c s1 ++ s2)%string. now constructor.
        + change (String c s) with (EmptyString ++ String c s)%string. now constructor. }
    rewrite Hsplit. destruct (nullable a) eqn:Na.
    + rewrite Word_mkAlt. split.
      * intros H. apply Word_Alt_inv in H as [H|H]; [left; now apply Hseq|].
        right. split; [now apply nullable_Word | now apply IHb].
      * intros [H|[_ H]]; [apply Word_AltL; now apply Hseq | apply Word_AltR; now apply IHb].
    + rewrite Hseq. split; [auto|]. intros [H|[H _]]; [exact H|].
      apply nullable_Word in H. congruence.
  - rewrite Word_mkAlt. split.
    + intros H. apply Word_Alt_inv in H as [H|H];
        [apply Word_AltL; now apply IHa | apply Word_AltR; now apply IHb].
    + intros H. apply Word_Alt_inv in H as [H|H];
        [apply Word_AltL; now apply IHa | apply Word_AltR; now apply IHb].
  - rewrite Word_mkSeq. split.
    + intros H. apply Word_Seq_inv in H as (s1 & s2 & -> & H1 & H2).
      change (String c (s1 ++ s2)) with (String c s1 ++ s2)%string.
      constructor; [now apply IHa | exact H2].
    + intros H. apply Word_Star_cons in H as (s1 & s2 & -> & H1 & H2).
      constructor; [now apply IHa | exact H2].
Qed.

(** the matcher decides the language *)
Lemma matches_Word r s : matches r s = true <-> Word r s.
Proof.
  revert r; induction s as [|c s IH]; intros r; simpl.
  - apply nullable_Word.
  - rewrite IH. apply deriv_Word.
Qed.

Lemma Word_anyString s : Word (Star anyChar) s.
Proof.
  induction s as [|c s IH]; [constructor|].
  change (String c s) with (String c EmptyString ++ s)%string.
  constructor; [|exact IH]. constructor.
  destruct c as [[] [] [] [] [] [] [] []]; reflexivity.
Qed.

(** a test without anchors looks for a word of the pattern anywhere *)
Lemma testAnywhere_Word r s :
  testAnywhere r s = true <->
  exists before word after, s = (before ++ word ++ after)%string /\ Word r word.
Proof.
  unfold testAnywhere. rewrite matches_Word. split.
  - intros H. apply Word_Seq_inv in H as (s1 & s2 & -> & _ & H).
    apply Word_Seq_inv in H as (s3 & s4 & -> & H & _). eauto.
  - intros (s1 & s2 & s3 & -> & H).
    constructor; [apply Word_anyString|]. constructor; [exact H | apply Word_anyString].
Qed.

End RegexLanguage.

(** ** [normalizeUrl] *)

Section NormalizeUrl.
Import JsString App.
Local Arguments String.append !_ _ / : simpl nomatch.

Lemma dropPrefix_Some p s r : dropPrefix p s = Some r -> s = (p ++ r)%string.
Proof.
  revert s; induction p as [|a p IH]; intros [|b s]; simpl; try congruence.
  destruct (Ascii.eqb_spec a b) as [->|]; [|discriminate].
  intros H; f_equal; auto.
Qed.

Lemma dropPrefix_None p s : dropPrefix p s = None -> startsWith p s = false.
Proof.
  revert s; induction p as [|a p IH]; intros [|b s]; simpl; try congruence.
  destruct (Ascii.eqb a b); auto.
Qed.

Lemma startsWith_app p s t : startsWith p s = true -> startsWith p (s ++ t) = true.
Proof.
  revert s; induction p as [|a p IH]; intros [|b s]; simpl; try congruence.
  destruct (Ascii.eqb a b); auto; discriminate.
Qed.

Lemma lowerChar_not_upper c : isUpper (lowerChar c) = false.
Proof. destruct c as [[] [] [] [] [] [] [] []]; reflexivity. Qed.

Lemma lowerChar_slash c : Ascii.eqb (lowerChar c) "/" = Ascii.eqb c "/".
Proof. destruct c as [[] [] [] [] [] [] [] []]; reflexivity. Qed.

Lemma toLowerCase_noUpperCase s : noUpperCase (toLowerCase s).
Proof.
  induction s as [|c s IH]; simpl; constructor; auto using lowerChar_not_upper.
Qed.

Lemma append_empty_r s : (s ++ "")%string = s.
Proof. induction s as [|c s IH]; simpl; congruence. Qed.

Lemma toLowerCase_app s t : toLowerCase (s ++ t) = (toLowerCase s ++ toLowerCase t)%string.
Proof. induction s as [|c s IH]; simpl; congruence. Qed.

Lemma endsWithChar_toLowerCase s :
  endsWithChar "/" (toLowerCase s) = endsWithChar "/" s.
Proof.
  induction s as [|c [|d s] IH]; simpl in *; auto using lowerChar_slash.
Qed.

(** what [replaceTrailingSlash] takes away *)
Lemma replaceTrailingSlash_split s :
  (endsWithChar "/" s = true /\ s = (replaceTrailingSlash s ++ "/")%string) \/
  (endsWithChar "/" s = false /\ s = replaceTrailingSlash s).
Proof.
  induction s as [|c [|d s] IH].
  - right; auto.
  - simpl. destruct (Ascii.eqb_spec c "/") as [->|]; [left|right]; auto.
  - change (endsWithChar "/" (String c (String d s))) with (endsWithChar "/" (String d s)).
    change (replaceTrailingSlash (String c (String d s)))
      with (String c (replaceTrailingSlash (String d s))).
    destruct IH as [[-> E]|[-> E]]; [left|right]; split; auto;
      simpl; f_equal; exact E.
Qed.

Lemma replaceScheme_split url :
  exists scheme,
    url = (scheme ++ replaceScheme url)%string /\
    (scheme = "http://" \/ scheme = "https://" \/
     (scheme = "" /\ hasSchemePrefix url = false)).
Proof.
  unfold replaceScheme, hasSchemePrefix.
  destruct (dropPrefix "https://" url) as [r|] eqn:Es.
  { exists "https://"; split; [now apply dropPrefix_Some | auto]. }
  destruct (dropPrefix "http://" url) as [r|] eqn:Ep.
  { exists "http://"; split; [now apply dropPrefix_Some | auto]. }
  exists ""; split; [reflexivity|].
  right; right; split; [reflexivity|].
  now rewrite (dropPrefix_None _ _ Es), (dropPrefix_None _ _ Ep).
Qed.

Lemma endsWithChar_app_nonempty c s t :
  t <> "" -> endsWithChar c (s ++ t) = endsWithChar c t.
Proof.
  intros Ht; induction s as [|a s IH]; simpl; auto.
  destruct (s ++ t)%string eqn:E; auto.
  destruct s; simpl in E; congruence.
Qed.

Lemma replaceTrailingSlash_app_nonempty s t :
  t <> "" -> replaceTrailingSlash (s ++ t) = (s ++ replaceTrailingSlash t)%string.
Proof.
  intros Ht; induction s as [|a s IH]; simpl; auto.
  destruct (s ++ t)%string eqn:E.
  - destruct s; simpl in E; congruence.
  - now rewrite <- IH.
Qed.

Lemma endsWithTwoSlashes_app s t :
  endsWithTwoSlashes t = true -> endsWithTwoSlashes (s ++ t) = true.
Proof.
  unfold endsWithTwoSlashes; intros H.
  apply andb_true_iff in H as [H1 H2].
  assert (Ht : t <> "") by (intros ->; discriminate).
  assert (Hr : replaceTrailingSlash t <> "") by (intros E; rewrite E in H2; discriminate).
  rewrite endsWithChar_app_nonempty, replaceTrailingSlash_app_nonempty by assumption.
  rewrite endsWithChar_app_nonempty by assumption.
  now rewrite H1, H2.
Qed.

(** C8, as the code has it by design, for a URL whose scheme prefix, when
    it has one, is written in lower case: one scheme prefix and then one
    trailing slash are removed, and the rest is lower-cased.  The result
    has no upper-case letter; it ends with a slash only when the input
    ends with two, and it begins with a scheme prefix only when the text
    behind the removed prefix begins with one. *)
Theorem normalizeUrl_removes_one_scheme_and_one_slash (url : string) :
  (hasSchemePrefix (toLowerCase url) = true -> hasSchemePrefix url = true) ->
  exists scheme body slash,
    url = (scheme ++ body ++ slash)%string /\
    (scheme = "http://" \/ scheme = "https://" \/
     (scheme = "" /\ hasSchemePrefix (toLowerCase url) = false)) /\
    ((slash = "/") \/ (slash = "" /\ endsWithChar "/" body = false)) /\
    normalizeUrl url = toLowerCase body /\
    noUpperCase (normalizeUrl url) /\
    (endsWithChar "/" (normalizeUrl url) = true -> endsWithTwoSlashes url = true) /\
    (hasSchemePrefix (normalizeUrl url) = true ->
     hasSchemePrefix (toLowerCase (body ++ slash)) = true).
Proof.
  intros Hlower.
  assert (Hnone : hasSchemePrefix url = false -> hasSchemePrefix (toLowerCase url) = false).
  { intros H. destruct (hasSchemePrefix (toLowerCase url)); [|reflexivity].
    rewrite Hlower in H by reflexivity. discriminate. }
  destruct (replaceScheme_split url) as (scheme & Hurl & Hscheme).
  assert (Hscheme' : scheme = "http://" \/ scheme = "https://" \/
                     (scheme = "" /\ hasSchemePrefix (toLowerCase url) = false)).
  { destruct Hscheme as [H|[H|[H1 H2]]]; auto. }
  destruct (replaceTrailingSlash_split (replaceScheme url)) as [[He Hs]|[He Hs]].
  - exists scheme, (replaceTrailingSlash (replaceScheme url)), "/".
    rewrite <- Hs. repeat split; auto.
    + apply toLowerCase_noUpperCase.
    + unfold normalizeUrl; rewrite endsWithChar_toLowerCase; intros H2.
      rewrite Hurl at 1. apply endsWithTwoSlashes_app.
      unfold endsWithTwoSlashes. now rewrite He, H2.
    + unfold normalizeUrl, hasSchemePrefix. rewrite Hs at 3 4.
      rewrite toLowerCase_app.
      intros H; apply orb_true_iff in H as [H|H]; apply orb_true_iff; [left|right];
        now apply startsWith_app.
  - exists scheme, (replaceScheme url), "".
    rewrite append_empty_r.
    unfold normalizeUrl. rewrite <- Hs. repeat split; auto.
    + apply toLowerCase_noUpperCase.
    + rewrite endsWithChar_toLowerCase, He. discriminate.
Qed.

Lemma normalizeUrl_removes_one_scheme_and_one_slash_witness :
  exists scheme body slash,
    "https://Example.com/" = (scheme ++ body ++ slash)%string /\
    (scheme = "http://" \/ scheme = "https://" \/
     (scheme = "" /\ hasSchemePrefix (toLowerCase "https://Example.com/") = false)) /\
    ((slash = "/") \/ (slash = "" /\ endsWithChar "/" body = false)) /\
    normalizeUrl "https://Example.com/" = toLowerCase body /\
    noUpperCase (normalizeUrl "https://Example.com/") /\
    (endsWithChar "/" (normalizeUrl "https://Example.com/") = true ->
     endsWithTwoSlashes "https://Example.com/" = true) /\
    (hasSchemePrefix (normalizeUrl "https://Example.com/") = true ->
     hasSchemePrefix (toLowerCase (body ++ slash)) = true).
Proof.
  apply (normalizeUrl_removes_one_scheme_and_one_slash "https://Example.com/").
  reflexivity.
Defined.

(** C8 as the specification words it fails: a second slash and a second
    scheme prefix survive. *)
Lemma normalizeUrl_keeps_second_slash_and_scheme :
  normalizeUrl "a.com//" = "a.com/" /\
  endsWithChar "/" (normalizeUrl "a.com//") = true /\
  normalizeUrl "http://https://a.com" = "https://a.com" /\
  hasSchemePrefix (normalizeUrl "http://https://a.com") = true.
Proof. repeat split. Qed.

End NormalizeUrl.

(** ** The URL extractor *)

Section Extractor.
Import Regex FileUtils.

Lemma dedup_go_elem seen xs x :
  x ∈ dedup_go seen xs <-> x ∈ xs /\ x ∉ seen.
Proof.
  revert seen; induction xs as [|y xs IH]; intros seen; simpl.
  - split; [intros H; inversion H | intros [H _]; inversion H].
  - case_bool_decide as Hy.
    + rewrite IH, elem_of_cons. split; [tauto|].
      intros [[->|H] Hn]; [contradiction | auto].
    + rewrite !elem_of_cons, IH, not_elem_of_union, not_elem_of_singleton. split.
      * intros [->|[H [Hne Hn]]]; auto.
      * intros [[->|H] Hn]; [auto|].
        destruct (decide (x = y)) as [->|Hne]; auto.
Qed.

Lemma dedup_go_NoDup seen xs : NoDup (dedup_go seen xs).
Proof.
  revert seen; induction xs as [|y xs IH]; intros seen; simpl.
  - constructor.
  - case_bool_decide as Hy; [apply IH|].
    constructor; [|apply IH].
    rewrite dedup_go_elem, not_elem_of_union, not_elem_of_singleton. tauto.
Qed.

Lemma arrayFromSet_elem xs x : x ∈ arrayFromSet xs <-> x ∈ xs.
Proof.
  unfold arrayFromSet. rewrite dedup_go_elem. split; [tauto|].
  intros H; split; [exact H | apply not_elem_of_empty].
Qed.

Lemma arrayFromSet_NoDup xs : NoDup (arrayFromSet xs).
Proof. apply dedup_go_NoDup. Qed.

Lemma cellUrls_match c u :
  u ∈ cellUrls c -> testAnchored (urlRegex false) u = true.
Proof.
  destruct c as [s|]; simpl; [|intros H; inversion H].
  destruct (testAnchored (urlRegex false) (JsString.trim s)) eqn:E.
  - intros H; apply list_elem_of_singleton in H as ->; exact E.
  - intros H; inversion H.
Qed.

(** C7, as the code has it: the extractor removes the entries that are
    equal as strings, and keeps only entries that match its pattern (the
    one of [parseText] ignores case); a file that cannot be read or parsed
    gives no list at all. *)
Theorem extractor_output_distinct_strings_matching_pattern :
  (forall text : string,
      NoDup (parseText text) /\
      Forall (fun u => u <> EmptyString /\ testAnchored (urlRegex true) u = true)
             (parseText text)) /\
  (forall file : fileContents,
      match parseFile file with
      | Some urls =>
          NoDup urls /\ Forall (fun u => testAnchored (urlRegex false) u = true) urls
      | None => file = ReadError \/ file = BadWorkbook
      end).
Proof.
  split.
  - intros text; unfold parseText; split; [apply arrayFromSet_NoDup|].
    apply Forall_forall; intros u Hu.
    apply arrayFromSet_elem, list_elem_of_filter in Hu as [Hu _].
    apply andb_true_iff in Hu as [Hlen Hre]. split.
    + intros ->; discriminate.
    + exact Hre.
  - intros [| | |rows]; simpl; [now left | split; constructor | now right |].
    split; [apply arrayFromSet_NoDup|].
    apply Forall_forall; intros u Hu.
    apply arrayFromSet_elem, list_elem_of_In, in_concat in Hu as (l & Hl & Hu).
    apply in_map_iff in Hl as (row & <- & _).
    apply in_concat in Hu as (l & Hl & Hu).
    apply in_map_iff in Hl as (c & <- & _).
    apply list_elem_of_In in Hu. now apply cellUrls_match in Hu.
Qed.

(** C7 as the specification words it fails: entries that differ as
    strings and agree after normalisation are both kept. *)
Lemma parseText_keeps_equal_normalized_forms :
  parseText "a.com,a.com/" = ["a.com"; "a.com/"] /\
  App.normalizeUrl "a.com" = App.normalizeUrl "a.com/" /\
  ~ NoDup (map App.normalizeUrl (parseText "a.com,a.com/")).
Proof.
  assert (E : parseText "a.com,a.com/" = ["a.com"; "a.com/"]) by (vm_compute; reflexivity).
  split; [exact E|]. split; [reflexivity|].
  rewrite E. intros H. apply NoDup_cons in H as [H _].
  apply H. vm_compute. left.
Qed.

End Extractor.

(** ** The email finder *)

Section Finder.
Import Regex Js GeminiService.

Variable API_KEY : option string.
Variable generateContent : request -> settled (option string).
Variable JSON_parse : string -> option json.

Lemma filterOrThrow_pass {A : Type} (test : A -> option bool) (items kept : list A) :
  filterOrThrow test items = Some kept -> Forall (fun x => test x = Some true) kept.
Proof.
  revert kept; induction items as [|x r IH]; simpl; intros kept H.
  - injection H as <-. constructor.
  - destruct (test x) as [keep|] eqn:Ex; [|discriminate].
    destruct (filterOrThrow test r) as [kept'|]; [|discriminate].
    injection H as <-. destruct keep; [constructor|]; auto.
Qed.

(** every entry returned passes the test of the pattern *)
Lemma extractEmails_pass_test text :
  Forall (fun e => emailRegex_test e = Some true) (extractEmails JSON_parse text).
Proof.
  unfold extractEmails.
  destruct (JSON_parse (cleanText text)) as [parsed|]; [|constructor].
  destruct (truthy parsed); [|constructor].
  destruct (property parsed "emails") as [[]|]; try constructor.
  destruct (filterOrThrow emailRegex_test items) as [kept|] eqn:E; [|constructor].
  now apply filterOrThrow_pass in E.
Qed.

(** the strings among them contain a word of the pattern *)
Lemma extractEmails_strings_match text s :
  JString s ∈ extractEmails JSON_parse text ->
  exists before word after,
    s = (before ++ word ++ after)%string /\ Word emailRegex word.
Proof.
  intros H. pose proof (extractEmails_pass_test text) as F.
  rewrite Forall_forall in F. specialize (F _ H).
  unfold emailRegex_test in F. simpl in F. injection F as F.
  now apply testAnywhere_Word.
Qed.

(** an entry whose coercion throws empties the answer *)
Lemma extractEmails_throwing_entry text parsed items e :
  JSON_parse (cleanText text) = Some parsed ->
  property parsed "emails" = Some (JArray items) ->
  e ∈ items -> emailRegex_test e = None ->
  extractEmails JSON_parse text = [].
Proof.
  unfold extractEmails; intros -> -> He Ht.
  destruct (truthy parsed); [|reflexivity].
  assert (E : filterOrThrow emailRegex_test items = None); [|now rewrite E].
  induction items as [|x r IH]; [inversion He|]. simpl.
  apply elem_of_cons in He as [<-|He]; [now rewrite Ht|].
  destruct (emailRegex_test x); [|reflexivity]. now rewrite IH.
Qed.

(** a response that does not parse gives the empty list *)
Lemma extractEmails_unparseable text :
  JSON_parse (cleanText text) = None -> extractEmails JSON_parse text = [].
Proof. unfold extractEmails; now intros ->. Qed.

(** so does a value without an array under ["emails"] *)
Lemma extractEmails_no_array text parsed :
  JSON_parse (cleanText text) = Some parsed ->
  (forall items, property parsed "emails" <> Some (JArray items)) ->
  extractEmails JSON_parse text = [].
Proof.
  unfold extractEmails; intros -> H.
  destruct (truthy parsed); [|reflexivity].
  destruct (property parsed "emails") as [[]|]; try reflexivity.
  now destruct (H items).
Qed.

(** a response is never turned into a rejection *)
Lemma findEmailsForUrl_response url audience response_text :
  getClient API_KEY = Fulfilled tt ->
  generateContent (instructions url audience) = Fulfilled response_text ->
  exists found,
    findEmailsForUrl API_KEY generateContent JSON_parse url audience = Fulfilled found.
Proof. unfold findEmailsForUrl; intros -> ->; eauto. Qed.

(** the failure of the client or of the call is thrown again *)
Lemma findEmailsForUrl_rethrows url audience error :
  getClient API_KEY = Rejected error \/
  (getClient API_KEY = Fulfilled tt /\
   generateContent (instructions url audience) = Rejected error) ->
  findEmailsForUrl API_KEY generateContent JSON_parse url audience = Rejected error.
Proof. unfold findEmailsForUrl; intros [->|[-> ->]]; reflexivity. Qed.

End Finder.

Section FinderNestedArray.
Import Regex Js GeminiService.

(** C6 at the response [nestedArrayText]: the entry of ["emails"] is an
    array, its coercion to a string passes the test of the pattern, and
    the finder returns the array itself, which is not a string. *)
Theorem findEmailsForUrl_returns_nested_array :
  findEmailsForUrl (Some "key") (fun _ => Fulfilled (Some nestedArrayText))
                   (parseAt nestedArrayText nestedArrayValue) "a.com" None
  = Fulfilled [JArray [JString "a@b.co"]] /\
  isString (JArray [JString "a@b.co"]) = false.
Proof. split; vm_compute; reflexivity. Qed.

End FinderNestedArray.

(** ** Statistics *)

Section Statistics.
Import Types App.

Lemma length_filter_countIf {A : Type} (p : A -> bool) (l : list A) :
  length (List.filter p l) = countIf p l.
Proof.
  induction l as [|x l IH]; simpl; [reflexivity|].
  destruct (p x); simpl; now rewrite IH.
Qed.

Lemma countIf_ext {A : Type} (p q : A -> bool) (l : list A) :
  (forall x, p x = q x) -> countIf p l = countIf q l.
Proof. intros E; induction l as [|x l IH]; simpl; [reflexivity|]. now rewrite E, IH. Qed.

Lemma countIf_le_length {A : Type} (p : A -> bool) (l : list A) :
  (countIf p l <= length l)%nat.
Proof. induction l as [|x l IH]; simpl; [lia|]. destruct (p x); lia. Qed.

Lemma isProcessed_decide w :
  isProcessed w = bool_decide (status w = COMPLETED \/ status w = FAILED).
Proof.
  unfold isProcessed. destruct (status w); reflexivity.
Qed.

Lemma hasEmails_decide w : hasEmails w = bool_decide (emails w <> []).
Proof.
  unfold hasEmails. destruct (emails w); reflexivity.
Qed.

Lemma ratesExactBelow_39 : ratesExactBelow 39 = true.
Proof. vm_compute. reflexivity. Qed.

Lemma computedRate_exact_below_40 found processed :
  (0 < processed < 40)%nat -> (found <= processed)%nat ->
  computedRate found processed = JsNumber.ofZ (exactPercentage found processed).
Proof.
  intros Hp Hf. pose proof ratesExactBelow_39 as H.
  unfold ratesExactBelow in H. rewrite forallb_forall in H.
  destruct processed as [|p]; [lia|].
  specialize (H p). rewrite forallb_forall in H.
  assert (Hin : In p (seq 0 39)) by (apply in_seq; lia).
  specialize (H Hin found).
  assert (Hin' : In found (seq 0 (S (S p)))) by (apply in_seq; lia).
  specialize (H Hin'). unfold rateIsExact in H.
  now apply bool_decide_eq_true in H.
Qed.

(** the three counts are as the specification states them; the rate is 0
    without processed records and otherwise [Math.round] of the binary64
    product [(found / processed) * 100], which is the rounded percentage
    whenever fewer than forty records are processed and [found] does not
    exceed [processed]; the four records of the example give 4, 3, 2 and
    67 *)
Lemma stats_counts_and_rate_below_40 (websites : list WebsiteData) :
  total (stats websites) = length websites /\
  processed (stats websites)
    = countIf (fun w => bool_decide (status w = COMPLETED \/ status w = FAILED)) websites /\
  found (stats websites) = countIf (fun w => bool_decide (emails w <> [])) websites /\
  (processed (stats websites) = 0%nat -> successRate (stats websites) = JsNumber.ofZ 0) /\
  ((0 < processed (stats websites) < 40)%nat ->
   (found (stats websites) <= processed (stats websites))%nat ->
   successRate (stats websites)
     = JsNumber.ofZ (exactPercentage (found (stats websites)) (processed (stats websites)))) /\
  stats [record 0 "a.com" COMPLETED ["a@a.com"]; record 1 "b.com" COMPLETED ["b@b.com"];
         record 2 "c.com" FAILED []; record 3 "d.com" IDLE []]
    = mkStats 4 3 2 (JsNumber.ofZ 67).
Proof.
  assert (Hrate : (0 < processed (stats websites))%nat ->
            successRate (stats websites)
            = computedRate (found (stats websites)) (processed (stats websites))).
  { simpl. intros H. apply Nat.ltb_lt in H. now rewrite H. }
  repeat split.
  - simpl. rewrite length_filter_countIf. apply countIf_ext, isProcessed_decide.
  - simpl. rewrite length_filter_countIf. apply countIf_ext, hasEmails_decide.
  - simpl. now intros ->.
  - intros Hp Hf. rewrite Hrate by lia. now apply computedRate_exact_below_40.
Qed.

(** C4 at forty processed records of which twenty-three hold an address:
    the rate of the claim is 57.5 per cent rounded, 58.  The code divides
    first; the product of its quotient with 100 lies below 57.5, and it
    answers 57.  A tie that the product hits is rounded up, as the claim
    has it: one of eight, 12.5 per cent, gives 13. *)
Theorem stats_rate_of_23_in_40_is_57 :
  processed (stats fortyRecords) = 40%nat /\
  found (stats fortyRecords) = 23%nat /\
  exactPercentage 23 40 = 58%Z /\
  successRate (stats fortyRecords) = JsNumber.ofZ 57 /\
  successRate (stats fortyRecords) <> JsNumber.ofZ (exactPercentage 23 40) /\
  processed (stats eightRecords) = 8%nat /\
  found (stats eightRecords) = 1%nat /\
  exactPercentage 1 8 = 13%Z /\
  successRate (stats eightRecords) = JsNumber.ofZ 13.
Proof. repeat split; try (vm_compute; reflexivity). vm_compute. discriminate. Qed.

End Statistics.

(** ** [addUrls] *)

Section AddUrls.
Import Types App.

Variable ws : list WebsiteData.
Variable h : gmap string (list string).
Variable u0 : nat.

Lemma addUrlsLoop_snoc urls u :
  addUrlsLoop ws h u0 (urls ++ [u]) = addUrl h (addUrlsLoop ws h u0 urls) u.
Proof. unfold addUrlsLoop. now rewrite fold_left_app. Qed.

Lemma countIf_snoc {A : Type} (p : A -> bool) (l : list A) (x : A) :
  countIf p (l ++ [x]) = (countIf p l + (if p x then 1 else 0))%nat.
Proof. induction l as [|y l IH]; simpl; [lia|]. rewrite IH. lia. Qed.

Lemma addUrlsLoop_inv urls : addUrlsInv ws h u0 urls (addUrlsLoop ws h u0 urls).
Proof.
  induction urls as [|u urls IH] using rev_ind.
  - constructor; simpl; try solve [constructor | reflexivity | lia].
    intros k. rewrite elem_of_list_to_set. unfold normalizedOf; simpl.
    split; [auto|]. intros [H|H]; [exact H | inversion H].
  - rewrite addUrlsLoop_snoc. destruct IH.
    set (acc := addUrlsLoop ws h u0 urls) in *.
    unfold addUrl. case_bool_decide as Hcur; [|destruct (historyHas h (normalizeUrl u)) eqn:Hhist].
    + (* already listed, or seen earlier in the batch *)
      constructor; simpl; auto.
      * eapply Forall_impl; [exact inv_from_batch0|].
        intros w Hw; simpl in Hw. apply elem_of_app; auto.
      * rewrite length_app; simpl. lia.
    + (* in the history *)
      constructor; simpl; auto.
      * eapply Forall_impl; [exact inv_from_batch0|].
        intros w Hw; simpl in Hw. apply elem_of_app; auto.
      * rewrite length_app; simpl. lia.
    + (* a new record *)
      assert (Hnl : normalizeUrl u ∉ normalizedOf ws).
      { intros Hl. apply Hcur, inv_current0. auto. }
      assert (Hnn : normalizeUrl u ∉ normalizedOf (newEntries acc)).
      { intros Hl. apply Hcur, inv_current0. auto. }
      constructor; simpl.
      * intros k. unfold normalizedOf at 2. rewrite map_app; simpl.
        rewrite elem_of_union, elem_of_singleton, inv_current0, elem_of_app.
        rewrite list_elem_of_singleton. unfold normalizedOf. tauto.
      * apply Forall_app; split; [exact inv_fresh0|].
        repeat constructor.
      * apply Forall_app; split.
        -- eapply Forall_impl; [exact inv_from_batch0|].
           intros w Hw; simpl in Hw. apply elem_of_app; auto.
        -- repeat constructor. simpl. apply elem_of_app; right. left.
      * apply Forall_app; split; [exact inv_not_listed0|]. repeat constructor. exact Hnl.
      * apply Forall_app; split; [exact inv_not_in_history0|]. repeat constructor. exact Hhist.
      * rewrite map_app, length_app, seq_app, inv_ids0; simpl. now rewrite inv_next0.
      * rewrite length_app; simpl. lia.
      * unfold normalizedOf. rewrite map_app; simpl.
        apply NoDup_app. split; [exact inv_distinct0|]. split.
        -- intros k Hk Hk'. apply list_elem_of_singleton in Hk' as ->. now apply Hnn.
        -- apply NoDup_singleton.
      * rewrite !length_app; simpl. lia.
Qed.

(** one more URL behind a batch: the three cases of the loop body *)
Lemma addUrl_cases urls u :
  let acc := addUrlsLoop ws h u0 urls in
  let acc' := addUrlsLoop ws h u0 (urls ++ [u]) in
  (normalizeUrl u ∈ normalizedOf ws ->
   newEntries acc' = newEntries acc /\
   skippedDuplicateCount acc' = S (skippedDuplicateCount acc) /\
   skippedHistoryCount acc' = skippedHistoryCount acc) /\
  (normalizeUrl u ∉ normalizedOf ws -> historyHas h (normalizeUrl u) = true ->
   newEntries acc' = newEntries acc /\
   skippedDuplicateCount acc' = skippedDuplicateCount acc /\
   skippedHistoryCount acc' = S (skippedHistoryCount acc)).
Proof.
  intros acc acc'. subst acc'. rewrite addUrlsLoop_snoc. fold acc.
  pose proof (addUrlsLoop_inv urls) as I. fold acc in I. destruct I.
  unfold addUrl. split.
  - intros Hl. rewrite bool_decide_eq_true_2; [auto|]. apply inv_current0; auto.
  - intros Hl Hs. case_bool_decide as Hcur.
    + exfalso. apply inv_current0 in Hcur as [Hcur|Hcur]; [contradiction|].
      unfold normalizedOf in Hcur. apply list_elem_of_fmap in Hcur as (w & Ew & Hw).
      rewrite Forall_forall in inv_not_in_history0.
      specialize (inv_not_in_history0 w Hw). rewrite <- Ew in inv_not_in_history0.
      congruence.
    + rewrite Hs. auto.
Qed.

End AddUrls.

Section AddUrlsState.
Import Types App.

Lemma websites_addUrls rendered urls s :
  websites (addUrls rendered urls s)
  = websites s ++ newEntries (addUrlsLoop (renderedWebsites rendered)
                                          (renderedHistory rendered) (uuid s) urls).
Proof.
  unfold addUrls.
  destruct (newEntries (addUrlsLoop (renderedWebsites rendered) (renderedHistory rendered)
                                    (uuid s) urls)) as [|w l];
    simpl; [now rewrite app_nil_r | reflexivity].
Qed.

Lemma history_addUrls rendered urls s : history (addUrls rendered urls s) = history s.
Proof. unfold addUrls. now destruct (0 <? _)%nat. Qed.

Lemma uuid_addUrls rendered urls s :
  uuid (addUrls rendered urls s)
  = (uuid s + length (newEntries (addUrlsLoop (renderedWebsites rendered)
                                              (renderedHistory rendered) (uuid s) urls)))%nat.
Proof.
  unfold addUrls. rewrite <- (inv_next _ _ _ _ _ (addUrlsLoop_inv _ _ _ urls)).
  now destruct (0 <? _)%nat.
Qed.

Lemma notification_addUrls rendered urls s :
  notification (addUrls rendered urls s)
  = addUrlsNotification (addUrlsLoop (renderedWebsites rendered)
                                     (renderedHistory rendered) (uuid s) urls).
Proof. unfold addUrls. now destruct (0 <? _)%nat. Qed.

(** with the callback of the current render, the batch keeps the
    normalized URLs of the list distinct *)
Lemma addUrls_keeps_normalized_distinct urls s :
  NoDup (normalizedOf (websites s)) ->
  NoDup (normalizedOf (websites (addUrls (currentRender s) urls s))).
Proof.
  intros Hnd. rewrite websites_addUrls. unfold normalizedOf. rewrite map_app.
  destruct (addUrlsLoop_inv (websites s) (history s) (uuid s) urls).
  apply NoDup_app. split; [exact Hnd|]. split; [|exact inv_distinct0].
  intros k Hk Hk'. apply list_elem_of_fmap in Hk' as (w & -> & Hw).
  rewrite Forall_forall in inv_not_listed0. now apply (inv_not_listed0 w Hw).
Qed.

End AddUrlsState.

(** ** The invariant of the transition system *)

Section Invariant.
Import Types Js App.

(** *** Lists *)

Lemma NoDup_map_filter {A B : Type} (f : A -> B) (p : A -> bool) (l : list A) :
  NoDup (map f l) -> NoDup (map f (List.filter p l)).
Proof.
  induction l as [|x l IH]; simpl; [auto|]. intros H.
  apply NoDup_cons in H as [Hx Hl]. destruct (p x); simpl; [|auto].
  apply NoDup_cons. split; [|auto].
  intros Hin. apply Hx. apply list_elem_of_fmap in Hin as (y & -> & Hy).
  apply list_elem_of_fmap. exists y. split; [reflexivity|].
  apply list_elem_of_In. apply list_elem_of_In, filter_In in Hy. tauto.
Qed.

Lemma Forall_List_filter {A : Type} (P : A -> Prop) (p : A -> bool) (l : list A) :
  Forall P l -> Forall P (List.filter p l).
Proof.
  rewrite !Forall_forall. intros H x Hx. apply H.
  apply list_elem_of_In. apply list_elem_of_In, filter_In in Hx. tauto.
Qed.

Lemma same_id_same_record (ws : list WebsiteData) w p :
  NoDup (map id ws) -> w ∈ ws -> p ∈ ws -> id w = id p -> w = p.
Proof.
  induction ws as [|x ws IH]; simpl; intros Hnd Hw Hp E; [inversion Hw|].
  apply NoDup_cons in Hnd as [Hx Hnd].
  apply elem_of_cons in Hw as [->|Hw]; apply elem_of_cons in Hp as [->|Hp]; auto.
  - exfalso; apply Hx. rewrite E. now apply list_elem_of_fmap_2.
  - exfalso; apply Hx. rewrite <- E. now apply list_elem_of_fmap_2.
Qed.

(** *** [mapItem] *)

Lemma withStatus_keepsIdentity st : keepsIdentity (withStatus st).
Proof. intros w; split; reflexivity. Qed.

Lemma withEmails_keepsIdentity st found : keepsIdentity (withEmails st found).
Proof. intros w; split; reflexivity. Qed.

Lemma withError_keepsIdentity st note : keepsIdentity (withError st note).
Proof. intros w; split; reflexivity. Qed.

Lemma map_id_mapItem item f ws :
  keepsIdentity f -> map id (mapItem item f ws) = map id ws.
Proof.
  intros Hf. unfold mapItem. rewrite map_map. apply map_ext.
  intros w. destruct (id w =? id item)%nat; [apply Hf | reflexivity].
Qed.

Lemma normalizedOf_mapItem item f ws :
  keepsIdentity f -> normalizedOf (mapItem item f ws) = normalizedOf ws.
Proof.
  intros Hf. unfold mapItem, normalizedOf. rewrite map_map. apply map_ext.
  intros w. destruct (id w =? id item)%nat; [|reflexivity].
  now rewrite (proj2 (Hf w)).
Qed.

Lemma Forall_mapItem (P : WebsiteData -> Prop) item f ws :
  Forall (fun w => if (id w =? id item)%nat then P (f w) else P w) ws ->
  Forall P (mapItem item f ws).
Proof.
  intros H. unfold mapItem. apply Forall_map.
  eapply Forall_impl; [exact H|].
  intros w; simpl. now destruct (id w =? id item)%nat.
Qed.

Lemma Forall_mapItem_cases (P : WebsiteData -> Prop) item f ws :
  (forall w, w ∈ ws -> id w = id item -> P (f w)) ->
  (forall w, w ∈ ws -> id w <> id item -> P w) ->
  Forall P (mapItem item f ws).
Proof.
  intros H1 H2. apply Forall_mapItem, Forall_forall. intros w Hw.
  destruct (Nat.eqb_spec (id w) (id item)); auto.
Qed.

(** an update of the item in flight keeps the invariant of the records,
    when the record it writes is neither PENDING nor an unfinished record
    with addresses *)
Lemma recordsInv_mapItem item f ws u :
  keepsIdentity f ->
  (forall w, w ∈ ws -> id w = id item ->
             status (f w) <> PENDING /\ (emails (f w) <> [] -> status (f w) = COMPLETED)) ->
  recordsInv ws u -> recordsInv (mapItem item f ws) u.
Proof.
  intros Hf Hitem [H1 H2 H3 H4].
  rewrite Forall_forall in H2, H3, H4.
  constructor.
  - now rewrite map_id_mapItem.
  - apply Forall_mapItem_cases; intros w Hw E; [rewrite (proj1 (Hf w))|]; auto.
  - apply Forall_mapItem_cases; intros w Hw E; [now apply Hitem | auto].
  - apply Forall_mapItem_cases; intros w Hw E; [now apply Hitem | auto].
Qed.

Lemma waiting_mapItem item f rest ws u :
  keepsIdentity f -> id item ∉ map id rest ->
  waiting rest ws u -> waiting rest (mapItem item f ws) u.
Proof.
  intros Hf Hni (Hnd & Hlt & Hidle). repeat split; auto.
  rewrite Forall_forall in Hidle.
  apply Forall_mapItem_cases; intros w Hw E; [|auto].
  rewrite (proj1 (Hf w)), E. intros Hin. contradiction.
Qed.

(** *** The handlers *)

Lemma enterLoop_Inv audience pendingItems s :
  recordsInv (websites s) (uuid s) ->
  isProcessing s = true ->
  waiting pendingItems (websites s) (uuid s) ->
  Inv (enterLoop audience pendingItems s).
Proof.
  intros HR Hp (Hnd & Hlt & Hidle).
  destruct pendingItems as [|item rest]; simpl; [split; [exact HR | exact I]|].
  simpl in Hnd. apply NoDup_cons in Hnd as [Hni Hnd].
  apply Forall_cons in Hlt as [Hitem Hlt].
  rewrite Forall_forall in Hidle.
  assert (Hidle_item : forall w, w ∈ websites s -> id w = id item ->
                                 status w = IDLE /\ emails w = []).
  { intros w Hw E. assert (Hs : status w = IDLE).
    { apply Hidle; [exact Hw|]. simpl. rewrite E. left. }
    split; [exact Hs|].
    destruct HR as [_ _ _ H4]. rewrite Forall_forall in H4.
    destruct (emails w) eqn:Ee; [reflexivity|].
    assert (status w = COMPLETED) by (apply H4; [exact Hw | rewrite Ee; discriminate]).
    congruence. }
  split; simpl.
  - apply recordsInv_mapItem; [apply withStatus_keepsIdentity | | exact HR].
    intros w Hw E. simpl. split; [discriminate|].
    now rewrite (proj2 (Hidle_item w Hw E)).
  - unfold queueInv; simpl. repeat split; auto.
    + apply Forall_mapItem_cases; intros w Hw E; simpl.
      * intros _. split; [reflexivity|]. exact (proj2 (Hidle_item w Hw E)).
      * intros E'. contradiction.
    + apply Forall_mapItem_cases; intros w Hw E; simpl.
      * intros Hin. exfalso. apply Hni. now rewrite <- E.
      * intros Hin. apply Hidle; [exact Hw|]. simpl. now right.
Qed.

Lemma addUrls_Inv rendered urls s : Inv s -> Inv (addUrls rendered urls s).
Proof.
  intros [[H1 H2 H3 H4] HQ].
  pose proof (addUrlsLoop_inv (renderedWebsites rendered) (renderedHistory rendered)
                              (uuid s) urls) as A.
  set (acc := addUrlsLoop (renderedWebsites rendered) (renderedHistory rendered)
                          (uuid s) urls) in *.
  assert (Hfresh_id : forall w, w ∈ newEntries acc -> (uuid s <= id w < uuid s + length (newEntries acc))%nat).
  { intros w Hw.
    assert (Hi : id w ∈ map id (newEntries acc)) by now apply (list_elem_of_fmap_2 id).
    rewrite (inv_ids _ _ _ _ _ A) in Hi. apply list_elem_of_In, in_seq in Hi. lia. }
  assert (Hold_id : forall w, w ∈ websites s -> (id w < uuid s)%nat).
  { now apply Forall_forall. }
  split.
  - rewrite websites_addUrls, uuid_addUrls. fold acc.
    constructor.
    + rewrite map_app. apply NoDup_app. split; [exact H1|]. split.
      * intros i Hi Hi'. apply list_elem_of_fmap in Hi as (w & -> & Hw).
        apply list_elem_of_fmap in Hi' as (w' & E & Hw').
        specialize (Hold_id w Hw). specialize (Hfresh_id w' Hw'). lia.
      * rewrite (inv_ids _ _ _ _ _ A). apply NoDup_ListNoDup, seq_NoDup.
    + apply Forall_app; split; apply Forall_forall; intros w Hw.
      * specialize (Hold_id w Hw). lia.
      * specialize (Hfresh_id w Hw). lia.
    + apply Forall_app; split; [exact H3|].
      eapply Forall_impl; [exact (inv_fresh _ _ _ _ _ A)|].
      intros w (E & _); simpl. rewrite E. discriminate.
    + apply Forall_app; split; [exact H4|].
      eapply Forall_impl; [exact (inv_fresh _ _ _ _ _ A)|].
      intros w (_ & E & _); simpl. rewrite E. intros F; now destruct F.
  - unfold queueInv in *.
    replace (queue (addUrls rendered urls s)) with (queue s)
      by (unfold addUrls; now destruct (0 <? _)%nat).
    replace (isProcessing (addUrls rendered urls s)) with (isProcessing s)
      by (unfold addUrls; now destruct (0 <? _)%nat).
    rewrite websites_addUrls, uuid_addUrls. fold acc.
    assert (Hw : forall rest, waiting rest (websites s) (uuid s) ->
              waiting rest (websites s ++ newEntries acc)
                      (uuid s + length (newEntries acc))).
    { intros rest (Hnd & Hlt & Hidle). repeat split; [exact Hnd | |].
      - eapply Forall_impl; [exact Hlt|]. intros; simpl in *; lia.
      - apply Forall_app; split; [exact Hidle|].
        apply Forall_forall; intros w Hw Hin.
        apply list_elem_of_fmap in Hin as (p & E & Hp).
        rewrite Forall_forall in Hlt. specialize (Hlt p Hp).
        specialize (Hfresh_id w Hw). lia. }
    destruct (queue s) as [[item rest aud|rest aud]|]; [| |exact I].
    + destruct HQ as (Hp & Hni & (Hi & Hfl) & Hwait).
      split; [exact Hp|]. split; [exact Hni|]. split; [|now apply Hw].
      split; [lia|].
      apply Forall_app; split; [exact Hfl|].
      apply Forall_forall; intros w Hw' E.
      specialize (Hfresh_id w Hw'). lia.
    + destruct HQ as (Hp & Hwait). split; [exact Hp | now apply Hw].
Qed.

Lemma processUrls_Inv rendered urls s : Inv s -> Inv (processUrls rendered urls s).
Proof. intros H. destruct urls; [exact H | now apply addUrls_Inv]. Qed.

(** the handlers that wait for a file are no part of the invariant *)
Lemma setFileReads_Inv reads s : Inv s -> Inv (setFileReads reads s).
Proof. intros [HR HQ]. split; [exact HR | exact HQ]. Qed.

Lemma recordsInv_filter p ws u :
  recordsInv ws u -> recordsInv (List.filter p ws) u.
Proof.
  intros [H1 H2 H3 H4].
  constructor; auto using Forall_List_filter; now apply NoDup_map_filter.
Qed.

Lemma waiting_filter p rest ws u :
  waiting rest ws u -> waiting rest (List.filter p ws) u.
Proof. intros (H1 & H2 & H3). repeat split; auto using Forall_List_filter. Qed.

Lemma removeWebsite_Inv i s : Inv s -> Inv (removeWebsite i s).
Proof.
  intros [HR HQ]. split; [now apply recordsInv_filter|].
  unfold queueInv in *; simpl.
  destruct (queue s) as [[item rest aud|rest aud]|]; [| |exact I].
  - destruct HQ as (Hp & Hni & (Hi & Hfl) & Hwait).
    split; [exact Hp|]. split; [exact Hni|].
    split; [split; [exact Hi | now apply Forall_List_filter] | now apply waiting_filter].
  - destruct HQ as (Hp & Hwait). split; [exact Hp | now apply waiting_filter].
Qed.

Lemma recordsInv_nil u : recordsInv [] u.
Proof. constructor; constructor. Qed.

(** with no record left, the suspended call finds nothing to update *)
Lemma queueInv_no_records s q :
  websites s = [] -> (q <> None -> isProcessing s = true) ->
  (match q with
   | Some (AwaitFinder item rest _) =>
       (id item ∉ map id rest) /\ (id item < uuid s)%nat /\
       NoDup (map id rest) /\ Forall (fun p => (id p < uuid s)%nat) rest
   | Some (AwaitDelay rest _) =>
       NoDup (map id rest) /\ Forall (fun p => (id p < uuid s)%nat) rest
   | None => True
   end) ->
  queueInv (setQueue q s).
Proof.
  intros E Hp H. unfold queueInv, waiting, inFlight; simpl. rewrite E.
  destruct q as [[item rest aud|rest aud]|]; [| |exact I].
  - destruct H as (H1 & H2 & H3 & H4). repeat split; auto; now constructor || apply Hp.
  - destruct H as (H3 & H4). repeat split; auto; now constructor || apply Hp.
Qed.

Lemma queueInv_tokens s :
  queueInv s ->
  match queue s with
  | Some (AwaitFinder item rest _) =>
      (id item ∉ map id rest) /\ (id item < uuid s)%nat /\
      NoDup (map id rest) /\ Forall (fun p => (id p < uuid s)%nat) rest
  | Some (AwaitDelay rest _) =>
      NoDup (map id rest) /\ Forall (fun p => (id p < uuid s)%nat) rest
  | None => True
  end.
Proof.
  unfold queueInv, waiting, inFlight.
  destruct (queue s) as [[item rest aud|rest aud]|]; [| |auto].
  - intros (_ & H1 & (H2 & _) & H3 & H4 & _). auto.
  - intros (_ & H3 & H4 & _). auto.
Qed.

Lemma queueInv_running s : queueInv s -> queue s <> None -> isProcessing s = true.
Proof.
  unfold queueInv. destruct (queue s) as [[item rest aud|rest aud]|];
    [intros (H & _) _; exact H | intros (H & _) _; exact H | intros _ H; now destruct H].
Qed.

Lemma clearList_Inv confirmed s : Inv s -> Inv (clearList confirmed s).
Proof.
  intros [HR HQ]. unfold clearList.
  destruct (websites s) as [|w ws] eqn:E; [split; [now rewrite E | exact HQ]|].
  destruct confirmed; [|split; [now rewrite E | exact HQ]].
  split; [apply recordsInv_nil|].
  apply (queueInv_no_records (setNotification None (setWebsites (fun _ => []) s)) (queue s));
    [reflexivity | apply (queueInv_running s HQ) | apply (queueInv_tokens s HQ)].
Qed.

Lemma saveAndClear_Inv stored s : Inv s -> Inv (saveAndClear stored s).
Proof.
  intros [HR HQ]. unfold saveAndClear.
  destruct (websites s) as [|w ws] eqn:E; [split; [now rewrite E | exact HQ]|].
  destruct stored; [|split; [now rewrite E | exact HQ]].
  split; [apply recordsInv_nil|].
  match goal with
  | |- queueInv (setNotification ?n (setWebsites ?f (setHistory ?h s))) =>
      apply (queueInv_no_records (setNotification n (setWebsites f (setHistory h s)))
                                 (queue s));
        [reflexivity | apply (queueInv_running s HQ) | apply (queueInv_tokens s HQ)]
  end.
Qed.

Lemma processQueue_Inv s : Inv s -> Inv (processQueue s).
Proof.
  intros [HR HQ]. unfold processQueue.
  destruct (isProcessing s) eqn:Hp; [split; assumption|].
  apply enterLoop_Inv; simpl; [exact HR | reflexivity |].
  destruct HR as [H1 H2 _ _]. repeat split.
  - now apply NoDup_map_filter.
  - now apply Forall_List_filter.
  - apply Forall_forall; intros w Hw Hin.
    apply list_elem_of_fmap in Hin as (p & E & Hin).
    apply list_elem_of_In, filter_In in Hin as [Hin Hidle].
    apply list_elem_of_In in Hin.
    rewrite (same_id_same_record (websites s) w p H1 Hw Hin E).
    unfold isIdle in Hidle. now destruct (status p).
Qed.

Lemma afterFinder_Inv item rest audience outcome s :
  Inv s -> queue s = Some (AwaitFinder item rest audience) ->
  Inv (afterFinder item rest audience outcome s).
Proof.
  intros [HR HQ] Eq. unfold queueInv in HQ. rewrite Eq in HQ.
  destruct HQ as (Hp & Hni & (Hi & Hfl) & Hwait).
  rewrite Forall_forall in Hfl.
  unfold afterFinder. destruct outcome as [found|error]; [|destruct (isRateLimit error)].
  - split; simpl.
    + apply recordsInv_mapItem; [apply withEmails_keepsIdentity | | exact HR].
      intros w Hw E; simpl. split; [discriminate | reflexivity].
    + unfold queueInv; simpl. split; [exact Hp|].
      apply waiting_mapItem; [apply withEmails_keepsIdentity | exact Hni | exact Hwait].
  - split; simpl.
    + apply recordsInv_mapItem; [apply withStatus_keepsIdentity | | exact HR].
      intros w Hw E; simpl. split; [discriminate|].
      now rewrite (proj2 (Hfl w Hw E)).
    + exact I.
  - split; simpl.
    + apply recordsInv_mapItem; [apply withError_keepsIdentity | | exact HR].
      intros w Hw E; simpl. split; [discriminate|].
      now rewrite (proj2 (Hfl w Hw E)).
    + unfold queueInv; simpl. split; [exact Hp|].
      apply waiting_mapItem; [apply withError_keepsIdentity | exact Hni | exact Hwait].
Qed.

Lemma step_Inv s e : Inv s -> Inv (step s e).
Proof.
  intros HI. destruct e as [urls| |k file|i|confirmed|stored|a| | |outcome|]; simpl.
  - now apply processUrls_Inv.
  - now apply setFileReads_Inv.
  - destruct (fileReads s !! k) as [rendered|]; [|exact HI].
    destruct (FileUtils.parseFile file) as [urls|].
    + now apply processUrls_Inv, setFileReads_Inv.
    + now apply setFileReads_Inv.
  - now apply removeWebsite_Inv.
  - now apply clearList_Inv.
  - now apply saveAndClear_Inv.
  - exact HI.
  - exact HI.
  - now apply processQueue_Inv.
  - destruct (queue s) as [[item rest aud|rest aud]|] eqn:Eq; try exact HI.
    now apply afterFinder_Inv.
  - destruct (queue s) as [[item rest aud|rest aud]|] eqn:Eq; try exact HI.
    destruct HI as [HR HQ]. unfold queueInv in HQ. rewrite Eq in HQ.
    destruct HQ as (Hp & Hwait). now apply enterLoop_Inv.
Qed.

Lemma initial_Inv saved : Inv (initial saved).
Proof. split; [apply recordsInv_nil | exact I]. Qed.

Lemma reachable_Inv s : reachable s -> Inv s.
Proof. induction 1; [apply initial_Inv | now apply step_Inv]. Qed.

Lemma steps_reachable s es : reachable s -> reachable (steps s es).
Proof.
  revert s; induction es as [|e es IH]; intros s H; simpl; [exact H|].
  apply IH. now constructor.
Qed.

End Invariant.

(** ** The status PENDING *)

Section Pending.
Import Types App.

(** C9: no operation writes PENDING; in a reachable state every record is
    IDLE, PROCESSING, COMPLETED or FAILED. *)
Theorem pending_never_assigned (s : State) :
  reachable s ->
  Forall (fun w => status w = IDLE \/ status w = PROCESSING \/
                   status w = COMPLETED \/ status w = FAILED) (websites s).
Proof.
  intros H. destruct (reachable_Inv s H) as [[_ _ H3 _] _].
  eapply Forall_impl; [exact H3|].
  intros w Hw; simpl in Hw. destruct (status w); auto. now destruct Hw.
Qed.

Lemma pending_never_assigned_witness :
  Forall (fun w => status w = IDLE \/ status w = PROCESSING \/
                   status w = COMPLETED \/ status w = FAILED)
         (websites (steps (initial ∅)
                          [AddUrlsEvent ["a.com"; "b.com"]; ProcessQueue;
                           FinderSettled (Js.Fulfilled ["a@a.com"])])).
Proof.
  apply pending_never_assigned, steps_reachable, reachable_initial.
Defined.

End Pending.

(** ** [saveAndClear] *)

Section SaveAndClear.
Import Types App.

Lemma normalizedOf_injective (ws : list WebsiteData) w p :
  NoDup (normalizedOf ws) -> w ∈ ws -> p ∈ ws ->
  normalizeUrl (url w) = normalizeUrl (url p) -> w = p.
Proof.
  induction ws as [|x ws IH]; simpl; intros Hnd Hw Hp E; [inversion Hw|].
  apply NoDup_cons in Hnd as [Hx Hnd].
  apply elem_of_cons in Hw as [->|Hw]; apply elem_of_cons in Hp as [->|Hp]; auto.
  - exfalso; apply Hx. rewrite E.
    now apply (list_elem_of_fmap_2 (fun w => normalizeUrl (url w))).
  - exfalso; apply Hx. rewrite <- E.
    now apply (list_elem_of_fmap_2 (fun w => normalizeUrl (url w))).
Qed.

Lemma saveRecord_other ws h k :
  k ∉ normalizedOf (List.filter isProcessed ws) ->
  fold_left saveRecord ws h !! k = h !! k.
Proof.
  revert h; induction ws as [|w ws IH]; intros h Hk; simpl; [reflexivity|].
  simpl in Hk. unfold saveRecord at 2.
  destruct (isProcessed w); simpl in Hk.
  - rewrite IH by (intros Hin; apply Hk; now right).
    apply lookup_insert_ne. intros E. apply Hk. rewrite E. left.
  - now apply IH.
Qed.

Lemma saveRecord_saved ws h w :
  NoDup (normalizedOf ws) -> w ∈ ws -> isProcessed w = true ->
  fold_left saveRecord ws h !! normalizeUrl (url w) = Some (emails w).
Proof.
  revert h; induction ws as [|x ws IH]; intros h Hnd Hw Hp; [inversion Hw|].
  simpl in Hnd. apply NoDup_cons in Hnd as [Hx Hnd]. simpl.
  apply elem_of_cons in Hw as [->|Hw]; [|now apply IH].
  unfold saveRecord at 2. rewrite Hp.
  rewrite saveRecord_other; [apply lookup_insert_eq|].
  intros Hin. apply Hx. unfold normalizedOf in *.
  apply list_elem_of_fmap in Hin as (y & -> & Hy).
  apply (list_elem_of_fmap_2 (fun w => normalizeUrl (url w))), list_elem_of_In.
  apply list_elem_of_In, filter_In in Hy. tauto.
Qed.

Lemma isProcessed_true w :
  isProcessed w = true <-> status w = COMPLETED \/ status w = FAILED.
Proof.
  unfold isProcessed. destruct (status w); simpl; split; auto;
    intros H; try discriminate; destruct H; discriminate.
Qed.

(** on a list whose normalized URLs differ, whose FAILED records have no
    address and whose URLs are new to the history, save-and-clear maps
    the normalized URL of every COMPLETED record to its addresses and of
    every FAILED record to the empty list, enters no record of another
    status, changes no other key, and empties the list *)
Lemma saveAndClear_merges_records_with_distinct_urls (s : State) :
  NoDup (normalizedOf (websites s)) ->
  Forall (fun w => emails w <> [] -> status w = COMPLETED) (websites s) ->
  websites (saveAndClear true s) = [] /\
  (forall w, w ∈ websites s -> status w = COMPLETED ->
             history (saveAndClear true s) !! normalizeUrl (url w) = Some (emails w)) /\
  (forall w, w ∈ websites s -> status w = FAILED ->
             history (saveAndClear true s) !! normalizeUrl (url w) = Some []) /\
  (forall w, w ∈ websites s -> status w <> COMPLETED -> status w <> FAILED ->
             history (saveAndClear true s) !! normalizeUrl (url w)
             = history s !! normalizeUrl (url w)) /\
  (forall k, k ∉ normalizedOf (List.filter isProcessed (websites s)) ->
             history (saveAndClear true s) !! k = history s !! k).
Proof.
  intros H5 H4. rewrite Forall_forall in H4.
  assert (Hh : history (saveAndClear true s) = fold_left saveRecord (websites s) (history s)).
  { unfold saveAndClear. now destruct (websites s). }
  assert (Hsaved : forall w, w ∈ websites s -> isProcessed w = true ->
            history (saveAndClear true s) !! normalizeUrl (url w) = Some (emails w)).
  { intros w Hw Hp. rewrite Hh. now apply saveRecord_saved. }
  split; [unfold saveAndClear; destruct (websites s) eqn:E; [exact E | reflexivity]|].
  split; [|split; [|split]].
  - intros w Hw Hs. apply Hsaved; [exact Hw|]. apply isProcessed_true; auto.
  - intros w Hw Hs. rewrite Hsaved; [|exact Hw|apply isProcessed_true; auto].
    destruct (emails w) eqn:E; [reflexivity|].
    assert (status w = COMPLETED) by (apply H4; [exact Hw | rewrite E; discriminate]).
    congruence.
  - intros w Hw Hc Hf. rewrite Hh. apply saveRecord_other.
    intros Hin. unfold normalizedOf in Hin.
    apply list_elem_of_fmap in Hin as (y & E & Hy).
    apply list_elem_of_In, filter_In in Hy as [Hy Hp]. apply list_elem_of_In in Hy.
    assert (w = y).
    { destruct (normalizedOf_injective (websites s) w y H5 Hw Hy E). reflexivity. }
    subst y. apply isProcessed_true in Hp. tauto.
  - intros k Hk. rewrite Hh. now apply saveRecord_other.
Qed.

(** the example of the specification: a.com with its address, b.com with
    none, and an empty list *)
Lemma saveAndClear_example :
  map (fun w => (url w, status w, emails w)) (websites savedExample)
    = [("a.com", COMPLETED, ["a@a.com"]); ("b.com", FAILED, [])] /\
  websites (saveAndClear true savedExample) = [] /\
  history (saveAndClear true savedExample) !! "a.com" = Some ["a@a.com"] /\
  history (saveAndClear true savedExample) !! "b.com" = Some [].
Proof. repeat split; vm_compute; reflexivity. Qed.

(** C5 at the list of two overlapping file reads: the COMPLETED record of
    a.com and the FAILED record of https://a.com/ have one normalized URL;
    save-and-clear stores the empty list of the second under it, and the
    address of the first is in no entry of the history. *)
Theorem saveAndClear_loses_addresses_of_shared_url :
  map (fun w => (url w, status w, emails w)) (websites overlappingProcessed)
    = [("a.com", COMPLETED, ["a@a.com"]); ("https://a.com/", FAILED, [])] /\
  normalizedOf (websites overlappingProcessed) = ["a.com"; "a.com"] /\
  websites (saveAndClear true overlappingProcessed) = [] /\
  history (saveAndClear true overlappingProcessed) !! "a.com" = Some [] /\
  map_to_list (history (saveAndClear true overlappingProcessed)) = [("a.com", [])].
Proof. repeat split; vm_compute; reflexivity. Qed.

End SaveAndClear.

(** ** One run of the queue *)

Section Run.
Import Types Js App.

Variable finder : Finder.
Variable audience : string.

Lemma answered_le n pendingItems : (answered finder audience n pendingItems <= length pendingItems)%nat.
Proof.
  revert n; induction pendingItems as [|item rest IH]; intros n; simpl; [lia|].
  destruct (isRateLimited _); [lia|]. specialize (IH (S n)). lia.
Qed.

(** the index of the first rate limit, when the earlier answers have none *)
Lemma answered_first_rate_limit n pendingItems k item :
  pendingItems !! k = Some item ->
  isRateLimited (finder (n + k) (url item) audience) = true ->
  (forall j p, (j < k)%nat -> pendingItems !! j = Some p ->
               isRateLimited (finder (n + j) (url p) audience) = false) ->
  answered finder audience n pendingItems = k.
Proof.
  revert n k; induction pendingItems as [|x rest IH]; intros n k Hk Hstop Hbefore;
    [discriminate|].
  simpl. destruct k as [|k]; simpl in Hk.
  - injection Hk as ->. rewrite Nat.add_0_r in Hstop. now rewrite Hstop.
  - assert (H0 := Hbefore 0%nat x ltac:(lia) eq_refl).
    rewrite Nat.add_0_r in H0. rewrite H0.
    f_equal. apply IH; [exact Hk | now rewrite Nat.add_succ_comm |].
    intros j p Hj Hp. rewrite Nat.add_succ_comm. apply Hbefore; [lia | exact Hp].
Qed.

Lemma answered_all n pendingItems :
  (forall j p, pendingItems !! j = Some p ->
               isRateLimited (finder (n + j) (url p) audience) = false) ->
  answered finder audience n pendingItems = length pendingItems.
Proof.
  revert n; induction pendingItems as [|x rest IH]; intros n H; simpl; [reflexivity|].
  assert (H0 := H 0%nat x eq_refl). rewrite Nat.add_0_r in H0. rewrite H0.
  f_equal. apply IH. intros j p Hp. rewrite Nat.add_succ_comm. now apply H.
Qed.

Lemma lookup_mapItem item f ws i :
  mapItem item f ws !! i
  = (fun w => if (id w =? id item)%nat then f w else w) <$> (ws !! i).
Proof. unfold mapItem. apply list_lookup_fmap. Qed.

Lemma withStatus_IDLE_PROCESSING w :
  status w = IDLE -> withStatus IDLE (withStatus PROCESSING w) = w.
Proof. destruct w as [i u st e er so]; simpl; intros ->; reflexivity. Qed.

Lemma settle_PROCESSING outcome w :
  isRateLimited outcome = false ->
  match outcome with
  | Fulfilled found => withEmails COMPLETED found (withStatus PROCESSING w)
  | Rejected error => withError FAILED (failureNote error) (withStatus PROCESSING w)
  end = settle outcome w.
Proof. now destruct outcome. Qed.

Lemma id_settle outcome w : id (settle outcome w) = id w.
Proof. now destruct outcome. Qed.

Lemma runLoop_cons n item rest s :
  runLoop finder audience n (item :: rest) s
  = match queue (afterFinder item rest audience (finder n (url item) audience)
                             (enterLoop audience (item :: rest) s)) with
    | Some (AwaitDelay _ _) =>
        runLoop finder audience (S n) rest
                (afterFinder item rest audience (finder n (url item) audience)
                             (enterLoop audience (item :: rest) s))
    | _ => afterFinder item rest audience (finder n (url item) audience)
                       (enterLoop audience (item :: rest) s)
    end.
Proof. reflexivity. Qed.

(** *** What a run does to the records *)
Lemma runLoop_records pendingItems : forall n s,
  snapshotOf pendingItems (websites s) ->
  let s' := runLoop finder audience n pendingItems s in
  let stop := answered finder audience n pendingItems in
  (forall j p i, (j < stop)%nat -> pendingItems !! j = Some p ->
                 websites s !! i = Some p ->
                 websites s' !! i = Some (settle (finder (n + j) (url p) audience) p)) /\
  (forall i w, websites s !! i = Some w ->
               (forall j, (j < stop)%nat -> pendingItems !! j <> Some w) ->
               websites s' !! i = Some w) /\
  length (websites s') = length (websites s).
Proof.
  induction pendingItems as [|item rest IH]; intros n s (Hnd & Hidle & Hsame).
  { simpl. repeat split; auto. intros j p i Hj. lia. }
  simpl in Hnd. apply NoDup_cons in Hnd as [Hni Hnd].
  apply Forall_cons in Hidle as [Hitem Hidle].
  cbn zeta. rewrite runLoop_cons. simpl answered.
  set (outcome := finder n (url item) audience).
  destruct (isRateLimited outcome) eqn:Hstop.
  - (* the rate limit: the item is rolled back and the run ends *)
    destruct outcome as [found|error]; [discriminate|]. simpl in Hstop.
    unfold afterFinder. rewrite Hstop. simpl.
    assert (E : mapItem item (withStatus IDLE)
                  (mapItem item (withStatus PROCESSING) (websites s)) = websites s).
    { unfold mapItem. rewrite map_map. rewrite <- (map_id (websites s)) at 2.
      apply map_ext_in. intros w Hw. apply list_elem_of_In in Hw.
      destruct (Nat.eqb_spec (id w) (id item)) as [Ei|Ei]; simpl.
      - rewrite Ei, Nat.eqb_refl.
        rewrite (Hsame w item Hw (ltac:(left)) Ei).
        now apply withStatus_IDLE_PROCESSING.
      - apply Nat.eqb_neq in Ei. now rewrite Ei. }
    rewrite E. repeat split; auto. intros j p i Hj. lia.
  - (* an answer: the item is settled and the loop goes on *)
    assert (Hq : exists s2,
               afterFinder item rest audience outcome
                 (enterLoop audience (item :: rest) s) = s2 /\
               queue s2 = Some (AwaitDelay rest audience) /\
               websites s2 = map (fun w => if (id w =? id item)%nat
                                           then settle outcome w else w) (websites s)).
    { eexists; split; [reflexivity|].
      unfold afterFinder. destruct outcome as [found|error]; simpl in *.
      - split; [reflexivity|]. unfold mapItem. rewrite map_map. apply map_ext.
        intros w. destruct (Nat.eqb_spec (id w) (id item)) as [Ei|Ei]; simpl.
        + now rewrite Ei, Nat.eqb_refl.
        + apply Nat.eqb_neq in Ei. now rewrite Ei.
      - rewrite Hstop. simpl. split; [reflexivity|].
        unfold mapItem. rewrite map_map. apply map_ext.
        intros w. destruct (Nat.eqb_spec (id w) (id item)) as [Ei|Ei]; simpl.
        + now rewrite Ei, Nat.eqb_refl.
        + apply Nat.eqb_neq in Ei. now rewrite Ei. }
    destruct Hq as (s2 & Es2 & Hq2 & Hw2). rewrite Es2, Hq2.
    assert (Hsnap : snapshotOf rest (websites s2)).
    { repeat split; [exact Hnd | exact Hidle |].
      intros w2 p Hw2' Hp E. rewrite Hw2 in Hw2'.
      apply list_elem_of_fmap in Hw2' as (w & -> & Hw).
      destruct (Nat.eqb_spec (id w) (id item)) as [Ei|Ei].
      - exfalso. apply Hni. rewrite id_settle, Ei in E. rewrite E.
        now apply list_elem_of_fmap_2.
      - apply (Hsame w p Hw); [now right | exact E]. }
    destruct (IH (S n) s2 Hsnap) as (HA & HB & HL).
    assert (Hlook : forall i, websites s2 !! i
              = (fun w => if (id w =? id item)%nat then settle outcome w else w)
                  <$> (websites s !! i)).
    { intros i. rewrite Hw2. apply list_lookup_fmap. }
    split; [|split].
    + intros j p i Hj Hp Hi. destruct j as [|j]; simpl in Hp.
      * injection Hp as <-. rewrite Nat.add_0_r. fold outcome.
        apply HB.
        -- rewrite Hlook, Hi. simpl. now rewrite Nat.eqb_refl.
        -- intros j' _ Hin. apply Hni.
           replace (id item) with (id (settle outcome item)) by apply id_settle.
           apply (list_elem_of_fmap_2 id). eapply list_elem_of_lookup_2; exact Hin.
      * rewrite <- Nat.add_succ_comm. apply HA; [lia | exact Hp |].
        rewrite Hlook, Hi. simpl.
        destruct (Nat.eqb_spec (id p) (id item)) as [Ei|Ei]; [|reflexivity].
        exfalso. apply Hni. rewrite <- Ei.
        apply (list_elem_of_fmap_2 id). eapply list_elem_of_lookup_2; exact Hp.
    + intros i w Hi Hnot. apply HB.
      * rewrite Hlook, Hi. simpl.
        destruct (Nat.eqb_spec (id w) (id item)) as [Ei|Ei]; [|reflexivity].
        exfalso. apply (Hnot 0%nat); [lia|]. simpl. f_equal. symmetry.
        apply Hsame; [eapply list_elem_of_lookup_2; exact Hi | left | exact Ei].
      * intros j Hj. apply (Hnot (S j)). lia.
    + rewrite HL, Hw2. apply length_map.
Qed.

(** *** The flag, the notification and the calls *)
Lemma runLoop_control pendingItems : forall n s,
  let s' := runLoop finder audience n pendingItems s in
  let stop := answered finder audience n pendingItems in
  isProcessing s' = false /\ queue s' = None /\
  finderCalls s' = finderCalls s ++
                   map (fun p => (url p, audience)) (take (S stop) pendingItems) /\
  ((stop < length pendingItems)%nat -> notification s' = Some RateLimitReached) /\
  (stop = length pendingItems -> notification s' = notification s).
Proof.
  induction pendingItems as [|item rest IH]; intros n s; cbn zeta.
  { simpl. rewrite app_nil_r. repeat split; auto. intros H; lia. }
  rewrite runLoop_cons. simpl answered.
  set (outcome := finder n (url item) audience).
  destruct (isRateLimited outcome) eqn:Hstop.
  - destruct outcome as [found|error]; [discriminate|]. simpl in Hstop.
    unfold afterFinder. rewrite Hstop. simpl.
    repeat split; auto. intros H; discriminate.
  - assert (Hq : exists s2,
               afterFinder item rest audience outcome
                 (enterLoop audience (item :: rest) s) = s2 /\
               queue s2 = Some (AwaitDelay rest audience) /\
               finderCalls s2 = finderCalls s ++ [(url item, audience)] /\
               notification s2 = notification s).
    { eexists; split; [reflexivity|].
      unfold afterFinder. destruct outcome as [found|error]; simpl in *.
      - auto.
      - rewrite Hstop. simpl. auto. }
    destruct Hq as (s2 & Es2 & Hq2 & Hc2 & Hn2). rewrite Es2, Hq2.
    destruct (IH (S n) s2) as (H1 & H2 & H3 & H4 & H5).
    split; [exact H1|]. split; [exact H2|]. split; [|split].
    + rewrite H3, Hc2, <- app_assoc. reflexivity.
    + intros H. rewrite <- Hn2 || idtac. apply H4. simpl in H. lia.
    + intros H. rewrite H5, Hn2; [reflexivity|]. simpl in H. lia.
Qed.

(** *** The run as a sequence of transitions *)
Lemma runLoop_steps pendingItems : forall n s,
  runLoop finder audience n pendingItems s
  = steps (enterLoop audience pendingItems s) (runEvents finder audience n pendingItems).
Proof.
  induction pendingItems as [|item rest IH]; intros n s; [reflexivity|].
  rewrite runLoop_cons. simpl runEvents.
  set (outcome := finder n (url item) audience).
  set (s1 := enterLoop audience (item :: rest) s).
  assert (Hs : forall es,
             steps s1 (FinderSettled outcome :: es)
             = steps (afterFinder item rest audience outcome s1) es) by reflexivity.
  rewrite Hs. clear Hs.
  assert (Hd : forall s2 es,
             queue s2 = Some (AwaitDelay rest audience) ->
             steps s2 (DelayElapsed :: es) = steps (enterLoop audience rest s2) es).
  { intros s2 es E. unfold steps; simpl. now rewrite E. }
  destruct outcome as [found|error].
  - rewrite Hd by reflexivity. simpl queue. apply IH.
  - unfold afterFinder. destruct (isRateLimit error).
    + reflexivity.
    + rewrite Hd by reflexivity. simpl queue. apply IH.
Qed.

End Run.

Section RunQueue.
Import Types Js App.

Lemma runQueue_steps finder s :
  isProcessing s = false ->
  runQueue finder s
  = steps s (ProcessQueue ::
             runEvents finder (targetAudience s) 0 (List.filter isIdle (websites s))).
Proof.
  intros Hp. unfold runQueue. rewrite Hp. rewrite runLoop_steps.
  simpl. unfold processQueue. now rewrite Hp.
Qed.

Lemma runQueue_reachable finder s : reachable s -> reachable (runQueue finder s).
Proof.
  intros H. destruct (isProcessing s) eqn:Hp.
  - unfold runQueue. now rewrite Hp.
  - rewrite runQueue_steps by exact Hp. now apply steps_reachable.
Qed.

Lemma snapshotOf_idle ws :
  NoDup (map id ws) -> snapshotOf (List.filter isIdle ws) ws.
Proof.
  intros Hnd. repeat split.
  - now apply NoDup_map_filter.
  - apply Forall_forall. intros p Hp.
    apply list_elem_of_In, filter_In in Hp as [_ Hp].
    unfold isIdle in Hp. now destruct (status p).
  - intros w p Hw Hp E. apply list_elem_of_In, filter_In in Hp as [Hp _].
    apply list_elem_of_In in Hp. now apply (same_id_same_record ws).
Qed.

End RunQueue.

(** ** The two runs of the specification *)

Section QueueRuns.
Import Types Js App.

Lemma idle_in_snapshot ws w :
  w ∈ ws -> status w = IDLE -> exists j, List.filter isIdle ws !! j = Some w.
Proof.
  intros Hw Hs. apply list_elem_of_lookup_1, list_elem_of_In, filter_In.
  split; [now apply list_elem_of_In|]. unfold isIdle. now rewrite Hs.
Qed.

Lemma snapshot_is_idle ws j p :
  List.filter isIdle ws !! j = Some p -> p ∈ ws /\ status p = IDLE.
Proof.
  intros H. apply list_elem_of_lookup_2, list_elem_of_In, filter_In in H as [Hp Hs].
  split; [now apply list_elem_of_In|]. unfold isIdle in Hs. now destruct (status p).
Qed.

Lemma snapshot_positions ws j j' p :
  NoDup (map id ws) ->
  List.filter isIdle ws !! j = Some p -> List.filter isIdle ws !! j' = Some p -> j = j'.
Proof.
  intros Hnd. apply NoDup_lookup.
  apply (NoDup_fmap_1 id). now apply NoDup_map_filter.
Qed.

Lemma isRateLimit_flavored error : isRateLimit error = true <-> rateLimitFlavored error.
Proof.
  unfold isRateLimit, rateLimitFlavored.
  rewrite !orb_true_iff, !bool_decide_eq_true.
  destruct (err_message error) as [m|].
  - rewrite !orb_true_iff. split.
    + intros [[H|H]|H]; [now left | now right; left | right; right; exists m; tauto].
    + intros [H|[H|(m' & E & H)]]; [tauto | tauto |]. injection E as <-. tauto.
  - split.
    + intros [[H|H]|H]; [now left | now right; left | discriminate].
    + intros [H|[H|(m' & E & H)]]; [tauto | tauto | discriminate].
Qed.

(** C1: when the answer to the call for the K-th item of the snapshot
    carries a rate limit (and no earlier answer does), the run ends with
    the flag down; the items before it are settled by their answers,
    COMPLETED or FAILED; the K-th item and the items behind it are as they
    were, IDLE; and the finder has been called for the first K items
    only. Positions count from 0: the K-th item is at position [k]. *)
Theorem rate_limit_pauses_the_queue
    (finder : Finder) (s : State) (k : nat) (item : WebsiteData) (error : JsError) :
  isProcessing s = false ->
  NoDup (map id (websites s)) ->
  List.filter isIdle (websites s) !! k = Some item ->
  finder k (url item) (targetAudience s) = Rejected error ->
  rateLimitFlavored error ->
  (forall j p, (j < k)%nat -> List.filter isIdle (websites s) !! j = Some p ->
               isRateLimited (finder j (url p) (targetAudience s)) = false) ->
  isProcessing (runQueue finder s) = false /\
  queue (runQueue finder s) = None /\
  notification (runQueue finder s) = Some RateLimitReached /\
  (forall j p i, (j < k)%nat -> List.filter isIdle (websites s) !! j = Some p ->
     websites s !! i = Some p ->
     websites (runQueue finder s) !! i
       = Some (settle (finder j (url p) (targetAudience s)) p) /\
     (status (settle (finder j (url p) (targetAudience s)) p) = COMPLETED \/
      status (settle (finder j (url p) (targetAudience s)) p) = FAILED)) /\
  (forall j p i, (k <= j)%nat -> List.filter isIdle (websites s) !! j = Some p ->
     websites s !! i = Some p ->
     websites (runQueue finder s) !! i = Some p /\ status p = IDLE) /\
  (forall i w, websites s !! i = Some w -> status w <> IDLE ->
     websites (runQueue finder s) !! i = Some w) /\
  finderCalls (runQueue finder s)
    = finderCalls s ++
      map (fun p => (url p, targetAudience s))
          (take (S k) (List.filter isIdle (websites s))).
Proof.
  intros Hp Hnd Hk Hrej Hrl Hbefore. apply isRateLimit_flavored in Hrl.
  set (pending := List.filter isIdle (websites s)) in *.
  set (aud := targetAudience s) in *.
  assert (Hstop : answered finder aud 0 pending = k).
  { apply (answered_first_rate_limit finder aud 0 pending k item); simpl; auto.
    now rewrite Hrej. }
  unfold runQueue. rewrite Hp. fold pending aud.
  set (s1 := setNotification None (setIsProcessing true s)).
  assert (Hsnap : snapshotOf pending (websites s1)) by now apply snapshotOf_idle.
  destruct (runLoop_records finder aud pending 0 s1 Hsnap) as (HA & HB & _).
  destruct (runLoop_control finder aud pending 0 s1) as (H1 & H2 & H3 & H4 & _).
  rewrite Hstop in HA, HB, H3, H4.
  split; [exact H1|]. split; [exact H2|]. split.
  { apply H4. eapply lookup_lt_Some; exact Hk. }
  split; [|split; [|split]].
  - intros j p i Hj Hpj Hi. split; [now apply (HA j p i)|].
    destruct (finder j (url p) aud); simpl; auto.
  - intros j p i Hj Hpj Hi. split; [|exact (proj2 (snapshot_is_idle _ _ _ Hpj))].
    apply HB; [exact Hi|]. intros j' Hj' Hpj'.
    assert (j' = j) by (eapply snapshot_positions; eauto). lia.
  - intros i w Hi Hs. apply HB; [exact Hi|]. intros j' Hj' Hpj'.
    apply Hs. exact (proj2 (snapshot_is_idle _ _ _ Hpj')).
  - exact H3.
Qed.

Lemma rate_limit_pauses_the_queue_witness :
  map (fun w => (url w, status w, emails w)) (websites (runQueue secondCallLimited threeIdle))
    = [("a.com", COMPLETED, ["info@a.com"]); ("b.com", IDLE, []); ("c.com", IDLE, [])] /\
  isProcessing (runQueue secondCallLimited threeIdle) = false /\
  finderCalls (runQueue secondCallLimited threeIdle) = [("a.com", ""); ("b.com", "")].
Proof.
  assert (H : isProcessing (runQueue secondCallLimited threeIdle) = false /\
              finderCalls (runQueue secondCallLimited threeIdle)
              = [("a.com", ""); ("b.com", "")]).
  { destruct (rate_limit_pauses_the_queue secondCallLimited threeIdle 1
                (mkWebsiteData 1 "b.com" IDLE [] None None)
                (mkJsError (Some 429%Z) None (Some "Too Many Requests")))
      as (H1 & _ & _ & _ & _ & _ & H7).
    - reflexivity.
    - apply (bool_decide_unpack _). vm_compute. exact I.
    - reflexivity.
    - reflexivity.
    - left. reflexivity.
    - intros j p Hj Hp. assert (j = 0)%nat by lia. subst j.
      assert (E : List.filter isIdle (websites threeIdle) !! 0%nat
                  = Some (mkWebsiteData 0 "a.com" IDLE [] None None))
        by (vm_compute; reflexivity).
      rewrite E in Hp. injection Hp as <-. reflexivity.
    - split; [exact H1 | exact H7]. }
  split; [reflexivity | exact H].
Defined.

(** C2: when every call of the finder is answered with a list, the run
    turns every IDLE record into a COMPLETED one that holds the list of
    its call, touches no other record, and ends with the flag down. *)
Theorem queue_completes_all_idle_records (finder : Finder) (s : State) :
  isProcessing s = false ->
  NoDup (map id (websites s)) ->
  (forall j p, List.filter isIdle (websites s) !! j = Some p ->
               exists found, finder j (url p) (targetAudience s) = Fulfilled found) ->
  isProcessing (runQueue finder s) = false /\
  queue (runQueue finder s) = None /\
  length (websites (runQueue finder s)) = length (websites s) /\
  (forall i w, websites s !! i = Some w -> status w = IDLE ->
     exists j found,
       List.filter isIdle (websites s) !! j = Some w /\
       finder j (url w) (targetAudience s) = Fulfilled found /\
       websites (runQueue finder s) !! i = Some (withEmails COMPLETED found w)) /\
  (forall i w, websites s !! i = Some w -> status w <> IDLE ->
     websites (runQueue finder s) !! i = Some w) /\
  Forall (fun w => status w <> IDLE) (websites (runQueue finder s)).
Proof.
  intros Hp Hnd Hok.
  set (pending := List.filter isIdle (websites s)) in *.
  set (aud := targetAudience s) in *.
  assert (Hstop : answered finder aud 0 pending = length pending).
  { apply answered_all. intros j p Hj. simpl.
    destruct (Hok j p Hj) as (found & ->). reflexivity. }
  unfold runQueue. rewrite Hp. fold pending aud.
  set (s1 := setNotification None (setIsProcessing true s)).
  assert (Hsnap : snapshotOf pending (websites s1)) by now apply snapshotOf_idle.
  destruct (runLoop_records finder aud pending 0 s1 Hsnap) as (HA & HB & HL).
  destruct (runLoop_control finder aud pending 0 s1) as (H1 & H2 & _).
  rewrite Hstop in HA, HB. change (websites s1) with (websites s) in HL.
  assert (Hidle : forall i w, websites s !! i = Some w -> status w = IDLE ->
            exists j found,
              pending !! j = Some w /\ finder j (url w) aud = Fulfilled found /\
              websites (runLoop finder aud 0 pending s1) !! i
              = Some (withEmails COMPLETED found w)).
  { intros i w Hi Hs.
    destruct (idle_in_snapshot (websites s) w) as (j & Hj);
      [eapply list_elem_of_lookup_2; exact Hi | exact Hs |].
    destruct (Hok j w Hj) as (found & Hf).
    exists j, found. split; [exact Hj|]. split; [exact Hf|].
    rewrite (HA j w i); [simpl; now rewrite Hf | eapply lookup_lt_Some; exact Hj | exact Hj | exact Hi]. }
  assert (Hother : forall i w, websites s !! i = Some w -> status w <> IDLE ->
            websites (runLoop finder aud 0 pending s1) !! i = Some w).
  { intros i w Hi Hs. apply HB; [exact Hi|]. intros j' Hj' Hpj'.
    apply Hs. exact (proj2 (snapshot_is_idle _ _ _ Hpj')). }
  split; [exact H1|]. split; [exact H2|]. split; [exact HL|].
  split; [exact Hidle|]. split; [exact Hother|].
  apply Forall_forall. intros w' Hw'.
  apply list_elem_of_lookup_1 in Hw' as (i & Hi').
  assert (Hlt : (i < length (websites s))%nat).
  { rewrite <- HL. eapply lookup_lt_Some; exact Hi'. }
  apply lookup_lt_is_Some_2 in Hlt as (w & Hi).
  destruct (decide (status w = IDLE)) as [Hs|Hs].
  - destruct (Hidle i w Hi Hs) as (j & found & _ & _ & Hi'').
    rewrite Hi'' in Hi'. injection Hi' as <-. simpl. discriminate.
  - rewrite (Hother i w Hi Hs) in Hi'. now injection Hi' as <-.
Qed.

Lemma queue_completes_all_idle_records_witness :
  map (fun w => (url w, status w, emails w)) (websites (runQueue alwaysAnswers threeIdle))
    = [("a.com", COMPLETED, ["info@a.com"]); ("b.com", COMPLETED, ["info@b.com"]);
       ("c.com", COMPLETED, ["info@c.com"])] /\
  isProcessing (runQueue alwaysAnswers threeIdle) = false /\
  Forall (fun w => status w <> IDLE) (websites (runQueue alwaysAnswers threeIdle)).
Proof.
  assert (H : isProcessing (runQueue alwaysAnswers threeIdle) = false /\
              Forall (fun w => status w <> IDLE)
                     (websites (runQueue alwaysAnswers threeIdle))).
  { destruct (queue_completes_all_idle_records alwaysAnswers threeIdle)
      as (H1 & _ & _ & _ & _ & H6).
    - reflexivity.
    - apply (bool_decide_unpack _). vm_compute. exact I.
    - intros j p Hj. eexists. reflexivity.
    - split; [exact H1 | exact H6]. }
  split; [reflexivity | exact H].
Defined.

End QueueRuns.

(** ** Rounding in binary64 *)

Section Binary64.
Import JsNumber.
Local Open Scope Z_scope.

Local Abbreviation bra := (binary_round_aux prec emax).

Lemma digits2_pos_bounds (p : positive) :
  2 ^ (Z.pos (digits2_pos p) - 1) <= Z.pos p < 2 ^ Z.pos (digits2_pos p).
Proof.
  assert (Hpow : forall d, 0 < d -> 2 ^ d = 2 * 2 ^ (d - 1)).
  { intros d Hd. rewrite <- Z.pow_succ_r by lia. f_equal. lia. }
  induction p as [p IH|p IH|]; simpl digits2_pos.
  - rewrite Pos2Z.inj_succ. change (Z.pos p~1) with (2 * Z.pos p + 1).
    set (d := Z.pos (digits2_pos p)) in *.
    assert (Hd : 0 < d) by (unfold d; lia). pose proof (Hpow d Hd).
    replace (Z.succ d - 1) with d by lia.
    rewrite (Hpow (Z.succ d)) by lia. replace (Z.succ d - 1) with d by lia. lia.
  - rewrite Pos2Z.inj_succ. change (Z.pos p~0) with (2 * Z.pos p).
    set (d := Z.pos (digits2_pos p)) in *.
    assert (Hd : 0 < d) by (unfold d; lia). pose proof (Hpow d Hd).
    replace (Z.succ d - 1) with d by lia.
    rewrite (Hpow (Z.succ d)) by lia. replace (Z.succ d - 1) with d by lia. lia.
  - simpl. lia.
Qed.

Lemma digits2_pos_unique (p : positive) (d : Z) :
  2 ^ (d - 1) <= Z.pos p < 2 ^ d -> Z.pos (digits2_pos p) = d.
Proof.
  intros [Hlo Hhi]. pose proof (digits2_pos_bounds p) as [Blo Bhi].
  set (d' := Z.pos (digits2_pos p)) in *.
  assert (0 < d') by (unfold d'; lia).
  assert (0 < d).
  { destruct (Z.lt_trichotomy 0 d) as [?|[<-|Hn]]; [assumption| simpl in Hhi; lia|].
    rewrite Z.pow_neg_r in Hhi by assumption. lia. }
  destruct (Z.lt_trichotomy d d') as [Hlt|[->|Hgt]]; [|reflexivity|].
  - assert (2 ^ d <= 2 ^ (d' - 1)) by (apply Z.pow_le_mono_r; lia). lia.
  - assert (2 ^ d' <= 2 ^ (d - 1)) by (apply Z.pow_le_mono_r; lia). lia.
Qed.

Lemma iter_pos_nat {A : Type} (f : A -> A) (p : positive) (x : A) :
  SpecFloat.iter_pos f p x = Nat.iter (Pos.to_nat p) f x.
Proof.
  revert x; induction p as [p IH|p IH|]; intros x; simpl SpecFloat.iter_pos.
  - rewrite !IH, Pos2Nat.inj_xI, Nat.iter_succ_r.
    replace (2 * Pos.to_nat p)%nat with (Pos.to_nat p + Pos.to_nat p)%nat by lia.
    now rewrite Nat.iter_add.
  - rewrite !IH, Pos2Nat.inj_xO.
    replace (2 * Pos.to_nat p)%nat with (Pos.to_nat p + Pos.to_nat p)%nat by lia.
    now rewrite Nat.iter_add.
  - reflexivity.
Qed.

Lemma shr_1_spec (mrs : shr_record) :
  0 <= shr_m mrs ->
  shr_m (shr_1 mrs) = shr_m mrs / 2 /\
  (exactRecord mrs = true -> shr_m mrs mod 2 = 0 -> exactRecord (shr_1 mrs) = true).
Proof.
  destruct mrs as [m r s]; simpl. intros Hm.
  destruct m as [|[p|p|]|p]; simpl; try lia.
  - split; [reflexivity|]. now destruct r, s.
  - change (Z.pos p~1) with (2 * Z.pos p + 1).
    split; [apply Z.div_unique with 1; lia|].
    intros _ H. rewrite Z.add_comm, Z.mul_comm, Z.mod_add in H by lia. discriminate.
  - change (Z.pos p~0) with (2 * Z.pos p).
    split; [apply Z.div_unique with 0; lia|].
    intros H _. now destruct r, s.
  - split; [reflexivity|]. intros _ H. discriminate.
Qed.

Lemma iter_shr_1_spec (k : nat) (mrs : shr_record) :
  0 <= shr_m mrs ->
  shr_m (Nat.iter k shr_1 mrs) = shr_m mrs / 2 ^ Z.of_nat k /\
  (exactRecord mrs = true -> shr_m mrs mod 2 ^ Z.of_nat k = 0 ->
   exactRecord (Nat.iter k shr_1 mrs) = true).
Proof.
  intros Hm. induction k as [|k [IHm IHe]].
  - simpl. rewrite Z.div_1_r. auto.
  - rewrite Nat2Z.inj_succ, Z.pow_succ_r by lia. simpl Nat.iter.
    assert (Hp : 0 < 2 ^ Z.of_nat k) by (apply Z.pow_pos_nonneg; lia).
    assert (H0 : 0 <= shr_m (Nat.iter k shr_1 mrs)).
    { rewrite IHm. apply Z.div_pos; lia. }
    destruct (shr_1_spec _ H0) as [Sm Se]. split.
    + rewrite Sm, IHm, Z.div_div by lia. f_equal. lia.
    + intros He Hmod.
      assert (Hdiv : (2 * 2 ^ Z.of_nat k | shr_m mrs)).
      { apply Z.mod_divide; [lia | exact Hmod]. }
      destruct Hdiv as [c Hc].
      apply Se.
      * apply IHe; [exact He|]. rewrite Hc.
        replace (c * (2 * 2 ^ Z.of_nat k)) with (c * 2 * 2 ^ Z.of_nat k) by lia.
        apply Z.mod_mul. lia.
      * rewrite IHm, Hc.
        replace (c * (2 * 2 ^ Z.of_nat k)) with (c * 2 * 2 ^ Z.of_nat k) by lia.
        rewrite Z.div_mul by lia. apply Z.mod_mul. lia.
Qed.

(** the shift of [shr]: the quotient, and exactness when nothing is lost *)
Lemma shr_spec (m : Z) (l : location) (e n : Z) :
  0 <= m -> 0 <= n ->
  exists mrs,
    shr (shr_record_of_loc m l) e n = (mrs, e + n) /\
    shr_m mrs = m / 2 ^ n /\
    (l = loc_Exact -> m mod 2 ^ n = 0 -> loc_of_shr_record mrs = loc_Exact) /\
    (n = 0 -> loc_of_shr_record mrs = l).
Proof.
  intros Hm Hn.
  assert (Hrec : shr_m (shr_record_of_loc m l) = m) by now destruct l as [|[]].
  assert (Hea : l = loc_Exact -> exactRecord (shr_record_of_loc m l) = true)
    by now intros ->.
  assert (Hloc : forall mrs, exactRecord mrs = true -> loc_of_shr_record mrs = loc_Exact).
  { intros [m' [] []]; simpl; intros H; try discriminate; reflexivity. }
  destruct n as [|p|p]; [| |lia].
  - exists (shr_record_of_loc m l).
    replace (e + 0) with e by lia. change (2 ^ 0) with 1. rewrite Z.div_1_r.
    repeat split; auto; intros; now destruct l as [|[]].
  - exists (SpecFloat.iter_pos shr_1 p (shr_record_of_loc m l)). simpl shr.
    rewrite iter_pos_nat.
    destruct (iter_shr_1_spec (Pos.to_nat p) (shr_record_of_loc m l)) as [Sm Se];
      [rewrite Hrec; exact Hm|].
    rewrite positive_nat_Z, Hrec in Sm, Se.
    repeat split; auto. intros H; discriminate.
Qed.

Lemma fexp_normal (e : Z) : -1021 <= e -> fexp prec emax e = e - 53.
Proof. unfold fexp, emin, prec, emax. lia. Qed.

Lemma round_nearest_even_cases (m : Z) (l : location) :
  round_nearest_even m l = m \/
  (round_nearest_even m l = m + 1 /\ l <> loc_Exact).
Proof.
  destruct l as [|[]]; simpl; try destruct (Z.even m);
    solve [now left | right; split; [reflexivity | discriminate]].
Qed.

Lemma pow2_split (a b : Z) : 0 <= a -> 0 <= b -> 2 ^ (a + b) = 2 ^ a * 2 ^ b.
Proof. intros; now apply Z.pow_add_r. Qed.

Lemma pow2_pos (a : Z) : 0 <= a -> 0 < 2 ^ a.
Proof. intros; now apply Z.pow_pos_nonneg. Qed.

(** a mantissa of 53 bits is left as it is *)
Lemma shr_fexp_53 (q : positive) (e : Z) :
  Z.pos (digits2_pos q) = 53 -> -1074 <= e ->
  shr_fexp prec emax (Z.pos q) e loc_Exact
  = (Build_shr_record (Z.pos q) false false, e).
Proof.
  intros Hd He. unfold shr_fexp. simpl Zdigits2. rewrite Hd.
  rewrite fexp_normal by lia. replace (53 + e - 53 - e) with 0 by lia. reflexivity.
Qed.

(** [binary_round_aux] on a positive mantissa of [53 + n] bits, away from
    the subnormal numbers and from overflow: [n] bits are shifted out, the
    result has 53 bits, and it stands for the quotient or, only when
    something was lost, for the quotient plus one *)
Lemma binary_round_aux_spec (m : positive) (e : Z) (l : location) (n : Z) :
  0 <= n -> Z.pos (digits2_pos m) = 53 + n -> -1074 <= e + n -> e + n + 1 <= 971 ->
  exists m' e',
    bra false (Z.pos m) e l = S754_finite false m' e' /\
    Z.pos (digits2_pos m') = 53 /\
    e + n <= e' <= e + n + 1 /\
    (Z.pos m' * 2 ^ (e' - (e + n)) = Z.pos m / 2 ^ n \/
     (Z.pos m' * 2 ^ (e' - (e + n)) = Z.pos m / 2 ^ n + 1 /\
      (l <> loc_Exact \/ Z.pos m mod 2 ^ n <> 0))).
Proof.
  intros Hn Hd He1 He2.
  assert (Hs1 : shr_fexp prec emax (Z.pos m) e l
                = shr (shr_record_of_loc (Z.pos m) l) e n).
  { unfold shr_fexp. f_equal. simpl Zdigits2. rewrite Hd.
    rewrite fexp_normal by lia. lia. }
  destruct (shr_spec (Z.pos m) l e n) as (mrs1 & Hshr & Hm1 & Hex1 & _); [lia | lia |].
  pose proof (digits2_pos_bounds m) as [Blo Bhi]. rewrite Hd in Blo, Bhi.
  replace (53 + n - 1) with (n + 52) in Blo by lia.
  replace (53 + n) with (n + 53) in Bhi by lia.
  rewrite pow2_split in Blo, Bhi by lia.
  pose proof (pow2_pos n Hn) as Hpn.
  assert (Hm1lo : 2 ^ 52 <= shr_m mrs1).
  { rewrite Hm1. apply Z.div_le_lower_bound; lia. }
  assert (Hm1hi : shr_m mrs1 < 2 ^ 53).
  { rewrite Hm1. apply Z.div_lt_upper_bound; lia. }
  set (m2 := round_nearest_even (shr_m mrs1) (loc_of_shr_record mrs1)).
  assert (Hm2 : m2 = Z.pos m / 2 ^ n \/
                (m2 = Z.pos m / 2 ^ n + 1 /\ (l <> loc_Exact \/ Z.pos m mod 2 ^ n <> 0))).
  { unfold m2. rewrite <- Hm1.
    destruct (round_nearest_even_cases (shr_m mrs1) (loc_of_shr_record mrs1))
      as [->|[-> Hl]]; [now left|].
    right; split; [reflexivity|].
    destruct l as [|c]; [|left; discriminate].
    destruct (Z.eq_dec (Z.pos m mod 2 ^ n) 0) as [E|E]; [|now right].
    exfalso. apply Hl. now apply Hex1. }
  assert (Hm2lo : 2 ^ 52 <= m2) by lia.
  assert (Hm2hi : m2 <= 2 ^ 53) by lia.
  unfold binary_round_aux. rewrite Hs1, Hshr. fold m2.
  destruct m2 as [|q|q] eqn:Eq; [lia| |lia].
  destruct (Z.eq_dec (Z.pos q) (2 ^ 53)) as [Etop|Ntop].
  - (* the mantissa was rounded up to 2^53 *)
    assert (q = 9007199254740992%positive) by (change (2 ^ 53) with 9007199254740992 in Etop; congruence).
    subst q. exists 4503599627370496%positive, (e + n + 1).
    split; [|split; [reflexivity|split; [lia|]]].
    + assert (Hs2 : shr_fexp prec emax (Z.pos 9007199254740992) (e + n) loc_Exact
                    = (Build_shr_record (Z.pos 4503599627370496) false false, e + n + 1)).
      { unfold shr_fexp. change (Zdigits2 (Z.pos 9007199254740992)) with 54.
        rewrite fexp_normal by lia.
        replace (54 + (e + n) - 53 - (e + n)) with 1 by lia. reflexivity. }
      rewrite Hs2. simpl. destruct (e + n + 1 <=? emax - prec) eqn:Hle; [reflexivity|].
      apply Z.leb_gt in Hle. unfold emax, prec in Hle. lia.
    + replace (e + n + 1 - (e + n)) with 1 by lia.
      change (Z.pos 4503599627370496 * 2 ^ 1) with (Z.pos 9007199254740992).
      exact Hm2.
  - assert (Hdq : Z.pos (digits2_pos q) = 53).
    { apply digits2_pos_unique. change (53 - 1) with 52. lia. }
    exists q, (e + n). split; [|split; [exact Hdq|split; [lia|]]].
    + rewrite shr_fexp_53 by (exact Hdq || lia). simpl.
      destruct (e + n <=? emax - prec) eqn:Hle; [reflexivity|].
      apply Z.leb_gt in Hle. unfold emax, prec in Hle. lia.
    + replace (e + n - (e + n)) with 0 by lia. rewrite Z.mul_1_r. exact Hm2.
Qed.

Lemma binary_round_aux_exact (m : positive) (e : Z) :
  Z.pos (digits2_pos m) = 53 -> -1074 <= e <= 971 ->
  bra false (Z.pos m) e loc_Exact = S754_finite false m e.
Proof.
  intros Hd He. unfold binary_round_aux.
  rewrite shr_fexp_53 by (exact Hd || lia). simpl.
  rewrite shr_fexp_53 by (exact Hd || lia). simpl.
  destruct (e <=? emax - prec) eqn:Hle; [reflexivity|].
  apply Z.leb_gt in Hle. unfold emax, prec in Hle. lia.
Qed.

Lemma iter_xO_pow2 (p k : positive) : Z.pos (Pos.iter xO p k) = Z.pos p * 2 ^ Z.pos k.
Proof.
  induction k as [|k IH] using Pos.peano_ind.
  - simpl. lia.
  - rewrite Pos.iter_succ, Pos2Z.inj_succ, Z.pow_succ_r by lia.
    change (Z.pos (Pos.iter xO p k)~0) with (2 * Z.pos (Pos.iter xO p k)).
    rewrite IH. lia.
Qed.

(** a positive integer below 2^53 is a Number: 53 bits of mantissa that
    stand for it exactly *)
Lemma ofZ_small (x : Z) :
  0 < x < 2 ^ 53 ->
  exists m e,
    ofZ x = S754_finite false m e /\
    Z.pos (digits2_pos m) = 53 /\ -52 <= e <= 0 /\ Z.pos m = x * 2 ^ (- e).
Proof.
  intros [Hlo Hhi]. destruct x as [|p|p]; [lia| |lia].
  pose proof (digits2_pos_bounds p) as [Blo Bhi].
  set (d := Z.pos (digits2_pos p)) in *.
  assert (Hd1 : 1 <= d) by (unfold d; lia).
  assert (Hd53 : d <= 53).
  { destruct (Z.le_gt_cases d 53) as [?|Hgt]; [assumption|].
    assert (2 ^ 53 <= 2 ^ (d - 1)) by (apply Z.pow_le_mono_r; lia). lia. }
  unfold ofZ, binary_normalize, binary_round. fold d.
  replace (d + 0) with d by lia. rewrite fexp_normal by lia.
  unfold shl_align. replace (d - 53 - 0) with (d - 53) by lia.
  destruct (d - 53) as [|k|k] eqn:Ek; [| lia |].
  - exists p, 0. rewrite binary_round_aux_exact by (fold d; lia).
    repeat split; try lia.
  - assert (Hk : Z.pos k = 53 - d) by lia.
    assert (Hdm : Z.pos (digits2_pos (Pos.iter xO p k)) = 53).
    { apply digits2_pos_unique. rewrite iter_xO_pow2, Hk.
      assert (E1 : 2 ^ (53 - 1) = 2 ^ (d - 1) * 2 ^ (53 - d))
        by (rewrite <- pow2_split by lia; f_equal; lia).
      assert (E2 : 2 ^ 53 = 2 ^ d * 2 ^ (53 - d))
        by (rewrite <- pow2_split by lia; f_equal; lia).
      assert (0 < 2 ^ (53 - d)) by (apply pow2_pos; lia).
      split.
      - rewrite E1. apply Z.mul_le_mono_nonneg_r; lia.
      - rewrite E2. apply Z.mul_lt_mono_pos_r; lia. }
    exists (Pos.iter xO p k), (Z.neg k).
    rewrite binary_round_aux_exact by (exact Hdm || lia).
    repeat split; try lia. rewrite iter_xO_pow2. reflexivity.
Qed.

Lemma new_location_exact (nb_steps : Z) : new_location nb_steps 0 = loc_Exact.
Proof. unfold new_location. now destruct (Z.even nb_steps). Qed.

Lemma mantissa_53_bounds (m : positive) :
  Z.pos (digits2_pos m) = 53 -> 2 ^ 52 <= Z.pos m < 2 ^ 53.
Proof. intros H. pose proof (digits2_pos_bounds m) as B. now rewrite H in B. Qed.

(** the quotient of two Numbers with 53 bits of mantissa, the first one
    at most the second: a Number with 53 bits that is at most 1 *)
Lemma div_at_most_one (ma mb : positive) (ea eb : Z) :
  Z.pos (digits2_pos ma) = 53 -> Z.pos (digits2_pos mb) = 53 ->
  -52 <= ea <= 0 -> -52 <= eb <= 0 ->
  Z.pos ma * 2 ^ (ea + 52) <= Z.pos mb * 2 ^ (eb + 52) ->
  exists m e,
    div (S754_finite false ma ea) (S754_finite false mb eb) = S754_finite false m e /\
    Z.pos (digits2_pos m) = 53 /\ -106 <= e <= -52 /\ Z.pos m <= 2 ^ (- e).
Proof.
  intros Hda Hdb Hea Heb Hle.
  pose proof (mantissa_53_bounds ma Hda) as [Xlo Xhi].
  pose proof (mantissa_53_bounds mb Hdb) as [Ylo Yhi].
  (* the exponents are ordered like the values *)
  assert (Heab : ea <= eb).
  { destruct (Z.le_gt_cases ea eb) as [?|Hgt]; [assumption|exfalso].
    assert (2 ^ (eb + 53) <= 2 ^ (ea + 52)) by (apply Z.pow_le_mono_r; lia).
    assert (E : 2 ^ (eb + 53) = 2 * 2 ^ (eb + 52)).
    { replace (eb + 53) with (Z.succ (eb + 52)) by lia. apply Z.pow_succ_r; lia. }
    assert (0 < 2 ^ (eb + 52)) by (apply pow2_pos; lia).
    change (2 ^ 52) with 4503599627370496 in *.
    change (2 ^ 53) with 9007199254740992 in *. nia. }
  set (dl := eb - ea).
  assert (Hmab : Z.pos ma <= Z.pos mb * 2 ^ dl).
  { assert (E : 2 ^ (eb + 52) = 2 ^ dl * 2 ^ (ea + 52)).
    { rewrite <- pow2_split by (unfold dl; lia). f_equal. unfold dl; lia. }
    rewrite E in Hle.
    assert (0 < 2 ^ (ea + 52)) by (apply pow2_pos; lia).
    apply (Z.mul_le_mono_pos_r _ _ (2 ^ (ea + 52))); [assumption|]. lia. }
  assert (Hdlpos : 0 < 2 ^ dl) by (apply pow2_pos; unfold dl; lia).
  (* the core of the division *)
  pose proof (Z_div_mod (Z.pos ma * 2 ^ 53) (Z.pos mb) ltac:(lia)) as Hqr.
  destruct (Z.div_eucl (Z.pos ma * 2 ^ 53) (Z.pos mb)) as [q r] eqn:Eqr.
  destruct Hqr as [Hq Hr].
  assert (Hcore : SFdiv_core_binary prec emax (Z.pos ma) ea (Z.pos mb) eb
                  = (q, ea - eb - 53, new_location (Z.pos mb) r)).
  { unfold SFdiv_core_binary. simpl Zdigits2. rewrite Hda, Hdb.
    replace (53 + ea - (53 + eb)) with (ea - eb) by lia.
    rewrite fexp_normal by lia. rewrite Z.min_l by lia.
    replace (ea - eb - (ea - eb - 53)) with 53 by lia.
    cbv iota. rewrite Z.shiftl_mul_pow2 by lia. now rewrite Eqr. }
  unfold div, SFdiv. rewrite Hcore. cbv iota. simpl xorb.
  (* the quotient has 53 or 54 bits *)
  assert (Hqlo : 2 ^ 52 <= q).
  { change (2 ^ 52) with 4503599627370496 in *.
    change (2 ^ 53) with 9007199254740992 in *. nia. }
  assert (Hqhi : q < 2 ^ 54).
  { change (2 ^ 52) with 4503599627370496 in *.
    change (2 ^ 53) with 9007199254740992 in *.
    change (2 ^ 54) with 18014398509481984. nia. }
  assert (Hqtop : q <= 2 ^ (53 + dl)).
  { rewrite pow2_split by (unfold dl; lia).
    change (2 ^ 53) with 9007199254740992 in *. nia. }
  destruct q as [|qp|qp]; [change (2 ^ 52) with 4503599627370496 in Hqlo; lia| |lia].
  pose proof (digits2_pos_bounds qp) as [Qlo Qhi].
  set (n := Z.pos (digits2_pos qp) - 53).
  assert (Hn : 0 <= n <= 1).
  { unfold n. split.
    - destruct (Z.le_gt_cases 53 (Z.pos (digits2_pos qp))) as [?|Hlt]; [lia|].
      assert (2 ^ Z.pos (digits2_pos qp) <= 2 ^ 52) by (apply Z.pow_le_mono_r; lia). lia.
    - destruct (Z.le_gt_cases (Z.pos (digits2_pos qp)) 54) as [?|Hgt]; [lia|].
      assert (2 ^ 54 <= 2 ^ (Z.pos (digits2_pos qp) - 1)) by (apply Z.pow_le_mono_r; lia).
      lia. }
  destruct (binary_round_aux_spec qp (ea - eb - 53) (new_location (Z.pos mb) r) n)
    as (m & e & Hbra & Hdm & He & Hval); [lia | unfold n; lia | lia | lia |].
  exists m, e. split; [exact Hbra|]. split; [exact Hdm|].
  pose proof (mantissa_53_bounds m Hdm) as [Mlo Mhi].
  (* the rounded mantissa, on the grid of the shifted quotient *)
  set (E := 53 + dl - n).
  assert (HE : 52 <= E) by (unfold E, dl; lia).
  assert (Hk : Z.pos m * 2 ^ (e + E) <= 2 ^ E).
  { replace (e + E) with (e - (ea - eb - 53 + n)) by (unfold E, dl; lia).
    assert (Hq2 : Z.pos qp <= 2 ^ n * 2 ^ E).
    { rewrite <- pow2_split by lia. replace (n + E) with (53 + dl) by (unfold E; lia).
      exact Hqtop. }
    assert (Hpn : 0 < 2 ^ n) by (apply pow2_pos; lia).
    destruct Hval as [->|[-> Hinexact]].
    - apply Z.div_le_upper_bound; [exact Hpn | exact Hq2].
    - assert (Z.pos qp / 2 ^ n < 2 ^ E); [|lia].
      apply Z.div_lt_upper_bound; [exact Hpn|].
      destruct (Z.eq_dec (Z.pos qp) (2 ^ n * 2 ^ E)) as [Etop|Ntop]; [exfalso|lia].
      assert (Etop' : Z.pos qp = 2 ^ (53 + dl)).
      { rewrite Etop, <- pow2_split by lia. f_equal. unfold E; lia. }
      assert (r = 0).
      { rewrite Etop', pow2_split in Hq by (unfold dl; lia).
        change (2 ^ 53) with 9007199254740992 in *. nia. }
      subst r. destruct Hinexact as [Hl|Hmod].
      + apply Hl, new_location_exact.
      + apply Hmod. rewrite Etop, Z.mul_comm. apply Z.mod_mul. lia. }
  assert (HeE : 0 <= e + E <= 1) by (unfold E, dl; lia).
  assert (He52 : e <= -52).
  { destruct (Z.eq_dec (e + E) 0) as [E0|E0]; [lia|].
    assert (E1 : e + E = 1) by lia. rewrite E1 in Hk. change (2 ^ 1) with 2 in Hk.
    destruct (Z.le_gt_cases 53 E) as [?|Hlt]; [lia|].
    assert (E = 52) by lia. subst E. rewrite H in Hk. lia. }
  split; [unfold dl, E in *; lia|].
  destruct (Z.eq_dec (e + E) 0) as [E0|E0].
  - replace (- e) with E by lia. rewrite E0 in Hk. change (2 ^ 0) with 1 in Hk. lia.
  - assert (E1 : e + E = 1) by lia. rewrite E1 in Hk. change (2 ^ 1) with 2 in Hk.
    replace E with (Z.succ (- e)) in Hk by lia.
    rewrite Z.pow_succ_r in Hk by lia. lia.
Qed.

Lemma ofZ_100 : ofZ 100 = S754_finite false 7036874417766400 (-46).
Proof. reflexivity. Qed.

(** a Number with 53 bits that is at most 1, times 100: a Number with 53
    bits that is at most 100 *)
Lemma mul_100_at_most_100 (m : positive) (e : Z) :
  Z.pos (digits2_pos m) = 53 -> -106 <= e <= -52 -> Z.pos m <= 2 ^ (- e) ->
  exists m' e',
    mul (S754_finite false m e) (ofZ 100) = S754_finite false m' e' /\
    Z.pos (digits2_pos m') = 53 /\ e' < 0 /\ Z.pos m' <= 100 * 2 ^ (- e').
Proof.
  intros Hdm He Hle. rewrite ofZ_100. unfold mul, SFmul. simpl xorb.
  pose proof (mantissa_53_bounds m Hdm) as [Mlo Mhi].
  set (c := 7036874417766400%positive).
  assert (Hc : Z.pos c = 100 * 2 ^ 46) by reflexivity.
  change (Z.pos (m * c)) with (Z.pos (m * c)%positive).
  set (P := (m * c)%positive).
  assert (HP : Z.pos P = Z.pos m * Z.pos c) by (unfold P; apply Pos2Z.inj_mul).
  pose proof (digits2_pos_bounds P) as [Plo Phi].
  set (n := Z.pos (digits2_pos P) - 53).
  assert (Hn : 52 <= n <= 53).
  { unfold n. split.
    - destruct (Z.le_gt_cases 105 (Z.pos (digits2_pos P))) as [?|Hlt]; [lia|].
      assert (2 ^ Z.pos (digits2_pos P) <= 2 ^ 104) by (apply Z.pow_le_mono_r; lia).
      change (2 ^ 52) with 4503599627370496 in *.
      change (2 ^ 104) with 20282409603651670423947251286016 in *.
      change (Z.pos c) with 7036874417766400 in *. nia.
    - destruct (Z.le_gt_cases (Z.pos (digits2_pos P)) 106) as [?|Hgt]; [lia|].
      assert (2 ^ 106 <= 2 ^ (Z.pos (digits2_pos P) - 1)) by (apply Z.pow_le_mono_r; lia).
      change (2 ^ 53) with 9007199254740992 in *.
      change (2 ^ 106) with 81129638414606681695789005144064 in *.
      change (Z.pos c) with 7036874417766400 in *. nia. }
  destruct (binary_round_aux_spec P (e + -46) loc_Exact n)
    as (m' & e' & Hbra & Hdm' & He' & Hval); [lia | unfold n; lia | lia | lia |].
  exists m', e'. split; [exact Hbra|]. split; [exact Hdm'|].
  pose proof (mantissa_53_bounds m' Hdm') as [Mlo' Mhi'].
  set (E := 46 - e - n).
  assert (HE : 45 <= E) by (unfold E; lia).
  assert (Hpn : 0 < 2 ^ n) by (apply pow2_pos; lia).
  assert (HPtop : Z.pos P <= 2 ^ n * (100 * 2 ^ E)).
  { assert (Ep : 2 ^ n * (100 * 2 ^ E) = 2 ^ (- e) * (100 * 2 ^ 46)).
    { replace (- e) with (n + E - 46) by (unfold E; lia).
      replace (n + E - 46) with ((n - 46) + E) by lia.
      replace n with ((n - 46) + 46) at 1 by lia.
      rewrite !pow2_split by lia. lia. }
    rewrite Ep, HP, Hc. apply Z.mul_le_mono_nonneg_r; [lia | exact Hle]. }
  assert (Hk : Z.pos m' * 2 ^ (e' + E) <= 100 * 2 ^ E).
  { replace (e' + E) with (e' - (e + -46 + n)) by (unfold E; lia).
    destruct Hval as [->|[-> Hinexact]].
    - apply Z.div_le_upper_bound; [exact Hpn | exact HPtop].
    - assert (Z.pos P / 2 ^ n < 100 * 2 ^ E); [|lia].
      apply Z.div_lt_upper_bound; [exact Hpn|].
      destruct (Z.eq_dec (Z.pos P) (2 ^ n * (100 * 2 ^ E))) as [Etop|Ntop]; [exfalso|lia].
      destruct Hinexact as [Hl|Hmod]; [now apply Hl|].
      apply Hmod. rewrite Etop, Z.mul_comm. apply Z.mod_mul. lia. }
  assert (HeE : 0 <= e' + E <= 1) by (unfold E; lia).
  assert (Hbound : Z.pos m' <= 100 * 2 ^ (- e')).
  { destruct (Z.eq_dec (e' + E) 0) as [E0|E0].
    - replace (- e') with E by lia. rewrite E0 in Hk. change (2 ^ 0) with 1 in Hk. lia.
    - assert (E1 : e' + E = 1) by lia. rewrite E1 in Hk. change (2 ^ 1) with 2 in Hk.
      replace E with (Z.succ (- e')) in Hk by lia.
      rewrite Z.pow_succ_r in Hk by lia. lia. }
  split; [|exact Hbound].
  destruct (Z.lt_ge_cases e' 0) as [?|Hge]; [assumption|exfalso].
  assert (e' = 0) by (unfold E in *; lia). subst e'.
  change (2 ^ (- 0)) with 1 in Hbound. change (2 ^ 52) with 4503599627370496 in Mlo'. lia.
Qed.

(** [Math.round] of a Number with 53 bits that is at most 100 *)
Lemma Math_round_at_most_100 (m : positive) (e : Z) :
  e < 0 -> Z.pos m <= 100 * 2 ^ (- e) ->
  exists z, 0 <= z <= 100 /\ Math_round (S754_finite false m e) = ofZ z.
Proof.
  intros He Hle. destruct e as [|k|k]; [lia | lia |].
  change (- Z.neg k) with (Z.pos k) in Hle.
  exists ((Z.pos m + 2 ^ (Z.pos k - 1)) / 2 ^ Z.pos k).
  assert (Hpk : 0 < 2 ^ Z.pos k) by (apply pow2_pos; lia).
  assert (Hhalf : 0 < 2 ^ (Z.pos k - 1) < 2 ^ Z.pos k).
  { split; [apply pow2_pos; lia | apply Z.pow_lt_mono_r; lia]. }
  assert (Hz : 0 <= (Z.pos m + 2 ^ (Z.pos k - 1)) / 2 ^ Z.pos k <= 100).
  { split; [apply Z.div_pos; lia|].
    assert ((Z.pos m + 2 ^ (Z.pos k - 1)) / 2 ^ Z.pos k < 101); [|lia].
    apply Z.div_lt_upper_bound; lia. }
  split; [exact Hz|].
  unfold Math_round, roundHalfUp.
  destruct ((Z.pos m + 2 ^ (Z.pos k - 1)) / 2 ^ Z.pos k) as [|z|z]; [reflexivity|reflexivity|lia].
Qed.

(** the rate of [stats] for counts that a Number holds exactly: an
    integer between 0 and 100 *)
Lemma computedRate_between_0_and_100 (found processed : nat) :
  (0 < processed)%nat -> (found <= processed)%nat -> Z.of_nat processed < 2 ^ 53 ->
  exists z, 0 <= z <= 100 /\ computedRate found processed = ofZ z.
Proof.
  intros Hp Hf Hsize. unfold computedRate, ofNat.
  destruct (ofZ_small (Z.of_nat processed)) as (mb & eb & -> & Hdb & Heb & Hy); [lia|].
  destruct found as [|f].
  - exists 0. split; [lia|]. reflexivity.
  - destruct (ofZ_small (Z.of_nat (S f))) as (ma & ea & -> & Hda & Hea & Hx); [lia|].
    destruct (div_at_most_one ma mb ea eb) as (m & e & -> & Hdm & He & Hle);
      try assumption.
    { rewrite Hx, Hy, <- !Z.mul_assoc, <- !pow2_split by lia.
      replace (- ea + (ea + 52)) with 52 by lia.
      replace (- eb + (eb + 52)) with 52 by lia.
      apply Z.mul_le_mono_nonneg_r; lia. }
    destruct (mul_100_at_most_100 m e) as (m' & e' & -> & Hdm' & He' & Hle');
      try assumption.
    now apply Math_round_at_most_100.
Qed.

End Binary64.

(** ** Duplicates and the history *)

Section KnownUrls.
Import Types Js App FileUtils.

(** [addUrls] as the current render created it, which is how the text of
    the box reaches it: a URL whose normalized form is in the list is
    counted as a duplicate, one that is not in the list and is found in
    the history is counted as known, and neither creates a record; the
    records of a batch are new to the list and to the history and differ
    from one another, so that the normalized URLs of the list stay
    distinct. *)
Lemma addUrls_of_current_render_skips_known_urls
    (s : State) (urls : list string) (u : string) :
  let acc := addUrlsLoop (websites s) (history s) (uuid s) urls in
  let acc' := addUrlsLoop (websites s) (history s) (uuid s) (urls ++ [u]) in
  (normalizeUrl u ∈ normalizedOf (websites s) ->
   newEntries acc' = newEntries acc /\
   skippedDuplicateCount acc' = S (skippedDuplicateCount acc) /\
   skippedHistoryCount acc' = skippedHistoryCount acc) /\
  (normalizeUrl u ∉ normalizedOf (websites s) ->
   historyHas (history s) (normalizeUrl u) = true ->
   newEntries acc' = newEntries acc /\
   skippedDuplicateCount acc' = skippedDuplicateCount acc /\
   skippedHistoryCount acc' = S (skippedHistoryCount acc)) /\
  websites (addUrls (currentRender s) urls s) = websites s ++ newEntries acc /\
  Forall (fun w => (normalizeUrl (url w) ∉ normalizedOf (websites s)) /\
                   historyHas (history s) (normalizeUrl (url w)) = false)
         (newEntries acc) /\
  NoDup (normalizedOf (newEntries acc)) /\
  (skippedDuplicateCount acc + skippedHistoryCount acc + length (newEntries acc)
   = length urls)%nat /\
  (NoDup (normalizedOf (websites s)) ->
   NoDup (normalizedOf (websites (addUrls (currentRender s) urls s)))).
Proof.
  intros acc acc'.
  destruct (addUrl_cases (websites s) (history s) (uuid s) urls u) as [Hdup Hhist].
  pose proof (addUrlsLoop_inv (websites s) (history s) (uuid s) urls) as A.
  fold acc in A. destruct A as [_ _ _ Hnl Hnh _ _ Hdist Htot].
  split; [exact Hdup|]. split; [exact Hhist|].
  split; [apply websites_addUrls|].
  split.
  { rewrite Forall_forall in Hnl, Hnh.
    apply Forall_forall. intros w Hw. split; auto. }
  split; [exact Hdist|]. split; [exact Htot|].
  apply addUrls_keeps_normalized_distinct.
Qed.

(** C3 at two overlapping file reads: both files are chosen while the
    list is empty, the first read adds a.com, and the second hands
    https://a.com/ to the [addUrls] of the render in which it was chosen,
    which compares it with the empty list of that render.  The URL gets a
    record of its own, no skip is counted, and the list holds two records
    with the normalized URL a.com. *)
Theorem addUrls_of_overlapping_reads_lists_a_url_twice :
  parseFile (oneCell "a.com") = Some ["a.com"] /\
  parseFile (oneCell "https://a.com/") = Some ["https://a.com/"] /\
  map url (websites (steps (initial ∅)
                           [FileChosen; FileChosen; FileRead 0 (oneCell "a.com")]))
    = ["a.com"] /\
  map url (websites overlappingReads) = ["a.com"; "https://a.com/"] /\
  normalizedOf (websites overlappingReads) = ["a.com"; "a.com"] /\
  notification overlappingReads = None /\
  ~ NoDup (normalizedOf (websites overlappingReads)).
Proof.
  assert (E : normalizedOf (websites overlappingReads) = ["a.com"; "a.com"])
    by (vm_compute; reflexivity).
  repeat split; try (vm_compute; reflexivity).
  rewrite E. intros H. apply NoDup_cons in H as [H _]. apply H. left.
Qed.

End KnownUrls.

(** ** Addresses and the statistics *)

Section FoundAndProcessed.
Import Types Js App.

Lemma countIf_le {A : Type} (p q : A -> bool) (l : list A) :
  Forall (fun x => p x = true -> q x = true) l -> (countIf p l <= countIf q l)%nat.
Proof.
  induction 1 as [|x l Hx _ IH]; simpl; [lia|].
  destruct (p x); [rewrite Hx by reflexivity|destruct (q x)]; lia.
Qed.

(** C10: in a reachable state a record with an address is COMPLETED (the
    FAILED update and the rollback keep the addresses of the record they
    are given); so [found] is at most [processed], and the rate is an
    integer between 0 and 100 as long as the length of the list is a
    number that binary64 holds exactly, as the length of an array is. *)
Theorem emails_only_on_completed_records (s : State) :
  reachable s ->
  Forall (fun w => emails w <> [] -> status w = COMPLETED) (websites s) /\
  (forall note w, emails (withError FAILED note w) = emails w) /\
  (forall w, emails (withStatus IDLE w) = emails w) /\
  (found (stats (websites s)) <= processed (stats (websites s)))%nat /\
  ((Z.of_nat (length (websites s)) < 2 ^ 53)%Z ->
   exists z : Z, (0 <= z <= 100)%Z /\
                 successRate (stats (websites s)) = JsNumber.ofZ z).
Proof.
  intros Hr. destruct (reachable_Inv s Hr) as [[_ _ _ H4] _].
  assert (Hle : (found (stats (websites s)) <= processed (stats (websites s)))%nat).
  { simpl. rewrite !length_filter_countIf. apply countIf_le.
    eapply Forall_impl; [exact H4|]. intros w Hw; simpl in Hw.
    unfold hasEmails, isProcessed. destruct (emails w) as [|a l]; [discriminate|].
    intros _. rewrite Hw by discriminate. reflexivity. }
  split; [exact H4|]. split; [reflexivity|]. split; [reflexivity|].
  split; [exact Hle|]. intros Hsize.
  destruct (processed (stats (websites s))) as [|p] eqn:Ep.
  - exists 0%Z. split; [lia|]. simpl in *. now rewrite Ep.
  - assert (Hrate : successRate (stats (websites s))
                    = computedRate (found (stats (websites s))) (S p)).
    { simpl in *. rewrite Ep. reflexivity. }
    rewrite Hrate. apply computedRate_between_0_and_100; [lia | lia |].
    assert ((S p <= length (websites s))%nat); [|lia].
    rewrite <- Ep. simpl. rewrite length_filter_countIf. apply countIf_le_length.
Qed.

Lemma emails_only_on_completed_records_witness :
  found (stats (websites savedExample)) = 1%nat /\
  processed (stats (websites savedExample)) = 2%nat /\
  successRate (stats (websites savedExample)) = JsNumber.ofZ 50 /\
  exists z : Z, (0 <= z <= 100)%Z /\
                successRate (stats (websites savedExample)) = JsNumber.ofZ z.
Proof.
  split; [reflexivity|]. split; [reflexivity|]. split; [reflexivity|].
  assert (Hr : reachable savedExample) by apply steps_reachable, reachable_initial.
  destruct (emails_only_on_completed_records savedExample Hr) as (_ & _ & _ & _ & H).
  apply H. vm_compute. reflexivity.
Defined.

End FoundAndProcessed.

(** * Further properties *)

(** ** The flag, the status PROCESSING and the notes of failure *)

Section RunInvariant.
Import Types Js App.

Lemma failureNote_not_empty error : failureNote error <> EmptyString.
Proof.
  unfold failureNote. destruct (err_message error) as [m|]; [|discriminate].
  destruct (String.eqb_spec m EmptyString); [discriminate | assumption].
Qed.

Lemma isProcessing_addUrls rendered urls s :
  isProcessing (addUrls rendered urls s) = isProcessing s.
Proof. unfold addUrls. now destruct (0 <? _)%nat. Qed.

Lemma queue_addUrls rendered urls s : queue (addUrls rendered urls s) = queue s.
Proof. unfold addUrls. now destruct (0 <? _)%nat. Qed.

(** the head of the loop keeps the invariant, when no record is
    PROCESSING and the items of the snapshot are IDLE in the list *)
Lemma enterLoop_runInv audience pendingItems s :
  isProcessing s = true ->
  Forall (fun w => status w <> PROCESSING) (websites s) ->
  Forall (fun w => (status w = FAILED <-> error w <> None) /\ error w <> Some EmptyString)
         (websites s) ->
  Forall (fun w => id w ∈ map id pendingItems -> status w = IDLE) (websites s) ->
  Forall (fun w => forall p, p ∈ pendingItems -> id w = id p -> url w = url p)
         (websites s) ->
  runInv (enterLoop audience pendingItems s).
Proof.
  intros Hp Hnone Hnote Hidle Hurl.
  rewrite Forall_forall in Hnone, Hnote, Hidle, Hurl.
  destruct pendingItems as [|item rest]; simpl.
  - constructor; simpl.
    + split; [discriminate | intros H; now destruct H].
    + apply Forall_forall. intros w Hw Hs. now destruct (Hnone w Hw).
    + now apply Forall_forall.
    + apply Forall_forall. intros w Hw p Hin. inversion Hin.
  - constructor; simpl.
    + split; [discriminate | intros _; exact Hp].
    + apply Forall_mapItem_cases; intros w Hw E.
      * intros _. exists item, rest, audience. split; [reflexivity | exact E].
      * intros Hs. now destruct (Hnone w Hw).
    + apply Forall_mapItem_cases; intros w Hw E; [|now apply Hnote].
      assert (Hs : status w = IDLE) by (apply Hidle; [exact Hw | rewrite E; left]).
      destruct (Hnote w Hw) as [Hiff Hne]. simpl. split; [|exact Hne].
      split; [discriminate|]. intros He. apply Hiff in He. congruence.
    + apply Forall_mapItem_cases; intros w Hw E; simpl; now apply Hurl.
Qed.

Lemma no_processing_at_rest s :
  runInv s -> (forall item rest audience, queue s <> Some (AwaitFinder item rest audience)) ->
  Forall (fun w => status w <> PROCESSING) (websites s).
Proof.
  intros [_ H _ _] Hq. eapply Forall_impl; [exact H|]. simpl.
  intros w Hw Hs. destruct (Hw Hs) as (item & rest & aud & E & _). now apply (Hq item rest aud).
Qed.

Lemma processQueue_runInv s : Inv s -> runInv s -> runInv (processQueue s).
Proof.
  intros [HR HQ] HI. unfold processQueue.
  destruct (isProcessing s) eqn:Hp; [exact HI|].
  assert (Hq : queue s = None).
  { destruct (queue s) eqn:E; [|reflexivity].
    destruct HI as [Hf _ _ _]. rewrite E in Hf.
    assert (false = true) by (rewrite <- Hp; apply Hf; discriminate). discriminate. }
  apply enterLoop_runInv; simpl.
  - reflexivity.
  - apply no_processing_at_rest; [exact HI|]. intros item rest aud. now rewrite Hq.
  - now destruct HI.
  - destruct HR as [H1 _ _ _]. apply Forall_forall. intros w Hw Hin.
    apply list_elem_of_fmap in Hin as (p & E & Hin).
    apply list_elem_of_In, filter_In in Hin as [Hin Hidle].
    apply list_elem_of_In in Hin.
    rewrite (same_id_same_record (websites s) w p H1 Hw Hin E).
    unfold isIdle in Hidle. now destruct (status p).
  - destruct HR as [H1 _ _ _]. apply Forall_forall. intros w Hw p Hin E.
    apply list_elem_of_In, filter_In in Hin as [Hin _].
    apply list_elem_of_In in Hin.
    now rewrite (same_id_same_record (websites s) w p H1 Hw Hin E).
Qed.

Lemma afterFinder_runInv item rest audience outcome s :
  Inv s -> runInv s -> queue s = Some (AwaitFinder item rest audience) ->
  runInv (afterFinder item rest audience outcome s).
Proof.
  intros [HR HQ] [Hflag Hproc Hnote Hurl] Eq. unfold queueInv in HQ. rewrite Eq in HQ.
  destruct HQ as (Hp & Hni & (Hi & Hfl) & Hwait).
  unfold queueItems in Hurl. rewrite Eq in Hurl.
  rewrite Forall_forall in Hfl, Hproc, Hnote, Hurl.
  assert (Hrest : forall w, w ∈ websites s ->
                            forall p, p ∈ rest -> id w = id p -> url w = url p).
  { intros w Hw p Hin. apply Hurl; [exact Hw | now right]. }
  assert (Hother : forall w, w ∈ websites s -> id w <> id item -> status w <> PROCESSING).
  { intros w Hw Hne Hs. destruct (Hproc w Hw Hs) as (item' & rest' & aud' & E & Ei).
    rewrite Eq in E. injection E as <- _ _. contradiction. }
  assert (Herr : forall w, w ∈ websites s -> id w = id item -> error w = None).
  { intros w Hw E. destruct (Hfl w Hw E) as [Hs _].
    destruct (Hnote w Hw) as [Hiff _]. destruct (error w) eqn:Ee; [|reflexivity].
    assert (status w = FAILED) by (apply Hiff; discriminate). congruence. }
  unfold afterFinder. destruct outcome as [found|error]; [|destruct (isRateLimit error)].
  - constructor; simpl.
    + split; [discriminate | intros _; exact Hp].
    + apply Forall_mapItem_cases; intros w Hw E; simpl; [discriminate|].
      intros Hs. now destruct (Hother w Hw E).
    + apply Forall_mapItem_cases; intros w Hw E; simpl; [|now apply Hnote].
      rewrite (Herr w Hw E). split; [|discriminate].
      split; [discriminate | intros H; now destruct H].
    + apply Forall_mapItem_cases; intros w Hw E; simpl; now apply Hrest.
  - constructor; simpl.
    + split; [discriminate | intros H; now destruct H].
    + apply Forall_mapItem_cases; intros w Hw E; simpl; [discriminate|].
      intros Hs. now destruct (Hother w Hw E).
    + apply Forall_mapItem_cases; intros w Hw E; simpl; [|now apply Hnote].
      rewrite (Herr w Hw E). split; [|discriminate].
      split; [discriminate | intros H; now destruct H].
    + apply Forall_mapItem_cases; intros w Hw E; simpl; intros p Hin; inversion Hin.
  - constructor; simpl.
    + split; [discriminate | intros _; exact Hp].
    + apply Forall_mapItem_cases; intros w Hw E; simpl; [discriminate|].
      intros Hs. now destruct (Hother w Hw E).
    + apply Forall_mapItem_cases; intros w Hw E; simpl; [|now apply Hnote].
      split; [split; [discriminate | reflexivity]|].
      intros H. injection H as H. now apply failureNote_not_empty in H.
    + apply Forall_mapItem_cases; intros w Hw E; simpl; now apply Hrest.
Qed.

Lemma runInv_records s s' :
  runInv s -> isProcessing s' = isProcessing s -> queue s' = queue s ->
  (forall w, w ∈ websites s' ->
             w ∈ websites s \/
             (status w = IDLE /\ error w = None /\
              forall p, p ∈ queueItems s -> id w <> id p)) ->
  runInv s'.
Proof.
  intros [Hflag Hproc Hnote Hurl] Ep Eq Hw. rewrite Forall_forall in Hproc, Hnote, Hurl.
  constructor.
  - now rewrite Ep, Eq.
  - apply Forall_forall. intros w Hin Hs. rewrite Eq.
    destruct (Hw w Hin) as [Hold|[Hi _]]; [now apply Hproc | congruence].
  - apply Forall_forall. intros w Hin.
    destruct (Hw w Hin) as [Hold|(Hi & He & _)]; [now apply Hnote|].
    rewrite Hi, He. split; [|discriminate].
    split; [discriminate | intros H; now destruct H].
  - apply Forall_forall. intros w Hin p Hp E. unfold queueItems in Hp. rewrite Eq in Hp.
    destruct (Hw w Hin) as [Hold|(_ & _ & Hnew)]; [now apply Hurl|].
    now destruct (Hnew p Hp).
Qed.

Lemma queueItems_issued s : queueInv s -> Forall (fun p => (id p < uuid s)%nat) (queueItems s).
Proof.
  intros HQ. apply queueInv_tokens in HQ. unfold queueItems.
  destruct (queue s) as [[item rest aud|rest aud]|]; [| |constructor].
  - destruct HQ as (_ & H1 & _ & H2). now constructor.
  - now destruct HQ.
Qed.

Lemma processUrls_runInv rendered urls s :
  Inv s -> runInv s -> runInv (processUrls rendered urls s).
Proof.
  intros HI HR. destruct urls as [|u urls]; [exact HR|].
  set (batch := u :: urls). change (runInv (addUrls rendered batch s)).
  apply (runInv_records s); [exact HR | apply isProcessing_addUrls | apply queue_addUrls |].
  intros w Hw. rewrite websites_addUrls in Hw. apply elem_of_app in Hw as [Hw|Hw]; [now left|].
  right.
  pose proof (addUrlsLoop_inv (renderedWebsites rendered) (renderedHistory rendered)
                              (uuid s) batch) as A.
  destruct A as [_ Hfresh _ _ _ Hids _ _ _]. rewrite Forall_forall in Hfresh.
  destruct (Hfresh w Hw) as (H1 & _ & H3 & _). split; [exact H1|]. split; [exact H3|].
  intros p Hp E. destruct HI as [_ HQ].
  pose proof (queueItems_issued s HQ) as Hlt. rewrite Forall_forall in Hlt.
  specialize (Hlt p Hp).
  assert (Hi : id w ∈ map id (newEntries (addUrlsLoop (renderedWebsites rendered)
                                                      (renderedHistory rendered)
                                                      (uuid s) batch)))
    by now apply (list_elem_of_fmap_2 id).
  rewrite Hids in Hi. apply list_elem_of_In, in_seq in Hi. lia.
Qed.

Lemma setFileReads_runInv reads s : runInv s -> runInv (setFileReads reads s).
Proof.
  intros HR. apply (runInv_records s); [exact HR | reflexivity | reflexivity | now left].
Qed.

Lemma step_runInv s e : Inv s -> runInv s -> runInv (step s e).
Proof.
  intros HI HR. destruct e as [urls| |k file|i|confirmed|stored|a| | |outcome|]; simpl.
  - now apply processUrls_runInv.
  - now apply setFileReads_runInv.
  - destruct (fileReads s !! k) as [rendered|]; [|exact HR].
    destruct (FileUtils.parseFile file) as [urls|]; [|now apply setFileReads_runInv].
    apply processUrls_runInv; [now apply setFileReads_Inv | now apply setFileReads_runInv].
  - apply (runInv_records s); [exact HR | reflexivity | reflexivity |].
    intros w Hw. left. simpl in Hw.
    apply list_elem_of_In, filter_In in Hw as [Hw _]. now apply list_elem_of_In.
  - apply (runInv_records s); [exact HR | | |]; unfold clearList;
      destruct (websites s) as [|x l] eqn:E; try destruct confirmed; simpl;
      try reflexivity; intros w Hw; try (left; rewrite ?E in *; exact Hw); inversion Hw.
  - apply (runInv_records s); [exact HR | | |]; unfold saveAndClear;
      destruct (websites s) as [|x l] eqn:E; try destruct stored; simpl; try reflexivity;
      intros w Hw; try (left; rewrite ?E in *; exact Hw); inversion Hw.
  - apply (runInv_records s); [exact HR | reflexivity | reflexivity | now left].
  - apply (runInv_records s); [exact HR | reflexivity | reflexivity | now left].
  - now apply processQueue_runInv.
  - destruct (queue s) as [[item rest aud|rest aud]|] eqn:Eq; try exact HR.
    now apply afterFinder_runInv.
  - destruct (queue s) as [[item rest aud|rest aud]|] eqn:Eq; try exact HR.
    destruct HI as [HRec HQ]. unfold queueInv in HQ. rewrite Eq in HQ.
    destruct HQ as (Hp & _ & _ & Hidle).
    apply enterLoop_runInv; [exact Hp | | now destruct HR | exact Hidle |].
    + apply no_processing_at_rest; [exact HR|]. intros item rest' aud'. now rewrite Eq.
    + destruct HR as [_ _ _ Hurl]. unfold queueItems in Hurl. now rewrite Eq in Hurl.
Qed.

Lemma initial_runInv saved : runInv (initial saved).
Proof.
  constructor; simpl; [|constructor|constructor|constructor].
  split; [discriminate | intros H; now destruct H].
Qed.

Lemma reachable_runInv s : reachable s -> runInv s.
Proof.
  induction 1 as [saved|s e Hr IH]; [apply initial_runInv|].
  apply step_runInv; [now apply reachable_Inv | exact IH].
Qed.

End RunInvariant.

Section RunProperties.
Import Types Js App.

(** X1: in a reachable state the flag [isProcessing] is up exactly while
    a call of [processQueue] is suspended; no record is PROCESSING when
    the flag is down; and a PROCESSING record is the only one, it carries
    the token and the URL of the item whose call is in flight. *)
Theorem processing_only_while_call_in_flight (s : State) :
  reachable s ->
  (isProcessing s = true <-> queue s <> None) /\
  (isProcessing s = false -> Forall (fun w => status w <> PROCESSING) (websites s)) /\
  (forall w, w ∈ websites s -> status w = PROCESSING ->
     exists item rest audience,
       queue s = Some (AwaitFinder item rest audience) /\
       id w = id item /\ url w = url item /\
       forall w', w' ∈ websites s -> status w' = PROCESSING -> w' = w).
Proof.
  intros Hr. pose proof (reachable_runInv s Hr) as HI.
  destruct (reachable_Inv s Hr) as [[Hnd _ _ _] _].
  destruct HI as [Hflag Hproc Hnote Hurl].
  rewrite Forall_forall in Hproc, Hurl.
  split; [exact Hflag|]. split.
  - intros Hp. apply Forall_forall. intros w Hw Hs.
    destruct (Hproc w Hw Hs) as (item & rest & aud & E & _).
    assert (isProcessing s = true) by (apply Hflag; rewrite E; discriminate).
    congruence.
  - intros w Hw Hs. destruct (Hproc w Hw Hs) as (item & rest & aud & E & Ei).
    exists item, rest, aud. split; [exact E|]. split; [exact Ei|]. split.
    + apply Hurl; [exact Hw | | exact Ei]. unfold queueItems. rewrite E. left.
    + intros w' Hw' Hs'. destruct (Hproc w' Hw' Hs') as (item' & rest' & aud' & E' & Ei').
      rewrite E in E'. injection E' as <- _ _.
      apply (same_id_same_record (websites s)); auto. congruence.
Qed.

Lemma processing_only_while_call_in_flight_witness :
  (isProcessing thirdInFlight = true <-> queue thirdInFlight <> None) /\
  (isProcessing thirdInFlight = false ->
   Forall (fun w => status w <> PROCESSING) (websites thirdInFlight)) /\
  (forall w, w ∈ websites thirdInFlight -> status w = PROCESSING ->
     exists item rest audience,
       queue thirdInFlight = Some (AwaitFinder item rest audience) /\
       id w = id item /\ url w = url item /\
       forall w', w' ∈ websites thirdInFlight -> status w' = PROCESSING -> w' = w).
Proof.
  apply (processing_only_while_call_in_flight thirdInFlight).
  apply steps_reachable, reachable_initial.
Defined.

(** X2: in a reachable state a record is FAILED exactly when it carries
    a note, and the note is never the empty text. *)
Theorem failed_records_carry_a_note (s : State) :
  reachable s ->
  Forall (fun w => status w = FAILED <->
                   exists note, error w = Some note /\ note <> EmptyString)
         (websites s).
Proof.
  intros Hr. destruct (reachable_runInv s Hr) as [_ _ Hnote _].
  eapply Forall_impl; [exact Hnote|]. simpl. intros w [Hiff Hne]. split.
  - intros Hs. apply Hiff in Hs. destruct (error w) as [note|]; [|now destruct Hs].
    exists note. split; [reflexivity|]. intros ->. now apply Hne.
  - intros (note & E & _). apply Hiff. rewrite E. discriminate.
Qed.

Lemma failed_records_carry_a_note_witness :
  Forall (fun w => status w = FAILED <->
                   exists note, error w = Some note /\ note <> EmptyString)
         (websites savedExample).
Proof.
  apply (failed_records_carry_a_note savedExample).
  apply steps_reachable, reachable_initial.
Defined.

End RunProperties.

(** ** The table and the export *)

Section TableAndExport.
Import Types Js App ResultsTable ExcelExport AppView.
Local Arguments String.append !_ _ / : simpl nomatch.

(** the row of a record of a reachable state *)
Lemma renderRow_agrees_with_status (s : State) (w : WebsiteData) :
  reachable s -> w ∈ websites s ->
  (badgeText (rowBadge (renderRow w)) = "Pending" <-> status w = IDLE) /\
  rowError (renderRow w) = error w /\
  (is_Some (rowError (renderRow w)) <-> badgeText (rowBadge (renderRow w)) = " Failed") /\
  (forall found, rowEmails (renderRow w) = Addresses found ->
                 found = emails w /\ found <> [] /\
                 badgeText (rowBadge (renderRow w)) = " Done") /\
  (rowEmails (renderRow w) = NoEmailsFound <-> status w = COMPLETED /\ emails w = []).
Proof.
  intros Hr Hw.
  destruct (reachable_Inv s Hr) as [[_ _ Hpend Hem] _].
  destruct (reachable_runInv s Hr) as [_ _ Hnote _].
  rewrite Forall_forall in Hpend, Hem, Hnote.
  specialize (Hpend w Hw). specialize (Hem w Hw). destruct (Hnote w Hw) as [Hiff Hne].
  assert (Herr : rowError (renderRow w) = error w).
  { simpl. destruct (error w) as [note|]; [|reflexivity].
    destruct (String.eqb_spec note EmptyString) as [->|]; [now destruct Hne | reflexivity]. }
  split; [|split; [exact Herr|split; [|split]]].
  - simpl. destruct (status w); simpl; split; intros H; try discriminate; auto.
    now destruct Hpend.
  - rewrite Herr. split.
    + intros [note E]. assert (Hs : status w = FAILED) by (apply Hiff; rewrite E; discriminate).
      simpl. now rewrite Hs.
    + simpl. intros Hb. assert (Hs : status w = FAILED)
        by (destruct (status w); simpl in Hb; try discriminate; reflexivity).
      apply Hiff in Hs. destruct (error w); [eauto | now destruct Hs].
  - intros found. simpl. destruct (emails w) as [|e l] eqn:E; simpl.
    + destruct (status_eqb (status w) COMPLETED); discriminate.
    + intros H. injection H as <-. split; [reflexivity|]. split; [discriminate|].
      rewrite Hem by discriminate. reflexivity.
  - simpl. destruct (emails w) as [|e l] eqn:E; simpl.
    + destruct (status w); simpl; split; intros H; try discriminate; auto;
        destruct H; discriminate.
    + split; [discriminate | intros [_ H]; discriminate].
Qed.

(** X3: the table of a reachable state has one row for every record, in
    the order of the list, and no two rows have the same key; only the
    empty list gives the placeholder.  In the row of a record the badge
    reads Pending exactly for an IDLE record; the note is shown exactly
    on the rows with the badge Failed; addresses are shown only on rows
    with the badge Done; and the text that no address was found is shown
    exactly for a COMPLETED record without an address. *)
Theorem table_rows_agree_with_status (s : State) :
  reachable s ->
  match render (websites s) with
  | None => websites s = []
  | Some rows =>
      NoDup (map rowKey rows) /\
      forall i w, websites s !! i = Some w ->
        exists row,
          rows !! i = Some row /\ rowKey row = id w /\ rowUrl row = url w /\
          (badgeText (rowBadge row) = "Pending" <-> status w = IDLE) /\
          rowError row = error w /\
          (is_Some (rowError row) <-> badgeText (rowBadge row) = " Failed") /\
          (forall found, rowEmails row = Addresses found ->
                         found = emails w /\ found <> [] /\
                         badgeText (rowBadge row) = " Done") /\
          (rowEmails row = NoEmailsFound <-> status w = COMPLETED /\ emails w = [])
  end.
Proof.
  intros Hr. destruct (reachable_Inv s Hr) as [[Hnd _ _ _] _].
  unfold render. destruct (websites s) as [|x l] eqn:E; [reflexivity|].
  rewrite <- E in *. clear E x l. split.
  - rewrite map_map. exact Hnd.
  - intros i w Hi. exists (renderRow w). split.
    { change (map renderRow (websites s)) with (renderRow <$> websites s).
      now rewrite list_lookup_fmap, Hi. }
    split; [reflexivity|]. split; [reflexivity|].
    apply (renderRow_agrees_with_status s); [exact Hr|].
    eapply list_elem_of_lookup_2; exact Hi.
Qed.

Lemma table_rows_agree_with_status_witness :
  match render (websites savedExample) with
  | None => websites savedExample = []
  | Some rows =>
      NoDup (map rowKey rows) /\
      forall i w, websites savedExample !! i = Some w ->
        exists row,
          rows !! i = Some row /\ rowKey row = id w /\ rowUrl row = url w /\
          (badgeText (rowBadge row) = "Pending" <-> status w = IDLE) /\
          rowError row = error w /\
          (is_Some (rowError row) <-> badgeText (rowBadge row) = " Failed") /\
          (forall found, rowEmails row = Addresses found ->
                         found = emails w /\ found <> [] /\
                         badgeText (rowBadge row) = " Done") /\
          (rowEmails row = NoEmailsFound <-> status w = COMPLETED /\ emails w = [])
  end.
Proof.
  apply (table_rows_agree_with_status savedExample).
  apply steps_reachable, reachable_initial.
Defined.

Lemma startsWith_refl_app n t : JsString.startsWith n (n ++ t) = true.
Proof. induction n as [|c n IH]; simpl; [reflexivity|]. now rewrite Ascii.eqb_refl. Qed.

Lemma includes_prefix n a b :
  JsString.includes n a = true -> JsString.includes n (a ++ b) = true.
Proof.
  induction a as [|c a IH]; simpl.
  - rewrite orb_false_r. destruct n; [|discriminate]. intros _. now destruct b.
  - intros H. apply orb_true_iff in H as [H|H]; apply orb_true_iff.
    + left. now apply (startsWith_app n (String c a) b).
    + right. auto.
Qed.

Lemma includes_suffix n a b :
  JsString.includes n b = true -> JsString.includes n (a ++ b) = true.
Proof.
  intros H. induction a as [|c a IH]; simpl; [exact H|].
  apply orb_true_iff. now right.
Qed.

Lemma includes_self n : JsString.includes n n = true.
Proof.
  destruct n as [|c n]; [reflexivity|].
  simpl. rewrite Ascii.eqb_refl.
  assert (H := startsWith_refl_app n ""). rewrite append_empty_r in H. now rewrite H.
Qed.





End TableAndExport.

(** ** Batches of URLs that are known *)

Section Batches.
Import Types Js App.

Lemma history_saveAndClear s :
  history (saveAndClear true s) = fold_left saveRecord (websites s) (history s).
Proof. unfold saveAndClear. now destruct (websites s). Qed.

Lemma saveRecord_keeps ws : forall h k,
  is_Some (h !! k) -> is_Some (fold_left saveRecord ws h !! k).
Proof.
  induction ws as [|w ws IH]; intros h k Hk; simpl; [exact Hk|].
  apply IH. unfold saveRecord. destruct (isProcessed w); [|exact Hk].
  destruct (decide (normalizeUrl (url w) = k)) as [<-|Hne].
  - rewrite lookup_insert_eq. eauto.
  - now rewrite lookup_insert_ne.
Qed.

(** the key of every processed record is in the history afterwards *)
Lemma saveRecord_present ws : forall h w,
  w ∈ ws -> isProcessed w = true ->
  is_Some (fold_left saveRecord ws h !! normalizeUrl (url w)).
Proof.
  induction ws as [|x ws IH]; intros h w Hw Hp; [inversion Hw|]. simpl.
  apply elem_of_cons in Hw as [->|Hw]; [|now apply IH].
  apply saveRecord_keeps. unfold saveRecord. rewrite Hp, lookup_insert_eq. eauto.
Qed.

(** a batch of saved URLs, compared with an empty list *)
Lemma fold_addUrl_saved h urls : forall acc,
  currentNormalized acc = ∅ ->
  Forall (fun u => historyHas h (normalizeUrl u) = true) urls ->
  fold_left (addUrl h) urls acc
  = mkAddUrls (newEntries acc) (skippedHistoryCount acc + length urls)
              (skippedDuplicateCount acc) ∅ (nextUuid acc).
Proof.
  induction urls as [|u urls IH]; intros acc Hc Hk; simpl.
  - destruct acc; simpl in *. subst. f_equal. lia.
  - apply Forall_cons in Hk as [Hu Hk].
    assert (E : addUrl h acc u
                = mkAddUrls (newEntries acc) (S (skippedHistoryCount acc))
                            (skippedDuplicateCount acc) ∅ (nextUuid acc)).
    { unfold addUrl. rewrite Hc.
      rewrite bool_decide_eq_false_2 by apply not_elem_of_empty.
      now rewrite Hu. }
    rewrite E, IH; [|reflexivity | exact Hk]. simpl. f_equal. lia.
Qed.

(** the URLs of a batch are in the set, or in the history, at the end *)
Lemma fold_addUrl_covers h urls : forall acc,
  currentNormalized acc ⊆ currentNormalized (fold_left (addUrl h) urls acc) /\
  Forall (fun u => normalizeUrl u ∈ currentNormalized (fold_left (addUrl h) urls acc) \/
                   historyHas h (normalizeUrl u) = true) urls.
Proof.
  induction urls as [|u urls IH]; intros acc; simpl; [split; [reflexivity | constructor]|].
  destruct (IH (addUrl h acc u)) as [Hsub Hall].
  assert (Hstep : currentNormalized acc ⊆ currentNormalized (addUrl h acc u) /\
                  (normalizeUrl u ∈ currentNormalized (addUrl h acc u) \/
                   historyHas h (normalizeUrl u) = true)).
  { unfold addUrl. case_bool_decide as Hc;
      [|destruct (historyHas h (normalizeUrl u)) eqn:Hh]; simpl.
    - split; [reflexivity | now left].
    - split; [reflexivity | now right].
    - split; [apply union_subseteq_r | left; apply elem_of_union_l, elem_of_singleton; reflexivity]. }
  destruct Hstep as [Hs1 Hs2]. split; [now transitivity (currentNormalized (addUrl h acc u))|].
  constructor; [|exact Hall].
  destruct Hs2 as [Hin|Hk]; [left; now apply Hsub | now right].
Qed.

(** a batch all of whose URLs are in the set or in the history *)
Lemma fold_addUrl_skips h urls : forall acc,
  Forall (fun u => normalizeUrl u ∈ currentNormalized acc \/
                   historyHas h (normalizeUrl u) = true) urls ->
  newEntries (fold_left (addUrl h) urls acc) = newEntries acc /\
  nextUuid (fold_left (addUrl h) urls acc) = nextUuid acc.
Proof.
  induction urls as [|u urls IH]; intros acc Hall; simpl; [auto|].
  apply Forall_cons in Hall as [Hu Hall].
  assert (Hstep : newEntries (addUrl h acc u) = newEntries acc /\
                  nextUuid (addUrl h acc u) = nextUuid acc /\
                  currentNormalized (addUrl h acc u) = currentNormalized acc).
  { unfold addUrl. case_bool_decide as Hc;
      [|destruct (historyHas h (normalizeUrl u)) eqn:Hh]; simpl; auto.
    destruct Hu; [contradiction | discriminate]. }
  destruct Hstep as (H1 & H2 & H3).
  destruct (IH (addUrl h acc u)) as [H4 H5]; [now rewrite H3|].
  now rewrite H4, H5.
Qed.

(** X5: after save-and-clear, a batch of URLs whose normalized forms are
    those of records that were COMPLETED or FAILED adds no record: every
    URL of the batch is counted as known from the history. *)
Theorem saved_urls_are_skipped_afterwards (s : State) (urls : list string) :
  urls <> [] ->
  Forall (fun u => normalizeUrl u ∈ normalizedOf (List.filter isProcessed (websites s)))
         urls ->
  websites (step (saveAndClear true s) (AddUrlsEvent urls)) = [] /\
  notification (step (saveAndClear true s) (AddUrlsEvent urls))
    = Some (HistorySkipped (length urls) 0).
Proof.
  intros Hne Hall. set (s1 := saveAndClear true s).
  assert (Hstep : step s1 (AddUrlsEvent urls) = addUrls (currentRender s1) urls s1).
  { destruct urls; [now destruct Hne | reflexivity]. }
  rewrite Hstep.
  assert (Hws : websites s1 = []).
  { unfold s1, saveAndClear. destruct (websites s) eqn:E; [exact E | reflexivity]. }
  assert (Hknown : Forall (fun u => historyHas (history s1) (normalizeUrl u) = true) urls).
  { eapply Forall_impl; [exact Hall|]. simpl. intros u Hu.
    unfold normalizedOf in Hu. apply list_elem_of_fmap in Hu as (w & -> & Hw).
    apply list_elem_of_In, filter_In in Hw as [Hw Hp]. apply list_elem_of_In in Hw.
    unfold historyHas, s1. rewrite history_saveAndClear.
    rewrite bool_decide_eq_true_2; [reflexivity|]. now apply saveRecord_present. }
  assert (E : addUrlsLoop (renderedWebsites (currentRender s1))
                          (renderedHistory (currentRender s1)) (uuid s1) urls
              = mkAddUrls [] (length urls) 0 ∅ (uuid s1)).
  { unfold addUrlsLoop. simpl. rewrite Hws.
    rewrite fold_addUrl_saved; [reflexivity | reflexivity | exact Hknown]. }
  split.
  - rewrite websites_addUrls, E, Hws. reflexivity.
  - rewrite notification_addUrls, E. unfold addUrlsNotification; simpl.
    destruct urls; [now destruct Hne | reflexivity].
Qed.

Lemma saved_urls_are_skipped_afterwards_witness :
  websites (step (saveAndClear true savedExample)
                 (AddUrlsEvent ["https://A.com/"; "b.com"])) = [] /\
  notification (step (saveAndClear true savedExample)
                     (AddUrlsEvent ["https://A.com/"; "b.com"]))
    = Some (HistorySkipped (length ["https://A.com/"; "b.com"]) 0).
Proof.
  apply (saved_urls_are_skipped_afterwards savedExample ["https://A.com/"; "b.com"]).
  - discriminate.
  - repeat constructor.
Defined.

(** X6: a batch handed over a second time, by the render that follows
    the first, adds no record and issues no token: every URL of the batch
    is skipped, and the batch is answered with a notification. *)
Theorem addUrls_twice_adds_nothing (s : State) (urls : list string) :
  urls <> [] ->
  websites (steps s [AddUrlsEvent urls; AddUrlsEvent urls])
    = websites (steps s [AddUrlsEvent urls]) /\
  uuid (steps s [AddUrlsEvent urls; AddUrlsEvent urls])
    = uuid (steps s [AddUrlsEvent urls]) /\
  notification (steps s [AddUrlsEvent urls; AddUrlsEvent urls]) <> None.
Proof.
  intros Hne.
  assert (Hstep : forall s0, step s0 (AddUrlsEvent urls) = addUrls (currentRender s0) urls s0).
  { intros s0. destruct urls; [now destruct Hne | reflexivity]. }
  change (steps s [AddUrlsEvent urls; AddUrlsEvent urls])
    with (step (step s (AddUrlsEvent urls)) (AddUrlsEvent urls)).
  change (steps s [AddUrlsEvent urls]) with (step s (AddUrlsEvent urls)).
  rewrite !Hstep.
  set (s1 := addUrls (currentRender s) urls s).
  pose proof (addUrlsLoop_inv (websites s) (history s) (uuid s) urls) as A.
  pose proof (addUrlsLoop_inv (websites s1) (history s1) (uuid s1) urls) as B.
  destruct (fold_addUrl_covers (history s) urls (addUrlsStart (websites s) (uuid s)))
    as [_ Hcov].
  fold (addUrlsLoop (websites s) (history s) (uuid s) urls) in Hcov.
  destruct (fold_addUrl_skips (history s1) urls (addUrlsStart (websites s1) (uuid s1)))
    as [Hnew Hnext].
  { eapply Forall_impl; [exact Hcov|]. simpl. intros u [Hu|Hu].
    - left. apply elem_of_list_to_set.
      apply (inv_current _ _ _ _ _ A) in Hu.
      unfold s1. rewrite websites_addUrls. simpl.
      change (map (fun w => normalizeUrl (url w)) ?l) with (normalizedOf l).
      unfold normalizedOf. rewrite map_app. apply elem_of_app. exact Hu.
    - right. unfold s1. now rewrite history_addUrls. }
  fold (addUrlsLoop (websites s1) (history s1) (uuid s1) urls) in Hnew, Hnext.
  simpl in Hnew, Hnext.
  split; [|split].
  - rewrite websites_addUrls. simpl. rewrite Hnew. apply app_nil_r.
  - rewrite uuid_addUrls. simpl. rewrite Hnew. simpl. lia.
  - rewrite notification_addUrls. simpl.
    pose proof (inv_total _ _ _ _ _ B) as Htot. rewrite Hnew in Htot. simpl in Htot.
    unfold addUrlsNotification.
    destruct (skippedHistoryCount _) as [|n] eqn:E1; simpl; [|discriminate].
    destruct (skippedDuplicateCount _) as [|m] eqn:E2; simpl; [|discriminate].
    destruct urls; [now destruct Hne | simpl in Htot; lia].
Qed.

Lemma addUrls_twice_adds_nothing_witness :
  websites (steps savedExample [AddUrlsEvent ["x.com"; "a.com"]; AddUrlsEvent ["x.com"; "a.com"]])
    = websites (steps savedExample [AddUrlsEvent ["x.com"; "a.com"]]) /\
  uuid (steps savedExample [AddUrlsEvent ["x.com"; "a.com"]; AddUrlsEvent ["x.com"; "a.com"]])
    = uuid (steps savedExample [AddUrlsEvent ["x.com"; "a.com"]]) /\
  notification (steps savedExample
                      [AddUrlsEvent ["x.com"; "a.com"]; AddUrlsEvent ["x.com"; "a.com"]])
    <> None.
Proof.
  apply (addUrls_twice_adds_nothing savedExample ["x.com"; "a.com"]). discriminate.
Defined.

End Batches.

(** ** Removing a record *)

Section Removal.
Import Types Js App.

Lemma filter_other_ids i (l : list WebsiteData) :
  i ∉ map id l -> List.filter (fun w => negb (id w =? i)%nat) l = l.
Proof.
  induction l as [|x l IH]; simpl; [reflexivity|]. intros Hn.
  apply not_elem_of_cons in Hn as [Hx Hl].
  destruct (Nat.eqb_spec (id x) i) as [E|E]; [now destruct Hx|].
  simpl. now rewrite IH.
Qed.

Lemma mapItem_other_ids item f (l : list WebsiteData) :
  id item ∉ map id l -> mapItem item f l = l.
Proof.
  induction l as [|x l IH]; simpl; [reflexivity|]. intros Hn.
  apply not_elem_of_cons in Hn as [Hx Hl].
  destruct (Nat.eqb_spec (id x) (id item)) as [E|E]; [now destruct Hx|].
  now rewrite IH.
Qed.

Lemma removed_id_absent i (l : list WebsiteData) :
  i ∉ map id (List.filter (fun w => negb (id w =? i)%nat) l).
Proof.
  intros Hin. apply list_elem_of_fmap in Hin as (w & -> & Hw).
  apply list_elem_of_In, filter_In in Hw as [_ Hw].
  now rewrite Nat.eqb_refl in Hw.
Qed.

(** X7: in a reachable state, removing a record takes that record out of
    the list and nothing else: the records before it and behind it stay,
    in their order; a token that no record carries removes nothing. *)
Theorem removeWebsite_removes_one_record (s : State) :
  reachable s ->
  (forall l1 w l2, websites s = l1 ++ w :: l2 ->
                   websites (removeWebsite (id w) s) = l1 ++ l2) /\
  (forall i, i ∉ map id (websites s) -> websites (removeWebsite i s) = websites s).
Proof.
  intros Hr. destruct (reachable_Inv s Hr) as [[Hnd _ _ _] _].
  split.
  - intros l1 w l2 E. simpl. rewrite E in *. rewrite map_app in Hnd. simpl in Hnd.
    apply NoDup_app in Hnd as (_ & Hd & H2). apply NoDup_cons in H2 as [Hw _].
    rewrite List.filter_app. simpl. rewrite Nat.eqb_refl. simpl.
    rewrite !filter_other_ids; [reflexivity | exact Hw |].
    intros Hin. apply (Hd (id w) Hin). left.
  - intros i Hi. simpl. now apply filter_other_ids.
Qed.

Lemma removeWebsite_removes_one_record_witness :
  (forall l1 w l2, websites savedExample = l1 ++ w :: l2 ->
                   websites (removeWebsite (id w) savedExample) = l1 ++ l2) /\
  (forall i, i ∉ map id (websites savedExample) ->
             websites (removeWebsite i savedExample) = websites savedExample).
Proof.
  apply (removeWebsite_removes_one_record savedExample).
  apply steps_reachable, reachable_initial.
Defined.

(** X8: when the record whose call is in flight is removed, no record
    is PROCESSING any more; the answer of the finder, when it comes,
    changes no record, and unless it carries a rate limit the run goes on
    to the delay before the next item. *)
Theorem answer_for_removed_record_is_dropped
    (s : State) (item : WebsiteData) (rest : list WebsiteData) (audience : string)
    (outcome : settled (list string)) :
  reachable s -> queue s = Some (AwaitFinder item rest audience) ->
  Forall (fun w => status w <> PROCESSING) (websites (step s (RemoveWebsite (id item)))) /\
  websites (step (step s (RemoveWebsite (id item))) (FinderSettled outcome))
    = websites (step s (RemoveWebsite (id item))) /\
  (isRateLimited outcome = false ->
   queue (step (step s (RemoveWebsite (id item))) (FinderSettled outcome))
     = Some (AwaitDelay rest audience)).
Proof.
  intros Hr Eq. destruct (reachable_runInv s Hr) as [_ Hproc _ _].
  rewrite Forall_forall in Hproc.
  split; [|split].
  - apply Forall_forall. intros w Hw Hs. simpl in Hw.
    apply list_elem_of_In, filter_In in Hw as [Hw Hne]. apply list_elem_of_In in Hw.
    destruct (Hproc w Hw Hs) as (item' & rest' & aud' & E & Ei).
    rewrite Eq in E. injection E as <- _ _.
    rewrite Ei, Nat.eqb_refl in Hne. discriminate.
  - simpl. rewrite Eq. unfold afterFinder.
    destruct outcome as [found|error]; [|destruct (isRateLimit error)]; simpl;
      apply mapItem_other_ids, removed_id_absent.
  - intros Hlim. simpl. rewrite Eq. unfold afterFinder.
    destruct outcome as [found|error]; [reflexivity|].
    simpl in Hlim. now rewrite Hlim.
Qed.

Lemma answer_for_removed_record_is_dropped_witness :
  Forall (fun w => status w <> PROCESSING)
         (websites (step thirdInFlight (RemoveWebsite 2))) /\
  websites (step (step thirdInFlight (RemoveWebsite 2)) (FinderSettled (Fulfilled ["c@c.com"])))
    = websites (step thirdInFlight (RemoveWebsite 2)) /\
  (isRateLimited (Fulfilled ["c@c.com"]) = false ->
   queue (step (step thirdInFlight (RemoveWebsite 2)) (FinderSettled (Fulfilled ["c@c.com"])))
     = Some (AwaitDelay [] "")).
Proof.
  apply (answer_for_removed_record_is_dropped thirdInFlight
           (mkWebsiteData 2 "c.com" IDLE [] None None) [] "" (Fulfilled ["c@c.com"])).
  - apply steps_reachable, reachable_initial.
  - vm_compute. reflexivity.
Defined.

End Removal.

(** ** The button that starts the run *)

Section StartButton.
Import Types Js App AppView.

Lemma noneIdle_filter ws : noneIdle ws = true <-> List.filter isIdle ws = [].
Proof.
  unfold noneIdle, isIdle. induction ws as [|w ws IH]; simpl; [tauto|].
  destruct (status_eqb (status w) IDLE); simpl; [|exact IH].
  split; discriminate.
Qed.

Lemma app_one_neq {A : Type} (l : list A) (x : A) : l ++ [x] <> l.
Proof.
  intros E. apply (f_equal (@length A)) in E. rewrite length_app in E. simpl in E. lia.
Qed.

(** X9: the button that starts the run is enabled exactly when a call of
    [processQueue] would call the finder; the call is then made for the
    first IDLE record of the list, with the audience of the state. *)
Theorem start_button_enabled_iff_run_calls_finder (s : State) :
  (startDisabled s = false <-> finderCalls (processQueue s) <> finderCalls s) /\
  (startDisabled s = false ->
   exists item rest,
     List.filter isIdle (websites s) = item :: rest /\
     queue (processQueue s) = Some (AwaitFinder item rest (targetAudience s)) /\
     finderCalls (processQueue s) = finderCalls s ++ [(url item, targetAudience s)]).
Proof.
  assert (Hon : startDisabled s = false ->
            exists item rest,
              List.filter isIdle (websites s) = item :: rest /\
              queue (processQueue s) = Some (AwaitFinder item rest (targetAudience s)) /\
              finderCalls (processQueue s) = finderCalls s ++ [(url item, targetAudience s)]).
  { unfold startDisabled. intros H. apply orb_false_iff in H as [Hp Hn].
    destruct (List.filter isIdle (websites s)) as [|item rest] eqn:E.
    - apply noneIdle_filter in E. congruence.
    - exists item, rest. split; [reflexivity|].
      unfold processQueue. rewrite Hp, E. split; reflexivity. }
  split; [|exact Hon]. split.
  - intros H. destruct (Hon H) as (item & rest & _ & _ & E). rewrite E. apply app_one_neq.
  - intros H. unfold startDisabled.
    destruct (isProcessing s) eqn:Hp.
    + exfalso. apply H. unfold processQueue. now rewrite Hp.
    + destruct (noneIdle (websites s)) eqn:Hn; [|reflexivity].
      exfalso. apply H. apply noneIdle_filter in Hn.
      unfold processQueue. rewrite Hp, Hn. reflexivity.
Qed.

Lemma start_button_enabled_iff_run_calls_finder_witness :
  exists item rest,
    List.filter isIdle (websites threeIdle) = item :: rest /\
    queue (processQueue threeIdle) = Some (AwaitFinder item rest (targetAudience threeIdle)) /\
    finderCalls (processQueue threeIdle)
      = finderCalls threeIdle ++ [(url item, targetAudience threeIdle)].
Proof.
  apply (start_button_enabled_iff_run_calls_finder threeIdle). vm_compute. reflexivity.
Defined.

(** X10: in a reachable state the button reads Scan Complete exactly
    when no run is in progress, the list is not empty, and every record
    is COMPLETED or FAILED. *)
Theorem scan_complete_label_means_all_settled (s : State) :
  reachable s ->
  (startLabel s = "Scan Complete" <->
   isProcessing s = false /\ websites s <> [] /\
   Forall (fun w => status w = COMPLETED \/ status w = FAILED) (websites s)).
Proof.
  intros Hr. destruct (reachable_Inv s Hr) as [[_ _ Hpend _] _].
  pose proof (reachable_runInv s Hr) as HI.
  unfold startLabel. split.
  - destruct (isProcessing s) eqn:Hp; [discriminate|].
    destruct (0 <? length (websites s))%nat eqn:Hl; simpl; [|discriminate].
    destruct (noneIdle (websites s)) eqn:Hn; [|discriminate].
    intros _. split; [reflexivity|]. split.
    { intros E. rewrite E in Hl. discriminate. }
    assert (Hproc : Forall (fun w => status w <> PROCESSING) (websites s)).
    { apply no_processing_at_rest; [exact HI|]. intros item rest aud E.
      destruct HI as [Hflag _ _ _].
      assert (isProcessing s = true) by (apply Hflag; rewrite E; discriminate).
      congruence. }
    rewrite Forall_forall in Hpend, Hproc. apply Forall_forall. intros w Hw.
    specialize (Hpend w Hw). specialize (Hproc w Hw).
    unfold noneIdle in Hn. rewrite forallb_forall in Hn.
    specialize (Hn w (proj1 (list_elem_of_In _ _) Hw)).
    destruct (status w); simpl in Hn; try discriminate; try contradiction; auto.
  - intros (Hp & Hne & Hall). rewrite Hp.
    assert (Hl : (0 <? length (websites s))%nat = true).
    { destruct (websites s); [now destruct Hne | reflexivity]. }
    assert (Hn : noneIdle (websites s) = true).
    { unfold noneIdle. apply forallb_forall. intros w Hw.
      rewrite Forall_forall in Hall.
      destruct (Hall w (proj2 (list_elem_of_In _ _) Hw)) as [E|E]; now rewrite E. }
    now rewrite Hl, Hn.
Qed.

Lemma scan_complete_label_means_all_settled_witness :
  startLabel savedExample = "Scan Complete" <->
  isProcessing savedExample = false /\ websites savedExample <> [] /\
  Forall (fun w => status w = COMPLETED \/ status w = FAILED) (websites savedExample).
Proof.
  apply (scan_complete_label_means_all_settled savedExample).
  apply steps_reachable, reachable_initial.
Defined.

(** X11: in a reachable state, an event makes at most one call of the
    finder, and it makes one only when no call is in flight: at the start
    of a run, for the first IDLE record, or when the delay behind the
    previous answer has elapsed, for the next item of the snapshot. *)
Theorem finder_called_only_at_start_or_after_delay (s : State) (e : Event) :
  reachable s ->
  finderCalls (step s e) = finderCalls s \/
  exists item rest audience,
    queue (step s e) = Some (AwaitFinder item rest audience) /\
    finderCalls (step s e) = finderCalls s ++ [(url item, audience)] /\
    ((e = ProcessQueue /\ queue s = None /\ audience = targetAudience s /\
      List.filter isIdle (websites s) = item :: rest) \/
     (e = DelayElapsed /\ queue s = Some (AwaitDelay (item :: rest) audience))).
Proof.
  intros Hr. destruct (reachable_runInv s Hr) as [Hflag _ _ _].
  assert (Hadd : forall rendered urls s0,
            finderCalls (processUrls rendered urls s0) = finderCalls s0).
  { intros rendered urls s0. destruct urls; [reflexivity|].
    unfold processUrls, addUrls. now destruct (0 <? _)%nat. }
  destruct e as [urls| |k file|i|confirmed|stored|a| | |outcome|]; simpl.
  - left. apply Hadd.
  - now left.
  - left. destruct (fileReads s !! k) as [rendered|]; [|reflexivity].
    destruct (FileUtils.parseFile file) as [urls|]; [|reflexivity]. now rewrite Hadd.
  - now left.
  - left. unfold clearList. destruct (websites s); [reflexivity|]. now destruct confirmed.
  - left. unfold saveAndClear. destruct (websites s); [reflexivity|]. now destruct stored.
  - now left.
  - now left.
  - unfold processQueue. destruct (isProcessing s) eqn:Hp; [now left|].
    assert (Hq : queue s = None).
    { destruct (queue s) eqn:E; [|reflexivity].
      assert (false = true) by (apply Hflag; discriminate). discriminate. }
    destruct (List.filter isIdle (websites s)) as [|item rest] eqn:E; [now left|].
    right. exists item, rest, (targetAudience s). simpl. auto 10.
  - left. destruct (queue s) as [[item rest aud|rest aud]|]; try reflexivity.
    unfold afterFinder. destruct outcome as [found|error]; [reflexivity|].
    now destruct (isRateLimit error).
  - destruct (queue s) as [[item rest aud|rest aud]|] eqn:E; try (now left).
    destruct rest as [|item rest]; [now left|].
    right. exists item, rest, aud. simpl. auto 10.
Qed.

Lemma finder_called_only_at_start_or_after_delay_witness :
  finderCalls (step thirdInFlight ProcessQueue) = finderCalls thirdInFlight \/
  exists item rest audience,
    queue (step thirdInFlight ProcessQueue) = Some (AwaitFinder item rest audience) /\
    finderCalls (step thirdInFlight ProcessQueue)
      = finderCalls thirdInFlight ++ [(url item, audience)] /\
    ((ProcessQueue = ProcessQueue /\ queue thirdInFlight = None /\
      audience = targetAudience thirdInFlight /\
      List.filter isIdle (websites thirdInFlight) = item :: rest) \/
     (ProcessQueue = DelayElapsed /\
      queue thirdInFlight = Some (AwaitDelay (item :: rest) audience))).
Proof.
  apply (finder_called_only_at_start_or_after_delay thirdInFlight ProcessQueue).
  apply steps_reachable, reachable_initial.
Defined.

End StartButton.

(** ** A run after a run *)

Section Resume.
Import Types Js App.

Lemma settle_not_idle outcome w :
  isRateLimited outcome = false -> isIdle (settle outcome w) = false.
Proof. destruct outcome; reflexivity. Qed.

Lemma settled_other_ids item outcome (l : list WebsiteData) :
  id item ∉ map id l ->
  map (fun w => if (id w =? id item)%nat then settle outcome w else w) l = l.
Proof.
  induction l as [|x l IH]; simpl; [reflexivity|]. intros Hn.
  apply not_elem_of_cons in Hn as [Hx Hl].
  destruct (Nat.eqb_spec (id x) (id item)) as [E|E]; [now destruct Hx|].
  now rewrite IH.
Qed.

(** settling the first IDLE record leaves the other IDLE records *)
Lemma filter_idle_settled item rest outcome ws :
  NoDup (map id ws) -> List.filter isIdle ws = item :: rest ->
  isRateLimited outcome = false ->
  List.filter isIdle (map (fun w => if (id w =? id item)%nat then settle outcome w else w) ws)
  = rest.
Proof.
  intros Hnd Hf Hlim. induction ws as [|x ws IH]; [discriminate|].
  simpl in Hnd. apply NoDup_cons in Hnd as [Hx Hnd]. simpl in Hf. simpl.
  destruct (isIdle x) eqn:Hi.
  - injection Hf as -> Hf. rewrite Nat.eqb_refl, settle_not_idle by exact Hlim.
    rewrite settled_other_ids by exact Hx. exact Hf.
  - assert (Hin : item ∈ ws).
    { apply list_elem_of_In. apply (proj1 (filter_In isIdle item ws)).
      rewrite Hf. left. reflexivity. }
    destruct (Nat.eqb_spec (id x) (id item)) as [E|E].
    + exfalso. apply Hx. rewrite E. now apply (list_elem_of_fmap_2 id).
    + rewrite Hi. now apply IH.
Qed.

(** the two ways through the body of the loop *)
Lemma afterFinder_settles audience item rest outcome s :
  isRateLimited outcome = false ->
  queue (afterFinder item rest audience outcome (enterLoop audience (item :: rest) s))
    = Some (AwaitDelay rest audience) /\
  websites (afterFinder item rest audience outcome (enterLoop audience (item :: rest) s))
    = map (fun w => if (id w =? id item)%nat then settle outcome w else w) (websites s) /\
  targetAudience (afterFinder item rest audience outcome (enterLoop audience (item :: rest) s))
    = targetAudience s.
Proof.
  intros Hlim. unfold afterFinder. destruct outcome as [found|error]; simpl in *.
  - split; [reflexivity|]. split; [|reflexivity].
    unfold mapItem. rewrite map_map. apply map_ext.
    intros w. destruct (Nat.eqb_spec (id w) (id item)) as [Ei|Ei]; simpl.
    + now rewrite Ei, Nat.eqb_refl.
    + apply Nat.eqb_neq in Ei. now rewrite Ei.
  - rewrite Hlim. simpl. split; [reflexivity|]. split; [|reflexivity].
    unfold mapItem. rewrite map_map. apply map_ext.
    intros w. destruct (Nat.eqb_spec (id w) (id item)) as [Ei|Ei]; simpl.
    + now rewrite Ei, Nat.eqb_refl.
    + apply Nat.eqb_neq in Ei. now rewrite Ei.
Qed.

Lemma afterFinder_rolls_back audience item rest error s :
  isRateLimit error = true ->
  (forall w, w ∈ websites s -> id w = id item -> status w = IDLE) ->
  queue (afterFinder item rest audience (Rejected error)
                     (enterLoop audience (item :: rest) s)) = None /\
  websites (afterFinder item rest audience (Rejected error)
                        (enterLoop audience (item :: rest) s)) = websites s /\
  targetAudience (afterFinder item rest audience (Rejected error)
                              (enterLoop audience (item :: rest) s)) = targetAudience s.
Proof.
  intros Hlim Hidle. unfold afterFinder. rewrite Hlim. simpl.
  split; [reflexivity|]. split; [|reflexivity].
  unfold mapItem. rewrite map_map. rewrite <- (map_id (websites s)) at 2.
  apply map_ext_in. intros w Hw. apply list_elem_of_In in Hw.
  destruct (Nat.eqb_spec (id w) (id item)) as [Ei|Ei]; simpl.
  - rewrite Ei, Nat.eqb_refl. apply withStatus_IDLE_PROCESSING. now apply Hidle.
  - apply Nat.eqb_neq in Ei. now rewrite Ei.
Qed.

Lemma map_id_settled item outcome (ws : list WebsiteData) :
  map id (map (fun w => if (id w =? id item)%nat then settle outcome w else w) ws)
  = map id ws.
Proof.
  rewrite map_map. apply map_ext. intros w.
  destruct (id w =? id item)%nat; [apply id_settle | reflexivity].
Qed.

(** what a run leaves IDLE *)
Lemma runLoop_idle finder audience pendingItems : forall n s,
  NoDup (map id (websites s)) ->
  List.filter isIdle (websites s) = pendingItems ->
  List.filter isIdle (websites (runLoop finder audience n pendingItems s))
    = drop (answered finder audience n pendingItems) pendingItems /\
  map id (websites (runLoop finder audience n pendingItems s)) = map id (websites s) /\
  targetAudience (runLoop finder audience n pendingItems s) = targetAudience s.
Proof.
  induction pendingItems as [|item rest IH]; intros n s Hnd Hf.
  { simpl. auto. }
  rewrite runLoop_cons. simpl answered.
  destruct (isRateLimited (finder n (url item) audience)) eqn:Hlim.
  - destruct (finder n (url item) audience) as [found|error]; [discriminate|].
    simpl in Hlim.
    destruct (afterFinder_rolls_back audience item rest error s Hlim) as (Hq & Hw & Ha).
    { intros w Hw E.
      assert (Hin : In item (websites s) /\ isIdle item = true).
      { apply filter_In. rewrite Hf. left. reflexivity. }
      destruct Hin as [Hin Hi]. apply list_elem_of_In in Hin.
      rewrite (same_id_same_record (websites s) w item Hnd Hw Hin E).
      unfold isIdle in Hi. now destruct (status item). }
    rewrite Hq, Hw, Ha. auto.
  - destruct (afterFinder_settles audience item rest _ s Hlim) as (Hq & Hw & Ha).
    rewrite Hq.
    destruct (IH (S n) (afterFinder item rest audience (finder n (url item) audience)
                                    (enterLoop audience (item :: rest) s)))
      as (H1 & H2 & H3).
    + rewrite Hw, map_id_settled. exact Hnd.
    + rewrite Hw. now apply filter_idle_settled.
    + rewrite H1, H2, H3, Hw, Ha, map_id_settled. auto.
Qed.

Lemma filter_idle_none ws :
  List.filter isIdle ws = [] -> Forall (fun w => status w <> IDLE) ws.
Proof.
  induction ws as [|w ws IH]; simpl; [constructor|].
  destruct (isIdle w) eqn:E; [discriminate|]. intros H. constructor; [|auto].
  intros Hs. unfold isIdle in E. rewrite Hs in E. discriminate.
Qed.

(** X12: a run leaves IDLE exactly the items of its snapshot from the
    first answer with a rate limit on, in their order.  The next run
    calls the finder for these and for no other record; when none of its
    answers carries a rate limit, no record is IDLE afterwards and the
    flag is down. *)
Theorem paused_run_resumes_at_the_limited_item (finder finder' : Finder) (s : State) :
  isProcessing s = false -> NoDup (map id (websites s)) ->
  List.filter isIdle (websites (runQueue finder s)) = leftIdle finder s /\
  finderCalls (runQueue finder' (runQueue finder s))
    = finderCalls (runQueue finder s) ++
      map (fun p => (url p, targetAudience s))
          (take (S (answered finder' (targetAudience s) 0 (leftIdle finder s)))
                (leftIdle finder s)) /\
  ((forall j p, leftIdle finder s !! j = Some p ->
                isRateLimited (finder' j (url p) (targetAudience s)) = false) ->
   Forall (fun w => status w <> IDLE) (websites (runQueue finder' (runQueue finder s))) /\
   isProcessing (runQueue finder' (runQueue finder s)) = false).
Proof.
  intros Hp Hnd. unfold leftIdle.
  set (pending := List.filter isIdle (websites s)).
  set (aud := targetAudience s).
  set (s0 := setNotification None (setIsProcessing true s)).
  assert (E1 : runQueue finder s = runLoop finder aud 0 pending s0).
  { unfold runQueue. now rewrite Hp. }
  destruct (runLoop_idle finder aud pending 0 s0 Hnd eq_refl) as (HI1 & HI2 & HI3).
  destruct (runLoop_control finder aud pending 0 s0) as (HC1 & _).
  rewrite <- E1 in HI1, HI2, HI3, HC1.
  change (websites s0) with (websites s) in HI2.
  change (targetAudience s0) with aud in HI3.
  set (s1 := runQueue finder s) in *.
  set (s1' := setNotification None (setIsProcessing true s1)).
  assert (E2 : runQueue finder' s1
               = runLoop finder' aud 0 (List.filter isIdle (websites s1)) s1').
  { unfold runQueue. now rewrite HC1, HI3. }
  assert (Hnd1 : NoDup (map id (websites s1))) by now rewrite HI2.
  destruct (runLoop_idle finder' aud (List.filter isIdle (websites s1)) 0 s1' Hnd1 eq_refl)
    as (HJ1 & _ & _).
  destruct (runLoop_control finder' aud (List.filter isIdle (websites s1)) 0 s1')
    as (HD1 & _ & HD3 & _).
  rewrite <- E2 in HJ1, HD1, HD3. rewrite HI1 in HJ1, HD3.
  split; [exact HI1|]. split; [exact HD3|].
  intros Hok. split; [|exact HD1].
  apply filter_idle_none. rewrite HJ1.
  rewrite (answered_all finder' aud 0); [apply drop_all|].
  intros j p Hj. now apply Hok.
Qed.

Lemma paused_run_resumes_at_the_limited_item_witness :
  List.filter isIdle (websites (runQueue secondCallLimited threeIdle))
    = leftIdle secondCallLimited threeIdle /\
  finderCalls (runQueue alwaysAnswers (runQueue secondCallLimited threeIdle))
    = finderCalls (runQueue secondCallLimited threeIdle) ++
      map (fun p => (url p, targetAudience threeIdle))
          (take (S (answered alwaysAnswers (targetAudience threeIdle) 0
                             (leftIdle secondCallLimited threeIdle)))
                (leftIdle secondCallLimited threeIdle)) /\
  ((forall j p, leftIdle secondCallLimited threeIdle !! j = Some p ->
                isRateLimited (alwaysAnswers j (url p) (targetAudience threeIdle)) = false) ->
   Forall (fun w => status w <> IDLE)
          (websites (runQueue alwaysAnswers (runQueue secondCallLimited threeIdle))) /\
   isProcessing (runQueue alwaysAnswers (runQueue secondCallLimited threeIdle)) = false).
Proof.
  apply (paused_run_resumes_at_the_limited_item secondCallLimited alwaysAnswers threeIdle).
  - vm_compute. reflexivity.
  - apply (bool_decide_unpack _). vm_compute. exact I.
Defined.

(** X13: without an API key every call of the service fails before a
    request is made, and none of these failures counts as a rate limit:
    a run calls the finder once for every IDLE record, marks each of them
    FAILED with the note of the missing key, leaves the other records as
    they are and ends with the flag down. *)
Theorem missing_api_key_fails_every_record
    (API_KEY : option string)
    (generateContent : GeminiService.request -> settled (option string))
    (JSON_parse : string -> option json) (finder : Finder) (s : State) :
  API_KEY = None \/ API_KEY = Some EmptyString ->
  (forall n u a,
      seenAs (GeminiService.findEmailsForUrl API_KEY generateContent JSON_parse u (Some a))
             (finder n u a)) ->
  isProcessing s = false -> NoDup (map id (websites s)) ->
  (forall i w, websites s !! i = Some w -> status w = IDLE ->
     websites (runQueue finder s) !! i
       = Some (withError FAILED "API Key not found in environment variables" w)) /\
  (forall i w, websites s !! i = Some w -> status w <> IDLE ->
     websites (runQueue finder s) !! i = Some w) /\
  finderCalls (runQueue finder s)
    = finderCalls s ++
      map (fun p => (url p, targetAudience s)) (List.filter isIdle (websites s)) /\
  isProcessing (runQueue finder s) = false.
Proof.
  intros Hkey Hseen Hp Hnd.
  assert (Hf : forall n u a, finder n u a = keyless n u a).
  { intros n u a. specialize (Hseen n u a).
    unfold GeminiService.findEmailsForUrl, GeminiService.getClient in Hseen.
    destruct Hkey as [->| ->]; simpl in Hseen;
      destruct (finder n u a) as [found|e]; [contradiction | now subst | contradiction | now subst]. }
  set (pending := List.filter isIdle (websites s)).
  set (aud := targetAudience s).
  assert (Hstop : answered finder aud 0 pending = length pending).
  { apply answered_all. intros j p Hj. now rewrite Hf. }
  unfold runQueue. rewrite Hp. fold pending aud.
  set (s1 := setNotification None (setIsProcessing true s)).
  assert (Hsnap : snapshotOf pending (websites s1)) by now apply snapshotOf_idle.
  destruct (runLoop_records finder aud pending 0 s1 Hsnap) as (HA & HB & _).
  destruct (runLoop_control finder aud pending 0 s1) as (H1 & _ & H3 & _).
  rewrite Hstop in HA, HB, H3.
  split; [|split; [|split]].
  - intros i w Hi Hs.
    destruct (idle_in_snapshot (websites s) w) as (j & Hj);
      [eapply list_elem_of_lookup_2; exact Hi | exact Hs |].
    rewrite (HA j w i); [| eapply lookup_lt_Some; exact Hj | exact Hj | exact Hi].
    now rewrite Hf.
  - intros i w Hi Hs. apply HB; [exact Hi|]. intros j' Hj' Hpj'.
    apply Hs. exact (proj2 (snapshot_is_idle _ _ _ Hpj')).
  - rewrite H3. rewrite take_ge by lia. reflexivity.
  - exact H1.
Qed.

Lemma missing_api_key_fails_every_record_witness :
  (forall i w, websites threeIdle !! i = Some w -> status w = IDLE ->
     websites (runQueue keyless threeIdle) !! i
       = Some (withError FAILED "API Key not found in environment variables" w)) /\
  (forall i w, websites threeIdle !! i = Some w -> status w <> IDLE ->
     websites (runQueue keyless threeIdle) !! i = Some w) /\
  finderCalls (runQueue keyless threeIdle)
    = finderCalls threeIdle ++
      map (fun p => (url p, targetAudience threeIdle))
          (List.filter isIdle (websites threeIdle)) /\
  isProcessing (runQueue keyless threeIdle) = false.
Proof.
  apply (missing_api_key_fails_every_record
           None (fun _ => Fulfilled None) (fun _ => None) keyless threeIdle).
  - now left.
  - intros n u a. reflexivity.
  - vm_compute. reflexivity.
  - apply (bool_decide_unpack _). vm_compute. exact I.
Defined.

End Resume.

(** ** The service: the audience, the code fence and the entries *)

Section Service.
Import Regex Js GeminiService.
Local Arguments String.append !_ _ / : simpl nomatch.

Variable API_KEY : option string.
Variable generateContent : request -> settled (option string).
Variable JSON_parse : string -> option json.

(** *** The audience *)

Lemma trimEnd_blank s : JsString.trimEnd s = EmptyString <-> isBlank s.
Proof.
  unfold isBlank. induction s as [|c s IH]; simpl.
  - split; [constructor | reflexivity].
  - destruct (JsString.trimEnd s) eqn:E.
    + destruct (JsString.isSpace c) eqn:Ec.
      * split; [intros _; constructor; [exact Ec | now apply IH] | reflexivity].
      * split; [discriminate|]. intros H. apply Forall_cons in H as [H _]. congruence.
    + split; [discriminate|]. intros H. apply Forall_cons in H as [_ H].
      apply IH in H. discriminate.
Qed.

Lemma trimStart_cases s :
  (JsString.trimStart s = EmptyString /\ isBlank s) \/
  (exists c r, JsString.trimStart s = String c r /\ JsString.isSpace c = false /\
               ~ isBlank s).
Proof.
  unfold isBlank. induction s as [|c s IH]; simpl.
  - left. split; [reflexivity | constructor].
  - destruct (JsString.isSpace c) eqn:Ec.
    + destruct IH as [[E B]|(c' & r & E & Hc & B)].
      * left. split; [exact E | now constructor].
      * right. exists c', r. split; [exact E|]. split; [exact Hc|].
        intros H. apply Forall_cons in H as [_ H]. contradiction.
    + right. exists c, s. split; [reflexivity|]. split; [exact Ec|].
      intros H. apply Forall_cons in H as [H _]. congruence.
Qed.

Lemma trim_blank s : JsString.trim s = EmptyString <-> isBlank s.
Proof.
  unfold JsString.trim. destruct (trimStart_cases s) as [[E B]|(c & r & E & Hc & B)].
  - rewrite E. simpl. tauto.
  - rewrite E. split; [|contradiction].
    intros H. apply trimEnd_blank in H. unfold isBlank in H. simpl in H.
    apply Forall_cons in H as [H _]. congruence.
Qed.

(** X14: an audience of white space only is no audience: the request is
    the one that is made without an audience, and so is the answer of the
    finder; any other audience is part of the request. *)
Theorem blank_audience_is_no_audience (url audience : string) :
  (isBlank audience ->
   instructions url (Some audience) = instructions url None /\
   findEmailsForUrl API_KEY generateContent JSON_parse url (Some audience)
   = findEmailsForUrl API_KEY generateContent JSON_parse url None) /\
  (~ isBlank audience -> req_audience (instructions url (Some audience)) = Some audience).
Proof.
  assert (Hi : isBlank audience -> instructions url (Some audience) = instructions url None).
  { intros B. apply trim_blank in B. unfold instructions. rewrite B. simpl.
    now rewrite andb_false_r. }
  split.
  - intros B. split; [now apply Hi|]. unfold findEmailsForUrl. now rewrite (Hi B).
  - intros B. unfold instructions. simpl.
    destruct (String.eqb_spec audience EmptyString) as [->|_].
    { exfalso. apply B. constructor. }
    destruct (String.eqb_spec (JsString.trim audience) EmptyString) as [E|_]; [|reflexivity].
    exfalso. apply B. now apply trim_blank.
Qed.

(** *** The code fence *)

Lemma startsWith_other pat c r :
  match pat with String p _ => p <> c | EmptyString => False end ->
  JsString.startsWith pat (String c r) = false.
Proof.
  destruct pat as [|p pat]; [contradiction|]. simpl. intros H.
  destruct (Ascii.eqb_spec p c); [contradiction | reflexivity].
Qed.

(** a text without the first character of the pattern is copied *)
Lemma removeAll_go_copies pat body tail :
  match pat with
  | String p _ => Forall (fun c => c <> p) (list_ascii_of_string body)
  | EmptyString => False
  end ->
  JsString.removeAll_go pat 0 (body ++ tail) = (body ++ JsString.removeAll_go pat 0 tail)%string.
Proof.
  destruct pat as [|p pat]; [contradiction|]. intros H.
  induction body as [|c body IH]; [reflexivity|].
  simpl in H. apply Forall_cons in H as [Hc H].
  change (String c body ++ tail)%string with (String c (body ++ tail)).
  cbn [JsString.removeAll_go].
  rewrite (startsWith_other (String p pat) c (body ++ tail)) by (simpl; congruence).
  rewrite IH by exact H. reflexivity.
Qed.

Lemma cleanText_plain body : noBacktick body -> cleanText body = JsString.trim body.
Proof.
  intros H. unfold cleanText, JsString.removeAll. f_equal.
  assert (E : forall pat, (exists r, pat = String "`" r) ->
                          JsString.removeAll_go pat 0 body = body).
  { intros pat [r ->]. rewrite <- (append_empty_r body) at 1.
    rewrite removeAll_go_copies; [simpl; apply append_empty_r|].
    eapply Forall_impl; [exact H|]. auto. }
  rewrite (E "```json") by eauto. apply E. eauto.
Qed.

(** X15: a response wrapped in a code fence of the kind json is read as
    its body, when the body has no backtick: the cleaned text is the
    trimmed body, and the entries extracted are those of the body. *)
Theorem fenced_response_is_read_as_its_body (body : string) :
  noBacktick body ->
  cleanText ("```json" ++ body ++ "```") = JsString.trim body /\
  extractEmails JSON_parse ("```json" ++ body ++ "```") = extractEmails JSON_parse body.
Proof.
  intros H.
  assert (E : cleanText ("```json" ++ body ++ "```") = JsString.trim body).
  { unfold cleanText, JsString.removeAll. f_equal.
    assert (E1 : JsString.removeAll_go "```json" 0 ("```json" ++ body ++ "```")
                 = (body ++ "```")%string).
    { change (JsString.removeAll_go "```json" 0 ("```json" ++ body ++ "```"))
        with (JsString.removeAll_go "```json" 0 (body ++ "```")).
      rewrite removeAll_go_copies; [reflexivity|].
      eapply Forall_impl; [exact H|]. auto. }
    rewrite E1. rewrite removeAll_go_copies; [simpl; apply append_empty_r|].
    eapply Forall_impl; [exact H|]. auto. }
  split; [exact E|].
  unfold extractEmails. now rewrite E, cleanText_plain.
Qed.

(** *** The entries *)

Lemma append_assoc (a b c : string) : ((a ++ b) ++ c = a ++ (b ++ c))%string.
Proof. induction a as [|x a IH]; simpl; congruence. Qed.

Lemma Word_chr c w : Word (chr c) w -> w = String c EmptyString.
Proof.
  unfold chr. intros H. inversion H as [|ci ranges c' Hc| | | | |]; subst.
  unfold inClass, inRanges in Hc. simpl in Hc. rewrite !orb_false_r in Hc.
  unfold JsString.inRange in Hc. apply andb_true_iff in Hc as [H1 H2].
  apply Nat.leb_le in H1, H2. unfold JsString.code in *.
  assert (E : nat_of_ascii c' = nat_of_ascii c) by lia.
  apply (f_equal ascii_of_nat) in E. rewrite !ascii_nat_embedding in E. now subst.
Qed.

Lemma includes_middle n a b : JsString.includes n (a ++ n ++ b) = true.
Proof. apply includes_suffix, includes_prefix, includes_self. Qed.

(** a word of the pattern of addresses has an at-sign, and a dot behind it *)
Lemma Word_emailRegex w :
  Word emailRegex w ->
  exists name rest domain, w = (name ++ "@" ++ rest ++ "." ++ domain)%string.
Proof.
  unfold emailRegex. intros H.
  apply Word_Seq_inv in H as (name & w1 & -> & _ & H).
  apply Word_Seq_inv in H as (at_ & w2 & -> & Hat & H).
  apply Word_Seq_inv in H as (rest & w3 & -> & _ & H).
  apply Word_Seq_inv in H as (dot & domain & -> & Hdot & _).
  apply Word_chr in Hat as ->. apply Word_chr in Hdot as ->.
  exists name, rest, domain. reflexivity.
Qed.

(** X16: a string that the finder returns holds an at-sign and, behind
    it, a dot; a text around an address does not keep a string from being
    returned, since the pattern is looked for anywhere in it. *)
Theorem returned_strings_hold_an_address (url : string) (audience : option string)
    (found : list json) (s : string) :
  findEmailsForUrl API_KEY generateContent JSON_parse url audience = Fulfilled found ->
  JString s ∈ found ->
  (exists before name rest domain after,
      s = (before ++ name ++ "@" ++ rest ++ "." ++ domain ++ after)%string) /\
  JsString.includes "@" s = true /\
  (forall before after, emailRegex_test (JString (before ++ s ++ after)) = Some true).
Proof.
  intros Hf Hin.
  assert (Hex : JString s ∈ extractEmails JSON_parse
                  match generateContent (instructions url audience) with
                  | Fulfilled (Some t) => t
                  | _ => EmptyString
                  end).
  { unfold findEmailsForUrl in Hf. destruct (getClient API_KEY); [|discriminate].
    destruct (generateContent (instructions url audience)) as [[t|]|]; try discriminate;
      now injection Hf as <-. }
  apply extractEmails_strings_match in Hex as (before & word & after & -> & Hw).
  pose proof Hw as Hw'. apply Word_emailRegex in Hw' as (name & rest & domain & ->).
  split; [|split].
  - exists before, name, rest, domain, after.
    now rewrite !append_assoc.
  - apply includes_suffix. rewrite !append_assoc. apply includes_suffix.
    change ("@" ++ rest ++ "." ++ domain ++ after)%string
      with ("@" ++ (rest ++ "." ++ domain ++ after))%string.
    apply (includes_prefix "@" "@"). reflexivity.
  - intros before' after'. unfold emailRegex_test. cbn [toString]. f_equal.
    apply testAnywhere_Word.
    exists (before' ++ before)%string, (name ++ "@" ++ rest ++ "." ++ domain)%string,
           (after ++ after')%string.
    split; [now rewrite !append_assoc | exact Hw].
Qed.

(** X17: an entry that cannot be turned into a text, an object with a
    member of its own called toString, makes the filter throw, and the
    finder answers with the empty list, whatever the other entries are. *)
Theorem entry_without_text_empties_the_answer
    (url : string) (audience : option string) (text : string)
    (parsed : json) (items : list json) (fields : list (string * json)) :
  getClient API_KEY = Fulfilled tt ->
  generateContent (instructions url audience) = Fulfilled (Some text) ->
  JSON_parse (cleanText text) = Some parsed ->
  property parsed "emails" = Some (JArray items) ->
  JObject fields ∈ items -> hasOwn "toString" fields = true ->
  findEmailsForUrl API_KEY generateContent JSON_parse url audience = Fulfilled [].
Proof.
  intros Hc Hg Hp He Hin Hown. unfold findEmailsForUrl. rewrite Hc, Hg. f_equal.
  apply (extractEmails_throwing_entry JSON_parse text parsed items (JObject fields));
    auto.
  unfold emailRegex_test. simpl. now rewrite Hown.
Qed.

End Service.

Section ServiceExamples.
Import Regex Js GeminiService.

Lemma blank_audience_is_no_audience_witness :
  instructions "a.com" (Some "  ") = instructions "a.com" None /\
  findEmailsForUrl (Some "key") (fun _ => Fulfilled None) (fun _ => None) "a.com" (Some "  ")
  = findEmailsForUrl (Some "key") (fun _ => Fulfilled None) (fun _ => None) "a.com" None.
Proof.
  apply (blank_audience_is_no_audience
           (Some "key") (fun _ => Fulfilled None) (fun _ => None) "a.com" "  ").
  repeat constructor.
Defined.

Lemma fenced_response_is_read_as_its_body_witness :
  cleanText ("```json" ++ " {} " ++ "```") = JsString.trim " {} " /\
  extractEmails (fun _ => None) ("```json" ++ " {} " ++ "```")
  = extractEmails (fun _ => None) " {} ".
Proof.
  apply (fenced_response_is_read_as_its_body (fun _ => None) " {} ").
  repeat constructor; discriminate.
Defined.

Lemma returned_strings_hold_an_address_witness :
  (exists before name rest domain after,
      "mail: a@b.co" = (before ++ name ++ "@" ++ rest ++ "." ++ domain ++ after)%string) /\
  JsString.includes "@" "mail: a@b.co" = true /\
  (forall before after,
      emailRegex_test (JString (before ++ "mail: a@b.co" ++ after)) = Some true).
Proof.
  apply (returned_strings_hold_an_address
           (Some "key") (fun _ => Fulfilled (Some "x"))
           (parseAt "x" (JObject [("emails", JArray [JString "mail: a@b.co"])]))
           "a.com" None [JString "mail: a@b.co"] "mail: a@b.co").
  - vm_compute. reflexivity.
  - left.
Defined.

Lemma entry_without_text_empties_the_answer_witness :
  findEmailsForUrl (Some "key") (fun _ => Fulfilled (Some "x"))
    (parseAt "x" (JObject [("emails", JArray [JString "a@b.co";
                                              JObject [("toString", JNumber "1")]])]))
    "a.com" None
  = Fulfilled [].
Proof.
  apply (entry_without_text_empties_the_answer
           (Some "key") (fun _ => Fulfilled (Some "x"))
           (parseAt "x" (JObject [("emails", JArray [JString "a@b.co";
                                                     JObject [("toString", JNumber "1")]])]))
           "a.com" None "x"
           (JObject [("emails", JArray [JString "a@b.co";
                                        JObject [("toString", JNumber "1")]])])
           [JString "a@b.co"; JObject [("toString", JNumber "1")]]
           [("toString", JNumber "1")]).
  - reflexivity.
  - reflexivity.
  - vm_compute. reflexivity.
  - reflexivity.
  - right; left.
  - reflexivity.
Defined.

End ServiceExamples.

(** ** The banner of the notification *)

Section Banner.
Import Types Js App AppView.
Local Arguments String.append !_ _ / : simpl nomatch.

Lemma clash_startsWith n t b : clash n t = true -> JsString.startsWith n (t ++ b) = false.
Proof.
  revert t; induction n as [|x n IH]; intros [|y t]; simpl; try discriminate.
  destruct (Ascii.eqb x y); [apply IH | reflexivity].
Qed.

Lemma includes_skip n a b :
  clashAll n a = true -> JsString.includes n (a ++ b) = JsString.includes n b.
Proof.
  induction a as [|c a IH]; [reflexivity|]. intros H.
  cbn [clashAll] in H. apply andb_true_iff in H as [H1 H2].
  change (String c a ++ b)%string with (String c (a ++ b)).
  cbn [JsString.includes].
  change (String c (a ++ b)) with (String c a ++ b)%string.
  rewrite (clash_startsWith n (String c a) b H1). simpl. now apply IH.
Qed.

Lemma showCount_digits n :
  Forall (fun c => isDigit c = true) (list_ascii_of_string (showCount n)).
Proof.
  unfold showCount. generalize (Nat.to_uint n). intros d.
  induction d; simpl; constructor; auto.
Qed.

Lemma digits_lower s :
  Forall (fun c => isDigit c = true) (list_ascii_of_string s) -> JsString.toLowerCase s = s.
Proof.
  induction s as [|c s IH]; simpl; [reflexivity|]. intros H.
  apply Forall_cons in H as [Hc H]. rewrite IH by exact H. f_equal.
  destruct c as [[] [] [] [] [] [] [] []]; try discriminate Hc; reflexivity.
Qed.

Lemma digits_clash x n s :
  isDigit x = false ->
  Forall (fun c => isDigit c = true) (list_ascii_of_string s) ->
  clashAll (String x n) s = true.
Proof.
  intros Hx. induction s as [|c s IH]; simpl; [reflexivity|]. intros H.
  apply Forall_cons in H as [Hc H]. rewrite IH by exact H.
  destruct (Ascii.eqb_spec x c) as [->|]; [congruence | reflexivity].
Qed.

(** a count in front of a text, or inside it, hides no occurrence of a
    word that begins with a letter *)
Lemma includes_count x n k rest :
  isDigit x = false ->
  JsString.includes (String x n) (JsString.toLowerCase (showCount k ++ rest))
  = JsString.includes (String x n) (JsString.toLowerCase rest).
Proof.
  intros Hx. rewrite toLowerCase_app, digits_lower by apply showCount_digits.
  apply includes_skip, digits_clash; [exact Hx | apply showCount_digits].
Qed.

Lemma includes_text_count x n a k rest :
  isDigit x = false -> clashAll (String x n) (JsString.toLowerCase a) = true ->
  JsString.includes (String x n) (JsString.toLowerCase (a ++ showCount k ++ rest))
  = JsString.includes (String x n) (JsString.toLowerCase rest).
Proof.
  intros Hx Ha. rewrite toLowerCase_app, includes_skip by exact Ha.
  now apply includes_count.
Qed.

(** X18: the banner is red, and carries the icon of an alert, for the
    notice of the rate limit and for no other notification, whatever
    counts the other notifications show. *)
Theorem banner_is_red_for_the_rate_limit_only (n : Notification) :
  (bannerColour (notificationText n) = Red <-> n = RateLimitReached) /\
  (bannerIcon (notificationText n) = IconAlertCircle <-> n = RateLimitReached).
Proof.
  assert (Hblue : forall text,
            JsString.includes "rate limit" (JsString.toLowerCase text) = false ->
            JsString.includes "error" (JsString.toLowerCase text) = false ->
            bannerColour text = Blue /\ bannerIcon text = IconInfo).
  { intros text H1 H2. unfold bannerColour, bannerIcon. now rewrite H1, H2. }
  destruct n as [h d|d| |k].
  - assert (H : bannerColour (notificationText (HistorySkipped h d)) = Blue /\
                bannerIcon (notificationText (HistorySkipped h d)) = IconInfo).
    { apply Hblue; cbn [notificationText];
        rewrite includes_count by reflexivity;
        destruct (1 <? h)%nat; destruct (0 <? d)%nat;
        try (vm_compute; reflexivity);
        match goal with
        | |- JsString.includes ?n (JsString.toLowerCase (?a ++ ?b ++ ?c ++ ?e ++ ?f ++ ?g))
             = false =>
            change (a ++ b ++ c ++ e ++ f ++ g)%string
              with ((a ++ b ++ c ++ e) ++ f ++ g)%string;
            rewrite includes_text_count by reflexivity; vm_compute; reflexivity
        end. }
    destruct H as [-> ->]. split; split; discriminate.
  - assert (H : bannerColour (notificationText (DuplicatesIgnored d)) = Blue /\
                bannerIcon (notificationText (DuplicatesIgnored d)) = IconInfo).
    { apply Hblue; cbn [notificationText];
        rewrite includes_count by reflexivity;
        destruct (1 <? d)%nat; vm_compute; reflexivity. }
    destruct H as [-> ->]. split; split; discriminate.
  - split; split; intros _; vm_compute; reflexivity.
  - assert (H : bannerColour (notificationText (SavedToHistory k)) = Blue /\
                bannerIcon (notificationText (SavedToHistory k)) = IconInfo).
    { apply Hblue; cbn [notificationText];
        rewrite includes_text_count by reflexivity; vm_compute; reflexivity. }
    destruct H as [-> ->]. split; split; discriminate.
Qed.

End Banner.
